(** * JSON-RPC TCP server core (lib/jsonrpc/jsonrpc_server_tcp.c)

    A shallow embedding of the connection pool, the receive and send paths
    and the poll step, followed by the properties of section 8 of the
    specification. *)

From Stdlib Require Import ZArith Lia Init.Byte.
From stdpp Require Import base option list.

Local Open Scope Z_scope.

(** ** Machine integers *)

(** [size_t] arithmetic wraps modulo 2^64. *)
Definition SIZE_MAX1 : Z := 2 ^ 64.
Definition size_t (z : Z) : Z := z mod SIZE_MAX1.
Global Arguments size_t : simpl never.

(** ** errno values the code distinguishes *)

Inductive errno := EAGAIN | EWOULDBLOCK | EINTR | ECONNRESET | EPIPE | EBADF | EMFILE.

(** [errno == EAGAIN || errno == EWOULDBLOCK || errno == EINTR] *)
Definition transient (e : errno) : bool :=
  match e with
  | EAGAIN | EWOULDBLOCK | EINTR => true
  | _ => false
  end.

(** ** Data model *)

(** [struct spdk_jsonrpc_request]: the owning connection (a slot index of
    [conns_array]), the response buffer and the send cursor. *)
Record spdk_jsonrpc_request := {
  req_conn : nat;
  send_buf : list byte;
  send_offset : Z;
  send_len : Z
}.

(** [struct spdk_jsonrpc_server_conn].  The [server] back pointer is left
    out (there is one server), the TAILQ link is the position of the slot
    index in the server's lists.  [outstanding_requests] is declared in the
    internal header; it is kept as an unbounded integer so that a decrement
    below zero is visible instead of wrapping. *)
Record spdk_jsonrpc_server_conn := {
  sockfd : Z;
  closed : bool;
  recv_len : Z;
  recv_buf : list byte;
  outstanding_requests : Z;
  send_queue : list spdk_jsonrpc_request;
  send_request : option spdk_jsonrpc_request
}.

(** [struct spdk_jsonrpc_server]: [free_conns] and [conns] hold slot
    indices into [conns_array]. *)
Record spdk_jsonrpc_server := {
  srv_sockfd : Z;
  conns_array : list spdk_jsonrpc_server_conn;
  free_conns : list nat;
  conns : list nat
}.

(** What the run leaves behind: every system call of the code, every frame
    handed to the handler and every released request (with the value of the
    owner's counter after the release). *)
Inductive event :=
| EvAccept (rc : Z)
| EvSetNonblock (fd : Z) (ok : bool)
| EvClose (fd : Z)
| EvRecv (fd : Z) (avail : Z) (rc : Z)
| EvSend (fd : Z) (sent : list byte) (rc : Z)
| EvDispatch (frame : list byte)
| EvFree (r : spdk_jsonrpc_request) (remaining : Z).

(** ** The kernel side of the socket calls

    The environment offers an outcome for each call; the return value the
    code sees is computed from the offer and the arguments of the call. *)

Inductive accept_offer := AcceptConn (fd : nat) (nonblock_ok : bool) | AcceptFail (e : errno).
Inductive recv_offer := RecvData (data : list byte) | RecvFail (e : errno).
Inductive send_offer := SendRoom (k : nat) | SendFail (e : errno).

Definition sys_accept (o : accept_offer) : Z :=
  match o with AcceptConn fd _ => Z.of_nat fd | AcceptFail _ => -1 end.

Definition accept_errno (o : accept_offer) : errno :=
  match o with AcceptConn _ _ => EAGAIN | AcceptFail e => e end.

Definition accept_nonblock_ok (o : accept_offer) : bool :=
  match o with AcceptConn _ ok => ok | AcceptFail _ => false end.

(** [recv(fd, p, avail, 0)]: at most [avail] of the bytes at hand are
    delivered; no byte at hand (end of stream) or [avail = 0] gives 0. *)
Definition sys_recv (o : recv_offer) (avail : Z) : Z * list byte :=
  match o with
  | RecvData data =>
      let got := take (Z.to_nat avail) data in (Z.of_nat (length got), got)
  | RecvFail _ => (-1, [])
  end.

Definition recv_errno (o : recv_offer) : errno :=
  match o with RecvData _ => EAGAIN | RecvFail e => e end.

(** [send(fd, p, len, 0)] with [data] the [len] bytes at [p]: the kernel
    takes a prefix of at most [k] bytes. *)
Definition sys_send (o : send_offer) (data : list byte) : Z * list byte :=
  match o with
  | SendRoom k => let put := take k data in (Z.of_nat (length put), put)
  | SendFail _ => (-1, [])
  end.

Definition send_errno (o : send_offer) : errno :=
  match o with SendRoom _ => EAGAIN | SendFail e => e end.

(** ** Constants of the internal header and the frame parser *)

Inductive parse_result := NoFrame | Consumed (n : Z) | Malformed.

(** Modelled from the spec: the internal header (jsonrpc_internal.h) and the
    frame parser behind [spdk_jsonrpc_parse_request] are not part of this
    file.  The pool capacity N, the receive buffer capacity and the
    recogniser of one complete frame at the front of a byte buffer
    ("no-frame", "consumed: bytes > 0", "malformed") are parameters. *)
Class Platform := {
  SPDK_JSONRPC_MAX_CONNS : nat;
  SPDK_JSONRPC_RECV_BUF_SIZE : Z;
  parse : list byte → parse_result
}.

(** ** Field updates *)

Definition set_sockfd (v : Z) (c : spdk_jsonrpc_server_conn) :=
  {| sockfd := v; closed := closed c; recv_len := recv_len c; recv_buf := recv_buf c;
     outstanding_requests := outstanding_requests c; send_queue := send_queue c;
     send_request := send_request c |}.

Definition set_closed (v : bool) (c : spdk_jsonrpc_server_conn) :=
  {| sockfd := sockfd c; closed := v; recv_len := recv_len c; recv_buf := recv_buf c;
     outstanding_requests := outstanding_requests c; send_queue := send_queue c;
     send_request := send_request c |}.

Definition set_recv (len : Z) (buf : list byte) (c : spdk_jsonrpc_server_conn) :=
  {| sockfd := sockfd c; closed := closed c; recv_len := len; recv_buf := buf;
     outstanding_requests := outstanding_requests c; send_queue := send_queue c;
     send_request := send_request c |}.

Definition set_outstanding_requests (v : Z) (c : spdk_jsonrpc_server_conn) :=
  {| sockfd := sockfd c; closed := closed c; recv_len := recv_len c; recv_buf := recv_buf c;
     outstanding_requests := v; send_queue := send_queue c;
     send_request := send_request c |}.

Definition set_send_queue (v : list spdk_jsonrpc_request) (c : spdk_jsonrpc_server_conn) :=
  {| sockfd := sockfd c; closed := closed c; recv_len := recv_len c; recv_buf := recv_buf c;
     outstanding_requests := outstanding_requests c; send_queue := v;
     send_request := send_request c |}.

Definition set_send_request (v : option spdk_jsonrpc_request) (c : spdk_jsonrpc_server_conn) :=
  {| sockfd := sockfd c; closed := closed c; recv_len := recv_len c; recv_buf := recv_buf c;
     outstanding_requests := outstanding_requests c; send_queue := send_queue c;
     send_request := v |}.

Definition set_cursor (off len : Z) (r : spdk_jsonrpc_request) :=
  {| req_conn := req_conn r; send_buf := send_buf r; send_offset := off; send_len := len |}.

Definition set_conns_array (v : list spdk_jsonrpc_server_conn) (s : spdk_jsonrpc_server) :=
  {| srv_sockfd := srv_sockfd s; conns_array := v; free_conns := free_conns s; conns := conns s |}.

Definition set_lists (fr ac : list nat) (s : spdk_jsonrpc_server) :=
  {| srv_sockfd := srv_sockfd s; conns_array := conns_array s; free_conns := fr; conns := ac |}.

(** ** Memory operations on the receive buffer *)

(** The bytes [recv] stores at [recv_buf + off]. *)
Definition buf_write (off : Z) (data buf : list byte) : list byte :=
  take (Z.to_nat off) buf ++ data ++ drop (Z.to_nat off + length data)%nat buf.

(** [memmove(buf, buf + src, n)] *)
Definition memmove_front (src n : Z) (buf : list byte) : list byte :=
  take (Z.to_nat n) (drop (Z.to_nat src) buf) ++ drop (Z.to_nat n) buf.

(** [TAILQ_REMOVE]: unlink the node of slot [i]. *)
Definition tailq_remove (i : nat) (l : list nat) : list nat :=
  filter (λ j, j ≠ i) l.

(** ** Connection-level operations

    A function that can fail an [assert] returns an [option]; [None] is the
    abort.  Every function also returns the events it produced. *)

Section Connection.
Context `{Platform}.

(** [spdk_jsonrpc_server_conn_close] *)
Definition spdk_jsonrpc_server_conn_close (c : spdk_jsonrpc_server_conn)
  : spdk_jsonrpc_server_conn * list event :=
  let c1 := set_closed true c in
  if 0 <=? sockfd c1
  then (set_sockfd (-1) c1, [EvClose (sockfd c1)])
  else (c1, []).

(** Modelled from the spec: [spdk_jsonrpc_parse_request] lives in another
    file.  It looks at the [size] bytes at [json]; on a complete frame it
    dispatches exactly that one frame to the handler, which counts it in the
    outstanding-request counter, and returns the number of bytes consumed;
    it returns 0 when no complete frame is there and a negative value on a
    malformed frame.  The specification names no effect of a malformed frame
    on the connection, and none is modelled here. *)
Definition spdk_jsonrpc_parse_request (c : spdk_jsonrpc_server_conn)
    (json : list byte) (size : Z) : Z * spdk_jsonrpc_server_conn * list event :=
  match parse (take (Z.to_nat size) json) with
  | NoFrame => (0, c, [])
  | Consumed n =>
      (n, set_outstanding_requests (outstanding_requests c + 1) c,
       [EvDispatch (take (Z.to_nat n) json)])
  | Malformed => (-1, c, [])
  end.

(** Modelled from the spec: [spdk_jsonrpc_free_request] lives in another
    file.  Releasing a request frees its buffer and decrements the
    outstanding-request counter of the connection that owns it.  [c] is
    that connection: a request is only ever held by the queue or the
    in-flight slot of [request->conn], where
    [spdk_jsonrpc_server_send_response] put it. *)
Definition spdk_jsonrpc_free_request (r : spdk_jsonrpc_request)
    (c : spdk_jsonrpc_server_conn) : spdk_jsonrpc_server_conn * list event :=
  let remaining := outstanding_requests c - 1 in
  (set_outstanding_requests remaining c, [EvFree r remaining]).

(** [spdk_jsonrpc_server_conn_recv] *)
Definition spdk_jsonrpc_server_conn_recv (o : recv_offer) (c : spdk_jsonrpc_server_conn)
  : option (Z * spdk_jsonrpc_server_conn * list event) :=
  let recv_avail := size_t (SPDK_JSONRPC_RECV_BUF_SIZE - recv_len c) in
  let '(rc, data) := sys_recv o recv_avail in
  let ev := EvRecv (sockfd c) recv_avail rc in
  if rc =? -1 then
    if transient (recv_errno o) then Some (0, c, [ev]) else Some (-1, c, [ev])
  else if rc =? 0 then Some (-1, c, [ev])
  else
    let c1 := set_recv (size_t (recv_len c + rc))
                       (buf_write (recv_len c) data (recv_buf c)) c in
    let '(rc, c2, evs) := spdk_jsonrpc_parse_request c1 (recv_buf c1) (recv_len c1) in
    if rc <? 0 then Some (-1, c2, ev :: evs)
    else if 0 <? rc then
      if size_t rc <=? recv_len c2 then
        Some (0,
              set_recv (size_t (recv_len c2 - rc))
                       (memmove_front rc (size_t (recv_len c2 - rc)) (recv_buf c2)) c2,
              ev :: evs)
      else None
    else Some (0, c2, ev :: evs).

(** [STAILQ_INSERT_TAIL] under the queue lock, as one atomic step. *)
Definition conn_enqueue (r : spdk_jsonrpc_request) (c : spdk_jsonrpc_server_conn) :=
  set_send_queue (send_queue c ++ [r]) c.

(** [spdk_jsonrpc_server_dequeue_request] *)
Definition spdk_jsonrpc_server_dequeue_request (c : spdk_jsonrpc_server_conn)
  : option spdk_jsonrpc_request * spdk_jsonrpc_server_conn :=
  match send_queue c with
  | [] => (None, c)
  | request :: rest => (Some request, set_send_queue rest c)
  end.

(** The bytes [send] is given: [send_len] bytes at [send_buf + send_offset]. *)
Definition send_window (r : spdk_jsonrpc_request) : list byte :=
  take (Z.to_nat (send_len r)) (drop (Z.to_nat (send_offset r)) (send_buf r)).

(** What one pass through the body of [spdk_jsonrpc_server_conn_send]
    ends in: a [return], or the jump back to the label [more]. *)
Inductive pass_result :=
| Return (rc : Z) (c : spdk_jsonrpc_server_conn) (tr : list event)
| More (c : spdk_jsonrpc_server_conn) (offers : list send_offer) (tr : list event).

(** The tail of the body: after the [send] block, a request whose
    [send_len] is zero is released and the pass jumps back to [more]. *)
Definition conn_send_finish (c : spdk_jsonrpc_server_conn) (request : spdk_jsonrpc_request)
    (offers : list send_offer) (tr : list event) : pass_result :=
  if send_len request =? 0 then
    let '(c', evf) := spdk_jsonrpc_free_request request (set_send_request None c) in
    More c' offers (tr ++ evf)
  else Return 0 c tr.

(** One pass from the label [more].  [offers] holds the outcomes of the
    [send] calls of this step in order; when it runs out the socket would
    block. *)
Definition conn_send_pass (offers : list send_offer) (c : spdk_jsonrpc_server_conn)
  : pass_result :=
  if outstanding_requests c =? 0 then Return 0 c [] else
  let c1 :=
    match send_request c with
    | None => let '(r, c') := spdk_jsonrpc_server_dequeue_request c in set_send_request r c'
    | Some _ => c
    end in
  match send_request c1 with
  | None => Return 0 c1 []
  | Some request =>
    if 0 <? send_len request then
      let o := hd (SendFail EAGAIN) offers in
      let '(rc, sent) := sys_send o (send_window request) in
      let ev := EvSend (sockfd c1) sent rc in
      if rc <? 0 then
        if transient (send_errno o) then Return 0 c1 [ev] else Return (-1) c1 [ev]
      else
        let request' := set_cursor (size_t (send_offset request + rc))
                                   (size_t (send_len request - rc)) request in
        conn_send_finish (set_send_request (Some request') c1) request' (tl offers) [ev]
    else conn_send_finish c1 request offers []
  end.

(** The passes of one call.  The result is [None] only when [fuel] passes
    do not reach a [return]. *)
Fixpoint conn_send_loop (fuel : nat) (offers : list send_offer)
    (c : spdk_jsonrpc_server_conn) : option (Z * spdk_jsonrpc_server_conn * list event) :=
  match fuel with
  | O => None
  | S fuel' =>
    match conn_send_pass offers c with
    | Return rc c' tr => Some (rc, c', tr)
    | More c' offers' tr =>
        '(rc, c'', tr') ← conn_send_loop fuel' offers' c';
        Some (rc, c'', tr ++ tr')
    end
  end.

(** [spdk_jsonrpc_server_conn_send].  Each pass that jumps back to [more]
    has released one request, so the number of requests the connection
    holds, plus two, bounds the passes. *)
Definition spdk_jsonrpc_server_conn_send (offers : list send_offer)
    (c : spdk_jsonrpc_server_conn) : option (Z * spdk_jsonrpc_server_conn * list event) :=
  conn_send_loop (S (S (length (send_queue c)))) offers c.

End Connection.

(** ** Server-level operations

    The two TAILQs hold pointers to elements of [conns_array]; here they
    hold the indices.  Reading a slot through an index outside the array,
    which no pointer of the lists can be, gives [None] like a failed
    [assert]. *)

(** Outcomes of the set-up calls of [spdk_jsonrpc_server_listen]: whether
    [calloc] gives memory, the results of [socket], [bind] and [listen], and
    whether the [fcntl] to non-blocking mode succeeds. *)
Record listen_env := {
  calloc_ok : bool;
  socket_rc : Z;
  listen_nonblock_ok : bool;
  bind_rc : Z;
  listen_rc : Z
}.

(** What the environment offers during one poll step: one outcome for the
    [accept] call and, for each descriptor, the outcomes of the [send]
    calls and of the [recv] call. *)
Record poll_env := {
  env_accept : accept_offer;
  env_send : Z → list send_offer;
  env_recv : Z → recv_offer
}.

Section Server.
Context `{Platform}.

(** A slot as [calloc] leaves it. *)
Definition zero_conn : spdk_jsonrpc_server_conn :=
  {| sockfd := 0; closed := false; recv_len := 0;
     recv_buf := replicate (Z.to_nat SPDK_JSONRPC_RECV_BUF_SIZE) x00;
     outstanding_requests := 0; send_queue := []; send_request := None |}.

(** [spdk_jsonrpc_server_listen]; [None] is the NULL result.  The events
    are the [fcntl] and [close] calls on the descriptor of [socket]; the
    [setsockopt] calls, whose results the code does not look at, leave no
    event. *)
Definition spdk_jsonrpc_server_listen (e : listen_env)
  : option spdk_jsonrpc_server * list event :=
  if negb (calloc_ok e) then (None, []) else
  let server :=
    {| srv_sockfd := socket_rc e;
       conns_array := replicate SPDK_JSONRPC_MAX_CONNS zero_conn;
       free_conns := foldl (λ fr i, fr ++ [i]) [] (seq 0 SPDK_JSONRPC_MAX_CONNS);
       conns := [] |} in
  if srv_sockfd server <? 0 then (None, [])
  else if negb (listen_nonblock_ok e) then
    (None, [EvSetNonblock (srv_sockfd server) false; EvClose (srv_sockfd server)])
  else if negb (bind_rc e =? 0) then
    (None, [EvSetNonblock (srv_sockfd server) true; EvClose (srv_sockfd server)])
  else if negb (listen_rc e =? 0) then
    (None, [EvSetNonblock (srv_sockfd server) true; EvClose (srv_sockfd server)])
  else (Some server, [EvSetNonblock (srv_sockfd server) true]).

(** [spdk_jsonrpc_server_conn_remove] on the slot [i]. *)
Definition spdk_jsonrpc_server_conn_remove (i : nat) (s : spdk_jsonrpc_server)
  : option (spdk_jsonrpc_server * list event) :=
  c ← conns_array s !! i;
  let '(c1, ev) := spdk_jsonrpc_server_conn_close c in
  match send_queue c1 with
  | [] =>
      Some (set_lists (i :: free_conns s) (tailq_remove i (conns s))
              (set_conns_array (<[i := c1]> (conns_array s)) s), ev)
  | _ :: _ => None
  end.

(** [spdk_jsonrpc_server_accept] *)
Definition spdk_jsonrpc_server_accept (o : accept_offer) (s : spdk_jsonrpc_server)
  : option (Z * spdk_jsonrpc_server * list event) :=
  let rc := sys_accept o in
  if 0 <=? rc then
    match free_conns s with
    | [] => None
    | i :: _ =>
      c ← conns_array s !! i;
      let c' := {| sockfd := rc; closed := false; recv_len := 0; recv_buf := recv_buf c;
                   outstanding_requests := 0; send_queue := []; send_request := None |} in
      let s1 := set_conns_array (<[i := c']> (conns_array s)) s in
      if accept_nonblock_ok o then
        Some (0, set_lists (tailq_remove i (free_conns s1)) (conns s1 ++ [i]) s1,
              [EvAccept rc; EvSetNonblock rc true])
      else
        Some (-1, s1, [EvAccept rc; EvSetNonblock rc false; EvClose rc])
    end
  else if transient (accept_errno o) then Some (0, s, [EvAccept rc])
  else Some (-1, s, [EvAccept rc]).

(** [spdk_jsonrpc_server_send_response]: the request goes to the tail of
    the queue of [request->conn]. *)
Definition spdk_jsonrpc_server_send_response (request : spdk_jsonrpc_request)
    (s : spdk_jsonrpc_server) : spdk_jsonrpc_server :=
  match conns_array s !! req_conn request with
  | Some c => set_conns_array (<[req_conn request := conn_enqueue request c]> (conns_array s)) s
  | None => s
  end.

(** The loop [while ((request = dequeue(conn)) != NULL) free(request)];
    [n] bounds the passes and is the queue length at the call. *)
Fixpoint discard_queued (n : nat) (c : spdk_jsonrpc_server_conn)
  : spdk_jsonrpc_server_conn * list event :=
  match n with
  | O => (c, [])
  | S n' =>
    match spdk_jsonrpc_server_dequeue_request c with
    | (None, c1) => (c1, [])
    | (Some request, c1) =>
        let '(c2, ev) := spdk_jsonrpc_free_request request c1 in
        let '(c3, evs) := discard_queued n' c2 in
        (c3, ev ++ evs)
    end
  end.

(** The part of the first loop of [spdk_jsonrpc_server_poll] that works on
    the connection alone: release the in-flight request and the queue. *)
Definition discard_responses (c : spdk_jsonrpc_server_conn)
  : spdk_jsonrpc_server_conn * list event :=
  let '(c1, ev1) :=
    match send_request c with
    | Some request =>
        let '(c', ev) := spdk_jsonrpc_free_request request c in
        (set_send_request None c', ev)
    | None => (c, [])
    end in
  let '(c2, ev2) := discard_queued (length (send_queue c1)) c1 in
  (c2, ev1 ++ ev2).

(** Body of the first loop of [spdk_jsonrpc_server_poll] for slot [i]. *)
Definition poll_reap_conn (i : nat) (s : spdk_jsonrpc_server)
  : option (spdk_jsonrpc_server * list event) :=
  c ← conns_array s !! i;
  if closed c then
    let '(c2, ev) := discard_responses c in
    let s2 := set_conns_array (<[i := c2]> (conns_array s)) s in
    if outstanding_requests c2 =? 0 then
      '(s3, ev3) ← spdk_jsonrpc_server_conn_remove i s2;
      Some (s3, ev ++ ev3)
    else Some (s2, ev)
  else Some (s, []).

(** [TAILQ_FOREACH_SAFE] over the active list as it is when the loop
    starts; removing the current node does not disturb the walk. *)
Fixpoint poll_reap (l : list nat) (s : spdk_jsonrpc_server)
  : option (spdk_jsonrpc_server * list event) :=
  match l with
  | [] => Some (s, [])
  | i :: l' =>
      '(s1, e1) ← poll_reap_conn i s;
      '(s2, e2) ← poll_reap l' s1;
      Some (s2, e1 ++ e2)
  end.

(** Body of the second loop of [spdk_jsonrpc_server_poll] for one
    connection. *)
Definition poll_io_conn (env : poll_env) (c : spdk_jsonrpc_server_conn)
  : option (spdk_jsonrpc_server_conn * list event) :=
  if closed c then Some (c, []) else
  '(rc, c1, e1) ← spdk_jsonrpc_server_conn_send (env_send env (sockfd c)) c;
  if negb (rc =? 0) then
    let '(c2, e2) := spdk_jsonrpc_server_conn_close c1 in Some (c2, e1 ++ e2)
  else
    '(rc, c2, e2) ← spdk_jsonrpc_server_conn_recv (env_recv env (sockfd c1)) c1;
    if negb (rc =? 0) then
      let '(c3, e3) := spdk_jsonrpc_server_conn_close c2 in Some (c3, e1 ++ e2 ++ e3)
    else Some (c2, e1 ++ e2).

(** [TAILQ_FOREACH] of the second loop; the list does not change here. *)
Fixpoint poll_io (env : poll_env) (l : list nat) (s : spdk_jsonrpc_server)
  : option (spdk_jsonrpc_server * list event) :=
  match l with
  | [] => Some (s, [])
  | i :: l' =>
      c ← conns_array s !! i;
      '(c', e1) ← poll_io_conn env c;
      '(s2, e2) ← poll_io env l' (set_conns_array (<[i := c']> (conns_array s)) s);
      Some (s2, e1 ++ e2)
  end.

(** The listen-socket check between the two loops; the result of
    [spdk_jsonrpc_server_accept] is dropped. *)
Definition poll_accept (env : poll_env) (s : spdk_jsonrpc_server)
  : option (spdk_jsonrpc_server * list event) :=
  match free_conns s with
  | [] => Some (s, [])
  | _ :: _ =>
      '(_, s', e) ← spdk_jsonrpc_server_accept (env_accept env) s;
      Some (s', e)
  end.

(** [spdk_jsonrpc_server_poll] *)
Definition spdk_jsonrpc_server_poll (env : poll_env) (s : spdk_jsonrpc_server)
  : option (Z * spdk_jsonrpc_server * list event) :=
  '(s1, e1) ← poll_reap (conns s) s;
  '(s2, e2) ← poll_accept env s1;
  '(s3, e3) ← poll_io env (conns s2) s2;
  Some (0, s3, e1 ++ e2 ++ e3).

(** [spdk_jsonrpc_server_shutdown]: the descriptors it closes. *)
Definition spdk_jsonrpc_server_shutdown (s : spdk_jsonrpc_server) : list event :=
  EvClose (srv_sockfd s) ::
  omap (λ i, c ← conns_array s !! i; Some (EvClose (sockfd c))) (conns s).

End Server.

(** ** Observations and invariants *)

Section Observations.
Context `{Platform}.

(** The requests a connection holds, in the order they will be sent. *)
Definition held (c : spdk_jsonrpc_server_conn) : list spdk_jsonrpc_request :=
  option_list (send_request c) ++ send_queue c.

(** The bytes still to be transmitted for the held requests. *)
Definition pending_bytes (c : spdk_jsonrpc_server_conn) : list byte :=
  concat (map send_window (held c)).

(** The bytes the kernel took on descriptor [fd]. *)
Fixpoint wire (fd : Z) (tr : list event) : list byte :=
  match tr with
  | [] => []
  | EvSend fd' sent _ :: tr' => if decide (fd' = fd) then sent ++ wire fd tr' else wire fd tr'
  | _ :: tr' => wire fd tr'
  end.

(** The frames handed to the handler. *)
Fixpoint dispatched (tr : list event) : list (list byte) :=
  match tr with
  | [] => []
  | EvDispatch frame :: tr' => frame :: dispatched tr'
  | _ :: tr' => dispatched tr'
  end.

(** The descriptor a system call of the trace works on. *)
Definition event_fd (e : event) : option Z :=
  match e with
  | EvSetNonblock fd _ | EvClose fd | EvRecv fd _ _ | EvSend fd _ _ => Some fd
  | EvAccept _ | EvDispatch _ | EvFree _ _ => None
  end.

(** No release drove the counter below zero. *)
Definition free_nonneg (e : event) : Prop :=
  match e with EvFree _ n => 0 ≤ n | _ => True end.

(** The send cursor stays inside [size_t]. *)
Definition wf_request (r : spdk_jsonrpc_request) : Prop :=
  0 ≤ send_offset r ∧ 0 ≤ send_len r ∧ send_offset r + send_len r < SIZE_MAX1.

(** The response buffer holds the bytes of the window, at most [m] of
    them. *)
Definition window_ok (m : Z) (r : spdk_jsonrpc_request) : Prop :=
  Z.of_nat (length (send_window r)) = send_len r ∧ send_len r ≤ m.

(** A transport with room: every [send] takes at least [m] bytes. *)
Definition room (m : Z) (o : send_offer) : Prop :=
  ∃ k, o = SendRoom k ∧ m ≤ Z.of_nat k.

(** Every held request is counted: it was dispatched and not yet released. *)
Definition counter_inv (c : spdk_jsonrpc_server_conn) : Prop :=
  Z.of_nat (length (held c)) ≤ outstanding_requests c.

(** The filled part of the receive buffer. *)
Definition filled (c : spdk_jsonrpc_server_conn) : list byte :=
  take (Z.to_nat (recv_len c)) (recv_buf c).

(** The fill length stays inside the receive buffer. *)
Definition recv_inv (c : spdk_jsonrpc_server_conn) : Prop :=
  0 ≤ recv_len c ≤ SPDK_JSONRPC_RECV_BUF_SIZE ∧
  length (recv_buf c) = Z.to_nat SPDK_JSONRPC_RECV_BUF_SIZE.

(** A closed connection has given up its descriptor, an open one has one. *)
Definition fd_inv (c : spdk_jsonrpc_server_conn) : Prop :=
  if closed c then sockfd c = -1 else 0 ≤ sockfd c.

(** The connection fields a receive step leaves alone. *)
Definition same_send_side (c c' : spdk_jsonrpc_server_conn) : Prop :=
  sockfd c' = sockfd c ∧ closed c' = closed c ∧
  send_queue c' = send_queue c ∧ send_request c' = send_request c.

(** The connection fields a send step leaves alone. *)
Definition same_recv_side (c c' : spdk_jsonrpc_server_conn) : Prop :=
  sockfd c' = sockfd c ∧ closed c' = closed c ∧
  recv_len c' = recv_len c ∧ recv_buf c' = recv_buf c.

(** The only events of a send step: [send] on the descriptor and releases. *)
Definition send_event (fd : Z) (e : event) : Prop :=
  match e with
  | EvSend fd' _ _ => fd' = fd
  | EvFree _ _ => True
  | _ => False
  end.

(** The only events of a receive step: [recv] on the descriptor and the
    dispatch of a frame. *)
Definition recv_event (fd : Z) (e : event) : Prop :=
  match e with
  | EvRecv fd' _ _ => fd' = fd
  | EvDispatch _ => True
  | _ => False
  end.

(** A release. *)
Definition free_event (e : event) : Prop :=
  match e with EvFree _ _ => True | _ => False end.

(** The events of the send and receive steps of a connection. *)
Definition io_event (fd : Z) (e : event) : Prop :=
  send_event fd e ∨ recv_event fd e.

(** What every part of a send step keeps: the receive side, well-formed
    cursors, the bytes (sent or still pending, in order), the counter
    invariant. *)
Definition send_step_ok (c c' : spdk_jsonrpc_server_conn) (tr : list event) : Prop :=
  same_recv_side c c' ∧
  Forall wf_request (held c') ∧
  wire (sockfd c) tr ++ pending_bytes c' = pending_bytes c ∧
  Forall (send_event (sockfd c)) tr ∧
  (counter_inv c → counter_inv c' ∧ Forall free_nonneg tr).

(** The contract of the absent parts. *)
Definition platform_ok : Prop :=
  0 ≤ SPDK_JSONRPC_RECV_BUF_SIZE < SIZE_MAX1 ∧
  ∀ b n, parse b = Consumed n → 0 < n ≤ Z.of_nat (length b).

(** Every slot is on exactly one of the two lists. *)
Definition pool_inv (s : spdk_jsonrpc_server) : Prop :=
  length (conns_array s) = SPDK_JSONRPC_MAX_CONNS ∧
  free_conns s ++ conns s ≡ₚ seq 0 SPDK_JSONRPC_MAX_CONNS.

(** The conditions under which a slot may go back to the free list. *)
Definition quiescent (c : spdk_jsonrpc_server_conn) : Prop :=
  closed c = true ∧ outstanding_requests c = 0 ∧
  send_queue c = [] ∧ send_request c = None.

(** A system call of the trace never works on a negative descriptor. *)
Definition fd_valid (e : event) : Prop :=
  match event_fd e with Some fd => 0 ≤ fd | None => True end.

(** A trace without a system call on a negative descriptor and without a
    release below zero. *)
Definition trace_ok (tr : list event) : Prop :=
  Forall fd_valid tr ∧ Forall free_nonneg tr.

(** What holds of every slot between the operations. *)
Definition conn_ok (c : spdk_jsonrpc_server_conn) : Prop :=
  recv_inv c ∧ fd_inv c ∧ counter_inv c ∧ Forall wf_request (held c).

(** A well-formed server: the pool is partitioned and every slot is well
    formed. *)
Definition server_inv (s : spdk_jsonrpc_server) : Prop :=
  pool_inv s ∧ Forall conn_ok (conns_array s).

(** The requests a slot holds name that slot as their connection, so that
    releasing a held request decrements the counter of its holder. *)
Definition owner_ok (i : nat) (c : spdk_jsonrpc_server_conn) : Prop :=
  Forall (λ r, req_conn r = i) (held c).

(** Every slot holds only requests of its own. *)
Definition owned (s : spdk_jsonrpc_server) : Prop :=
  ∀ i c, conns_array s !! i = Some c → owner_ok i c.

(** The dispatcher's side of the contract for a submission: the response
    is well formed and answers a request that was dispatched on its
    connection and not yet answered. *)
Definition counted (r : spdk_jsonrpc_request) (s : spdk_jsonrpc_server) : Prop :=
  wf_request r ∧
  ∀ c, conns_array s !! req_conn r = Some c →
       Z.of_nat (length (held c)) < outstanding_requests c.

End Observations.

(** ** A line-oriented parser and sample data, for concrete runs *)

(** A frame ends at the first line feed; a buffer that starts with 0xff is
    malformed. *)
Fixpoint line_end (b : list byte) : option nat :=
  match b with
  | [] => None
  | x0a :: _ => Some 1%nat
  | _ :: b' => S <$> line_end b'
  end.

Definition line_parse (b : list byte) : parse_result :=
  match b with
  | xff :: _ => Malformed
  | _ => match line_end b with Some n => Consumed (Z.of_nat n) | None => NoFrame end
  end.

Definition line_platform (n : nat) (size : Z) : Platform :=
  {| SPDK_JSONRPC_MAX_CONNS := n; SPDK_JSONRPC_RECV_BUF_SIZE := size; parse := line_parse |}.

(** An open connection on descriptor 5 with an empty 8-byte buffer. *)
Definition sample_conn : spdk_jsonrpc_server_conn :=
  {| sockfd := 5; closed := false; recv_len := 0; recv_buf := replicate 8 x00;
     outstanding_requests := 0; send_queue := []; send_request := None |}.

Definition sample_request (i : nat) (payload : list byte) : spdk_jsonrpc_request :=
  {| req_conn := i; send_buf := payload; send_offset := 0;
     send_len := Z.of_nat (length payload) |}.

(** A closed connection that has given up its descriptor. *)
Definition closed_conn : spdk_jsonrpc_server_conn :=
  set_sockfd (-1) (set_closed true sample_conn).

(** A connection whose 8-byte buffer is full of bytes without a line feed. *)
Definition full_conn : spdk_jsonrpc_server_conn :=
  set_recv 8 (replicate 8 x61) sample_conn.

(** Two complete frames, one byte and a line feed each. *)
Definition two_frames : list byte := [x61; x0a; x62; x0a].

(** The environment of a poll step in which every descriptor has the same
    offers. *)
Definition uniform_env (a : accept_offer) (snd : list send_offer) (rcv : recv_offer)
  : poll_env :=
  {| env_accept := a; env_send := λ _, snd; env_recv := λ _, rcv |}.

(** An open connection with one counted response in its queue. *)
Definition queued_conn : spdk_jsonrpc_server_conn :=
  set_outstanding_requests 1 (set_send_queue [sample_request 0 two_frames] sample_conn).

(** The same connection once the response is in flight. *)
Definition inflight_conn : spdk_jsonrpc_server_conn :=
  set_outstanding_requests 1
    (set_send_request (Some (sample_request 0 two_frames)) sample_conn).

(** Three responses and an open connection that counts three dispatched
    requests. *)
Definition resp_A : spdk_jsonrpc_request := sample_request 0 [x41; x41; x41].
Definition resp_B : spdk_jsonrpc_request := sample_request 0 [x42; x42].
Definition resp_C : spdk_jsonrpc_request := sample_request 0 [x43].

Definition busy_conn : spdk_jsonrpc_server_conn :=
  set_outstanding_requests 3 sample_conn.

(** Set-up calls that all succeed, the listening socket on descriptor 3. *)
Definition sample_listen_env : listen_env :=
  {| calloc_ok := true; socket_rc := 3; listen_nonblock_ok := true;
     bind_rc := 0; listen_rc := 0 |}.

(** A closed connection that still holds a response in flight for its one
    outstanding request. *)
Definition draining_conn : spdk_jsonrpc_server_conn :=
  set_outstanding_requests 1
    (set_send_request (Some (sample_request 1 two_frames)) closed_conn).

(** A server with two slots, both active: slot 0 open on descriptor 5,
    slot 1 closed and draining. *)
Definition sample_server : spdk_jsonrpc_server :=
  {| srv_sockfd := 3; conns_array := [sample_conn; draining_conn];
     free_conns := []; conns := [0; 1]%nat |}.

(** A poll step in which a peer connects on descriptor 6 and nothing is
    readable or writable. *)
Definition sample_env : poll_env :=
  uniform_env (AcceptConn 6 true) [] (RecvFail EAGAIN).

(** ** Runs of a connection *)

(** The requests released in a trace, in order. *)
Fixpoint released (tr : list event) : list spdk_jsonrpc_request :=
  match tr with
  | [] => []
  | EvFree r _ :: tr' => r :: released tr'
  | _ :: tr' => released tr'
  end.

(** The releases of the requests [rs] in order, the owner's counter at [n]
    before the first of them. *)
Fixpoint release_events (n : Z) (rs : list spdk_jsonrpc_request) : list event :=
  match rs with
  | [] => []
  | r :: rs' => EvFree r (n - 1) :: release_events (n - 1) rs'
  end.

(** Send steps of successive polls on a transport that takes at most [k]
    bytes per call, one [k] for each step. *)
Fixpoint send_steps (ks : list nat) (c : spdk_jsonrpc_server_conn)
  : option (spdk_jsonrpc_server_conn * list event) :=
  match ks with
  | [] => Some (c, [])
  | k :: ks' =>
      '(_, c1, t1) ← spdk_jsonrpc_server_conn_send [SendRoom k] c;
      '(c2, t2) ← send_steps ks' c1;
      Some (c2, t1 ++ t2)
  end.

(** What happens to the send side of a connection: a response is
    submitted (one locked append to the queue), the poll step runs a whole
    send step, or the poll step runs one pass of a send step, so that
    submissions from another thread can fall between the passes of one
    call. *)
Inductive conn_action :=
| Submit (r : spdk_jsonrpc_request)
| SendStep (offers : list send_offer)
| SendPass (offers : list send_offer).

Fixpoint run_actions (acts : list conn_action) (c : spdk_jsonrpc_server_conn)
  : option (spdk_jsonrpc_server_conn * list event) :=
  match acts with
  | [] => Some (c, [])
  | Submit r :: acts' => run_actions acts' (conn_enqueue r c)
  | SendStep offers :: acts' =>
      '(_, c1, t1) ← spdk_jsonrpc_server_conn_send offers c;
      '(c2, t2) ← run_actions acts' c1;
      Some (c2, t1 ++ t2)
  | SendPass offers :: acts' =>
      let '(c1, t1) :=
        match conn_send_pass offers c with
        | Return _ c1 t1 | More c1 _ t1 => (c1, t1)
        end in
      '(c2, t2) ← run_actions acts' c1;
      Some (c2, t1 ++ t2)
  end.

(** The responses submitted during a run, in submission order. *)
Fixpoint submitted (acts : list conn_action) : list spdk_jsonrpc_request :=
  match acts with
  | [] => []
  | Submit r :: acts' => r :: submitted acts'
  | SendStep _ :: acts' | SendPass _ :: acts' => submitted acts'
  end.

(** ** Runs of the server *)

(** What happens to a server between construction and shutdown: the
    application polls it, the dispatcher submits a response. *)
Inductive server_action :=
| Poll (env : poll_env)
| Respond (r : spdk_jsonrpc_request).

Section ServerRuns.
Context `{Platform}.

Fixpoint run_server (acts : list server_action) (s : spdk_jsonrpc_server)
  : option (spdk_jsonrpc_server * list event) :=
  match acts with
  | [] => Some (s, [])
  | Poll env :: acts' =>
      '(_, s1, t1) ← spdk_jsonrpc_server_poll env s;
      '(s2, t2) ← run_server acts' s1;
      Some (s2, t1 ++ t2)
  | Respond r :: acts' => run_server acts' (spdk_jsonrpc_server_send_response r s)
  end.

(** The dispatcher keeps its contract throughout the run: every response
    it submits is [counted] at the time of the submission. *)
Fixpoint contract_kept (acts : list server_action) (s : spdk_jsonrpc_server) : Prop :=
  match acts with
  | [] => True
  | Poll env :: acts' =>
      match spdk_jsonrpc_server_poll env s with
      | Some (_, s1, _) => contract_kept acts' s1
      | None => False
      end
  | Respond r :: acts' =>
      counted r s ∧ contract_kept acts' (spdk_jsonrpc_server_send_response r s)
  end.

End ServerRuns.

(** Three poll steps: the peer of descriptor 5 shuts down; a peer connects
    on descriptor 6; another one connects on descriptor 7. *)
Definition sample_run : list server_action :=
  [Poll (uniform_env (AcceptFail EAGAIN) [] (RecvData []));
   Poll sample_env;
   Poll (uniform_env (AcceptConn 7 true) [] (RecvFail EAGAIN))].

(** A request and its answer: a peer connects on descriptor 5, sends one
    frame, the dispatcher submits a two-byte response, and the transport
    takes one byte per step. *)
Definition sample_exchange : list server_action :=
  [Poll (uniform_env (AcceptConn 5 true) [] (RecvFail EAGAIN));
   Poll (uniform_env (AcceptFail EAGAIN) [] (RecvData [x61; x0a]));
   Respond (sample_request 0 [x62; x0a]);
   Poll (uniform_env (AcceptFail EAGAIN) [SendRoom 1] (RecvFail EAGAIN));
   Poll (uniform_env (AcceptFail EAGAIN) [SendRoom 1] (RecvFail EAGAIN))].

(** ** Further observations *)

(** The results of the [accept] calls of a trace, in order. *)
Fixpoint accept_calls (tr : list event) : list Z :=
  match tr with
  | [] => []
  | EvAccept rc :: tr' => rc :: accept_calls tr'
  | _ :: tr' => accept_calls tr'
  end.

(** A server whose two slots are free, the listening socket on
    descriptor 3. *)
Definition idle_server : spdk_jsonrpc_server :=
  {| srv_sockfd := 3; conns_array := [sample_conn; closed_conn];
     free_conns := [1; 0]%nat; conns := [] |}.

(** A parser that breaks the contract: it reports one byte more than it
    was given. *)
Definition overrun_platform : Platform :=
  {| SPDK_JSONRPC_MAX_CONNS := 2; SPDK_JSONRPC_RECV_BUF_SIZE := 8;
     parse := λ b, Consumed (Z.of_nat (length b) + 1) |}.

(** The server [spdk_jsonrpc_server_listen] returns for [sample_listen_env]
    with two slots of 8 bytes. *)
Definition listening_server : spdk_jsonrpc_server :=
  {| srv_sockfd := 3; conns_array := replicate 2 (set_sockfd 0 sample_conn);
     free_conns := [0; 1]%nat; conns := [] |}.

(** A peer that leaves before it is answered: it connects on descriptor 5,
    sends one frame and shuts down; the next poll step finds bytes and room
    on every descriptor; then the dispatcher submits the response, and the
    last step reaps the slot. *)
Definition abandoned_run : list server_action :=
  [Poll (uniform_env (AcceptConn 5 true) [] (RecvFail EAGAIN));
   Poll (uniform_env (AcceptFail EAGAIN) [] (RecvData [x61; x0a]));
   Poll (uniform_env (AcceptFail EAGAIN) [] (RecvData []));
   Poll (uniform_env (AcceptFail EAGAIN) [SendRoom 8] (RecvData [x62; x0a]));
   Respond (sample_request 0 [x62; x0a]);
   Poll (uniform_env (AcceptFail EAGAIN) [SendRoom 8] (RecvData [x62; x0a]))].

(** * Properties *)

(** ** Arithmetic and buffer lemmas *)

Lemma size_t_small z : 0 ≤ z < SIZE_MAX1 → size_t z = z.
Proof. intros. unfold size_t. by apply Z.mod_small. Qed.

Lemma SIZE_MAX1_pos : 0 < SIZE_MAX1.
Proof. reflexivity. Qed.

Lemma buf_write_length off data buf :
  (Z.to_nat off + length data ≤ length buf)%nat →
  length (buf_write off data buf) = length buf.
Proof.
  intros. unfold buf_write. rewrite !length_app, length_take, length_drop. lia.
Qed.

Lemma buf_write_filled off data buf :
  (Z.to_nat off + length data ≤ length buf)%nat →
  take (Z.to_nat off + length data) (buf_write off data buf)
  = take (Z.to_nat off) buf ++ data.
Proof.
  intros. unfold buf_write. rewrite app_assoc.
  rewrite take_app_length'; [done|].
  rewrite length_app, length_take. lia.
Qed.

Lemma memmove_front_length src n buf :
  (Z.to_nat src + Z.to_nat n ≤ length buf)%nat →
  length (memmove_front src n buf) = length buf.
Proof.
  intros. unfold memmove_front. rewrite length_app, length_take, !length_drop. lia.
Qed.

Lemma memmove_front_filled src n buf :
  (Z.to_nat src + Z.to_nat n ≤ length buf)%nat →
  take (Z.to_nat n) (memmove_front src n buf)
  = drop (Z.to_nat src) (take (Z.to_nat src + Z.to_nat n) buf).
Proof.
  intros. unfold memmove_front.
  rewrite take_app_length'.
  - by rewrite take_drop_commute.
  - rewrite length_take, length_drop. lia.
Qed.

(** ** The receive step *)

Section RecvProps.
Context `{Platform}.

Lemma conn_recv_spec (o : recv_offer) (c : spdk_jsonrpc_server_conn) :
  platform_ok → recv_inv c →
  let avail := SPDK_JSONRPC_RECV_BUF_SIZE - recv_len c in
  match o with
  | RecvFail e =>
      spdk_jsonrpc_server_conn_recv o c
      = Some (if transient e then 0 else -1, c, [EvRecv (sockfd c) avail (-1)])
  | RecvData data =>
      let got := take (Z.to_nat avail) data in
      let ev := EvRecv (sockfd c) avail (Z.of_nat (length got)) in
      if decide (got = []) then
        spdk_jsonrpc_server_conn_recv o c = Some (-1, c, [ev])
      else ∃ c',
        recv_inv c' ∧ same_send_side c c' ∧
        match parse (filled c ++ got) with
        | NoFrame =>
            spdk_jsonrpc_server_conn_recv o c = Some (0, c', [ev]) ∧
            filled c' = filled c ++ got ∧
            outstanding_requests c' = outstanding_requests c
        | Consumed n =>
            spdk_jsonrpc_server_conn_recv o c
            = Some (0, c', [ev; EvDispatch (take (Z.to_nat n) (filled c ++ got))]) ∧
            filled c' = drop (Z.to_nat n) (filled c ++ got) ∧
            outstanding_requests c' = outstanding_requests c + 1
        | Malformed =>
            spdk_jsonrpc_server_conn_recv o c = Some (-1, c', [ev]) ∧
            filled c' = filled c ++ got ∧
            outstanding_requests c' = outstanding_requests c
        end
  end.
Proof.
  intros [Hsz Hparse] [Hlen Hbuf] avail.
  assert (Hav : size_t (SPDK_JSONRPC_RECV_BUF_SIZE - recv_len c) = avail)
    by (apply size_t_small; unfold avail; lia).
  unfold spdk_jsonrpc_server_conn_recv. rewrite Hav.
  destruct o as [data|e]; simpl.
  2:{ by destruct (transient e). }
  set (got := take (Z.to_nat avail) data).
  assert (Hgot : (length got ≤ Z.to_nat avail)%nat) by (unfold got; rewrite length_take; lia).
  destruct (decide (got = [])) as [Hnil|Hne].
  { rewrite Hnil. simpl. done. }
  assert (Hpos : (0 < length got)%nat) by (destruct got; simpl; [done|lia]).
  destruct (Z.of_nat (length got) =? -1) eqn:E1; [lia|].
  destruct (Z.of_nat (length got) =? 0) eqn:E0; [lia|].
  assert (Hnew : size_t (recv_len c + Z.of_nat (length got)) = recv_len c + Z.of_nat (length got))
    by (apply size_t_small; unfold avail in *; lia).
  rewrite Hnew.
  set (buf1 := buf_write (recv_len c) got (recv_buf c)).
  assert (Hbuf1 : length buf1 = Z.to_nat SPDK_JSONRPC_RECV_BUF_SIZE).
  { unfold buf1. rewrite buf_write_length; unfold avail in *; lia. }
  assert (Hfill1 : take (Z.to_nat (recv_len c + Z.of_nat (length got))) buf1 = filled c ++ got).
  { unfold buf1, filled. rewrite <- buf_write_filled by (unfold avail in *; lia).
    f_equal. lia. }
  unfold spdk_jsonrpc_parse_request. simpl. rewrite Hfill1.
  destruct (parse (filled c ++ got)) as [|n|] eqn:Hp; simpl.
  - eexists; split_and!; [| |reflexivity| |]; try done.
    split; simpl; [unfold avail in *; lia|done].
  - destruct (Hparse _ _ Hp) as [Hn0 Hn1].
    rewrite length_app in Hn1. unfold filled in Hn1. rewrite length_take in Hn1.
    assert (Hnle : n ≤ recv_len c + Z.of_nat (length got)) by lia.
    assert (Hnsz : size_t n = n) by (apply size_t_small; unfold avail in *; lia).
    assert (Hrest : size_t (recv_len c + Z.of_nat (length got) - n)
                    = recv_len c + Z.of_nat (length got) - n)
      by (apply size_t_small; unfold avail in *; lia).
    rewrite Hnsz, Hrest.
    destruct (n <? 0) eqn:En; [lia|].
    destruct (0 <? n) eqn:En'; [|lia].
    destruct (n <=? recv_len c + Z.of_nat (length got)) eqn:En''; [|lia].
    eexists; split_and!; [| |f_equal; f_equal; f_equal| |]; try done.
    + split; simpl; [unfold avail in *; lia|].
      rewrite memmove_front_length; [done|]. unfold avail in *. lia.
    + rewrite <- Hfill1, take_take. do 3 f_equal. lia.
    + rewrite <- Hfill1. unfold filled. simpl.
      rewrite memmove_front_filled by (unfold avail in *; lia).
      do 2 f_equal. lia.
  - eexists; split_and!; [| |reflexivity| |]; try done.
    split; simpl; [unfold avail in *; lia|done].
Qed.

End RecvProps.

(** ** The send step *)

Lemma wire_app fd tr1 tr2 : wire fd (tr1 ++ tr2) = wire fd tr1 ++ wire fd tr2.
Proof.
  induction tr1 as [|e tr1 IH]; [done|].
  destruct e; simpl; try done.
  case_decide; [|done]. by rewrite IH, app_assoc.
Qed.

Lemma dispatched_app tr1 tr2 : dispatched (tr1 ++ tr2) = dispatched tr1 ++ dispatched tr2.
Proof.
  induction tr1 as [|e tr1 IH]; [done|].
  destruct e; simpl; try done. by rewrite IH.
Qed.

(** A partial send splits the window into the bytes taken and the window
    of the advanced cursor. *)
Lemma send_window_advance (r : spdk_jsonrpc_request) (k : nat) :
  wf_request r →
  let sent := take k (send_window r) in
  let rc := Z.of_nat (length sent) in
  let r' := set_cursor (size_t (send_offset r + rc)) (size_t (send_len r - rc)) r in
  send_offset r' = send_offset r + rc ∧
  send_len r' = send_len r - rc ∧
  wf_request r' ∧
  sent ++ send_window r' = send_window r.
Proof.
  intros (Hoff & Hlen & Hsum) sent rc r'.
  assert (Hrc : 0 ≤ rc ≤ send_len r).
  { unfold rc, sent, send_window. rewrite !length_take. lia. }
  assert (E1 : size_t (send_offset r + rc) = send_offset r + rc) by (apply size_t_small; lia).
  assert (E2 : size_t (send_len r - rc) = send_len r - rc) by (apply size_t_small; lia).
  unfold r'. simpl. rewrite E1, E2. split_and!; try done.
  { unfold wf_request. simpl. lia. }
  unfold send_window at 1. simpl.
  replace (Z.to_nat (send_offset r + rc)) with (Z.to_nat (send_offset r) + length sent)%nat by lia.
  rewrite <- drop_drop, take_drop_commute.
  replace (length sent + Z.to_nat (send_len r - rc))%nat with (Z.to_nat (send_len r)) by lia.
  fold (send_window r).
  assert (Hs : sent = take (length sent) (send_window r)).
  { unfold sent. rewrite length_take.
    destruct (Nat.min_spec k (length (send_window r))) as [[? ->]|[? ->]]; [done|].
    by rewrite !take_ge by lia. }
  rewrite Hs at 1. apply take_drop.
Qed.

Section SendProps.
Context `{Platform}.

Lemma send_step_ok_refl c : Forall wf_request (held c) → send_step_ok c c [].
Proof. intros. unfold send_step_ok, same_recv_side. split_and!; try done. Qed.

Lemma send_step_ok_trans c1 c2 c3 tr1 tr2 :
  send_step_ok c1 c2 tr1 → send_step_ok c2 c3 tr2 → send_step_ok c1 c3 (tr1 ++ tr2).
Proof.
  intros ((Hfd & Hcl & Hl & Hb) & Hwf1 & Hw1 & Hev1 & Hc1)
         ((Hfd' & Hcl' & Hl' & Hb') & Hwf2 & Hw2 & Hev2 & Hc2).
  rewrite Hfd in *. unfold send_step_ok, same_recv_side. split_and!; try congruence.
  - rewrite wire_app, <- app_assoc, Hw2. done.
  - apply Forall_app; done.
  - intros Hc. destruct (Hc1 Hc) as [Hc' Hf1]. destruct (Hc2 Hc') as [Hc'' Hf2].
    split; [done|]. by apply Forall_app.
Qed.

(** Releasing the in-flight request once its window is empty. *)
Lemma conn_send_finish_ok c r offers tr :
  send_request c = Some r → Forall wf_request (held c) →
  match conn_send_finish c r offers tr with
  | Return rc c' tr' => rc = 0 ∧ c' = c ∧ tr' = tr ∧ send_len r ≠ 0
  | More c' offers' tr' =>
      send_len r = 0 ∧ offers' = offers ∧ (∃ ev, tr' = tr ++ ev ∧ send_step_ok c c' ev) ∧
      (length (held c') < length (held c))%nat
  end.
Proof.
  intros Hr Hwf. unfold conn_send_finish.
  destruct (send_len r =? 0) eqn:E; [|split_and!; try done; lia].
  apply Z.eqb_eq in E. simpl. split_and!; try done.
  - eexists; split; [done|]. unfold send_step_ok, same_recv_side, held, pending_bytes, held in *.
    simpl. rewrite Hr in *. simpl in *. split_and!; try done.
    + by apply Forall_inv_tail in Hwf.
    + f_equal. unfold send_window. rewrite E. done.
    + repeat constructor.
    + unfold counter_inv, held. simpl. rewrite Hr. simpl. intros Hc.
      split; [lia|]. repeat constructor. simpl. lia.
  - unfold held. simpl. rewrite Hr. simpl. lia.
Qed.

Lemma send_step_ok_held c c' :
  same_recv_side c c' → held c' = held c →
  outstanding_requests c' = outstanding_requests c →
  Forall wf_request (held c) → send_step_ok c c' [].
Proof.
  intros Hs Hh Ho Hwf. unfold send_step_ok, pending_bytes, counter_inv.
  rewrite Hh, Ho. split_and!; try done.
Qed.

(** The dequeue at the top of a pass moves the head of the queue into the
    empty in-flight slot; the held requests stay the same. *)
Lemma conn_send_fetch_held c :
  let c1 :=
    match send_request c with
    | None => let '(r, c') := spdk_jsonrpc_server_dequeue_request c in set_send_request r c'
    | Some _ => c
    end in
  same_recv_side c c1 ∧ held c1 = held c ∧
  outstanding_requests c1 = outstanding_requests c.
Proof.
  unfold spdk_jsonrpc_server_dequeue_request, held, same_recv_side.
  destruct (send_request c) eqn:Hr; simpl; [by rewrite Hr|].
  destruct (send_queue c) eqn:Hq; simpl; by rewrite ?Hr, ?Hq.
Qed.

(** One pass keeps [send_step_ok]; a pass that jumps back to [more] has
    released a request. *)
Lemma conn_send_pass_ok offers c :
  Forall wf_request (held c) →
  match conn_send_pass offers c with
  | Return rc c' tr => send_step_ok c c' tr ∧ (rc = 0 ∨ rc = -1)
  | More c' offers' tr =>
      send_step_ok c c' tr ∧ (length (held c') < length (held c))%nat
  end.
Proof.
  intros Hwf. unfold conn_send_pass.
  destruct (outstanding_requests c =? 0); [split; [by apply send_step_ok_refl|by left]|].
  destruct (conn_send_fetch_held c) as (Hs & Hh & Ho). simpl in Hs, Hh, Ho.
  set (c1 := match send_request c with
             | None => let '(r, c') := spdk_jsonrpc_server_dequeue_request c in
                       set_send_request r c'
             | Some _ => c end) in *.
  assert (Hok1 : send_step_ok c c1 []) by by apply send_step_ok_held.
  assert (Hwf1 : Forall wf_request (held c1)) by by rewrite Hh.
  assert (Hlen1 : length (held c1) = length (held c)) by by rewrite Hh.
  clearbody c1.
  destruct (send_request c1) as [request|] eqn:Hr; [|split; [done|by left]].
  assert (Hwfr : wf_request request).
  { unfold held in Hwf1. rewrite Hr in Hwf1. by apply Forall_inv in Hwf1. }
  destruct (0 <? send_len request) eqn:Elen.
  - destruct (hd (SendFail EAGAIN) offers) as [k|e] eqn:Ho'; simpl.
    + destruct (send_window_advance request k Hwfr) as (Eoff & Elen' & Hwfr' & Hsplit).
      set (sent := take k (send_window request)) in *.
      set (request' := set_cursor _ _ request) in *.
      destruct (Z.of_nat (length sent) <? 0) eqn:Erc; [lia|].
      set (c2 := set_send_request (Some request') c1).
      assert (Hok2 : send_step_ok c1 c2 [EvSend (sockfd c1) sent (Z.of_nat (length sent))]).
      { unfold held in Hwf1. rewrite Hr in Hwf1.
        unfold send_step_ok, same_recv_side, pending_bytes, counter_inv, held.
        simpl. rewrite Hr. simpl. split_and!; try done.
        - constructor; [done|]. by apply Forall_inv_tail in Hwf1.
        - case_decide; [|done]. rewrite app_nil_r, app_assoc. by rewrite Hsplit.
        - repeat constructor.
        - intros. split; [done|]. repeat constructor. }
      pose proof (conn_send_finish_ok c2 request' (tl offers)
                    [EvSend (sockfd c1) sent (Z.of_nat (length sent))] eq_refl
                    (proj1 (proj2 Hok2))) as Hfin.
      assert (Hlen2 : length (held c2) = length (held c1)).
      { unfold c2, held. simpl. by rewrite Hr. }
      destruct (conn_send_finish c2 request' (tl offers) _) as [rc c' tr|c' offers' tr].
      * destruct Hfin as (-> & -> & -> & _). split; [|by left].
        apply (send_step_ok_trans c c1 c2 [] _ Hok1 Hok2).
      * destruct Hfin as (_ & _ & (ev & -> & Hok3) & Hlt). split; [|lia].
        apply (send_step_ok_trans c c1 c' [] _ Hok1).
        apply (send_step_ok_trans c1 c2 c' _ _ Hok2 Hok3).
    + assert (Hok2 : send_step_ok c1 c1 [EvSend (sockfd c1) [] (-1)]).
      { destruct (send_step_ok_refl c1 Hwf1) as (? & ? & ? & ? & ?).
        unfold send_step_ok. split_and!; try done.
        - simpl. by case_decide.
        - repeat constructor.
        - intros. split; [done|]. repeat constructor. }
      pose proof (send_step_ok_trans c c1 c1 [] _ Hok1 Hok2) as Hok.
      destruct (transient e); (split; [done|]); [by left|by right].
  - pose proof (conn_send_finish_ok c1 request offers [] Hr Hwf1) as Hfin.
    destruct (conn_send_finish c1 request offers []) as [rc c' tr|c' offers' tr].
    + destruct Hfin as (-> & -> & -> & _). split; [done|by left].
    + destruct Hfin as (_ & _ & (ev & -> & Hok3) & Hlt). split; [|lia].
      apply (send_step_ok_trans c c1 c' [] _ Hok1 Hok3).
Qed.

(** A pass that jumps back to [more] has released a request, whatever the
    state of the cursors. *)
Lemma conn_send_pass_more offers c c' offers' tr :
  conn_send_pass offers c = More c' offers' tr →
  (length (held c') < length (held c))%nat.
Proof.
  unfold conn_send_pass.
  destruct (outstanding_requests c =? 0); [done|].
  destruct (conn_send_fetch_held c) as (_ & Hh & _). simpl in Hh.
  set (c1 := match send_request c with
             | None => let '(r, c') := spdk_jsonrpc_server_dequeue_request c in
                       set_send_request r c'
             | Some _ => c end) in *.
  rewrite <- Hh. clearbody c1.
  destruct (send_request c1) as [request|] eqn:Hr; [|done].
  assert (Hfin : ∀ c2 r2 o2 t2, send_request c2 = Some r2 →
            send_queue c2 = send_queue c1 →
            conn_send_finish c2 r2 o2 t2 = More c' offers' tr →
            (length (held c') < length (held c1))%nat).
  { intros c2 r2 o2 t2 Hr2 Hq2. unfold conn_send_finish.
    destruct (send_len r2 =? 0); [|done]. simpl. intros [= <- _ _].
    unfold held. simpl. rewrite Hr, Hq2. simpl. lia. }
  destruct (0 <? send_len request).
  - destruct (sys_send _ _) as [rc sent]. destruct (rc <? 0).
    + by destruct (transient _).
    + by apply Hfin.
  - by apply Hfin.
Qed.

(** A pass leaves the receive side alone and returns 0 or -1, whatever the
    state of the cursors. *)
Lemma conn_send_pass_recv_side offers c :
  match conn_send_pass offers c with
  | Return rc c' _ => same_recv_side c c' ∧ (rc = 0 ∨ rc = -1)
  | More c' _ _ => same_recv_side c c'
  end.
Proof.
  unfold conn_send_pass.
  destruct (outstanding_requests c =? 0); [split; [done|by left]|].
  destruct (conn_send_fetch_held c) as (Hs & _ & _). simpl in Hs.
  set (c1 := match send_request c with
             | None => let '(r, c') := spdk_jsonrpc_server_dequeue_request c in
                       set_send_request r c'
             | Some _ => c end) in *.
  clearbody c1.
  destruct (send_request c1) as [request|]; [|split; [done|by left]].
  assert (Hfin : ∀ c2 r2 o2 t2, same_recv_side c c2 →
            match conn_send_finish c2 r2 o2 t2 with
            | Return rc c' _ => same_recv_side c c' ∧ (rc = 0 ∨ rc = -1)
            | More c' _ _ => same_recv_side c c'
            end).
  { intros c2 r2 o2 t2 Hs2. unfold conn_send_finish.
    destruct (send_len r2 =? 0); [done|]. split; [done|by left]. }
  destruct (0 <? send_len request); [|by apply Hfin].
  destruct (sys_send _ _) as [rc sent]. destruct (rc <? 0); [|by apply Hfin].
  destruct (transient _); (split; [done|]); [by left|by right].
Qed.

Lemma conn_send_loop_recv_side fuel offers c rc c' tr :
  conn_send_loop fuel offers c = Some (rc, c', tr) →
  same_recv_side c c' ∧ (rc = 0 ∨ rc = -1).
Proof.
  revert offers c rc c' tr. induction fuel as [|fuel IH]; intros offers c rc c' tr; [done|].
  simpl. pose proof (conn_send_pass_recv_side offers c) as Hpass.
  destruct (conn_send_pass offers c) as [rc1 c1 t1|c1 offers1 t1].
  - by intros [= <- <- _].
  - destruct (conn_send_loop fuel offers1 c1) as [[[rc2 c2] t2]|] eqn:Hrun; [|done].
    simpl. intros [= <- <- _]. destruct (IH _ _ _ _ _ Hrun) as [(? & ? & ? & ?) Hrc].
    destruct Hpass as (? & ? & ? & ?). split; [|done]. split_and!; congruence.
Qed.

(** The send step always returns: the passes it is given suffice. *)
Lemma conn_send_loop_total fuel offers c :
  (length (held c) < fuel)%nat → is_Some (conn_send_loop fuel offers c).
Proof.
  revert offers c. induction fuel as [|fuel IH]; intros offers c Hlt; [lia|].
  simpl. destruct (conn_send_pass offers c) as [rc c' tr|c' offers' tr] eqn:Hpass; [done|].
  apply conn_send_pass_more in Hpass.
  destruct (IH offers' c') as [[[rc c''] tr'] ->]; [lia|]. done.
Qed.

Lemma conn_send_total offers c : is_Some (spdk_jsonrpc_server_conn_send offers c).
Proof.
  apply conn_send_loop_total.
  unfold held. rewrite length_app. destruct (send_request c); simpl; lia.
Qed.

(** Enough passes reach a [return]. *)
Lemma conn_send_loop_ok fuel offers c :
  (length (held c) < fuel)%nat → Forall wf_request (held c) →
  ∃ rc c' tr, conn_send_loop fuel offers c = Some (rc, c', tr) ∧
              send_step_ok c c' tr ∧ (rc = 0 ∨ rc = -1).
Proof.
  revert offers c. induction fuel as [|fuel IH]; intros offers c Hlt Hwf; [lia|].
  simpl. pose proof (conn_send_pass_ok offers c Hwf) as Hpass.
  destruct (conn_send_pass offers c) as [rc c' tr|c' offers' tr].
  - destruct Hpass. by exists rc, c', tr.
  - destruct Hpass as [Hok Hlt'].
    destruct (IH offers' c') as (rc & c'' & tr' & -> & Hok' & Hrc); [lia|apply Hok|].
    simpl. exists rc, c'', (tr ++ tr'). split_and!; [done| |done].
    by apply (send_step_ok_trans c c' c'').
Qed.

Lemma conn_send_ok offers c :
  Forall wf_request (held c) →
  ∃ rc c' tr, spdk_jsonrpc_server_conn_send offers c = Some (rc, c', tr) ∧
              send_step_ok c c' tr ∧ (rc = 0 ∨ rc = -1).
Proof.
  intros. apply conn_send_loop_ok; [|done].
  unfold held. rewrite length_app. destruct (send_request c); simpl; lia.
Qed.

End SendProps.
(** ** Passes of the send step, case by case *)

(** With the counter not zero, a pass that starts with an empty in-flight
    slot is the pass that starts with the head of the queue in flight. *)
Lemma conn_send_pass_fetch offers c r q :
  outstanding_requests c ≠ 0 → send_request c = None → send_queue c = r :: q →
  conn_send_pass offers c
  = conn_send_pass offers (set_send_request (Some r) (set_send_queue q c)).
Proof.
  intros Hcnt Hr Hq. unfold conn_send_pass. simpl.
  assert (E0 : (outstanding_requests c =? 0) = false) by lia.
  rewrite E0, Hr. unfold spdk_jsonrpc_server_dequeue_request. by rewrite Hq.
Qed.

(** A response with nothing to send is released without a [send]. *)
Lemma conn_send_pass_empty offers c r :
  outstanding_requests c ≠ 0 → send_request c = Some r → send_len r = 0 →
  conn_send_pass offers c
  = More (set_outstanding_requests (outstanding_requests c - 1) (set_send_request None c))
         offers [EvFree r (outstanding_requests c - 1)].
Proof.
  intros Hcnt Hr Hlen. unfold conn_send_pass.
  assert (E0 : (outstanding_requests c =? 0) = false) by lia.
  rewrite E0. cbv zeta. rewrite Hr. cbv beta iota. rewrite Hr, Hlen. simpl.
  unfold conn_send_finish. by rewrite Hlen.
Qed.

(** The send step up to a first [send] that fails: the responses of
    length zero ahead of the first one with bytes are released, that one is
    in flight, and the step returns at the failed [send]. *)
Lemma conn_send_loop_first_fail (zs : list spdk_jsonrpc_request) :
  ∀ fuel offers c r rest e,
    hd (SendFail EAGAIN) offers = SendFail e →
    held c = zs ++ r :: rest → Forall (λ z, send_len z = 0) zs → 0 < send_len r →
    ¬ (0 ≤ outstanding_requests c ≤ Z.of_nat (length zs)) →
    (length zs < fuel)%nat →
    ∃ c',
      conn_send_loop fuel offers c
      = Some (if transient e then 0 else -1, c',
              release_events (outstanding_requests c) zs ++ [EvSend (sockfd c) [] (-1)]) ∧
      send_request c' = Some r ∧ send_queue c' = rest ∧ same_recv_side c c' ∧
      outstanding_requests c' = outstanding_requests c - Z.of_nat (length zs) ∧
      (send_request c = Some r → c' = c).
Proof.
  induction zs as [|z zs IH]; intros fuel offers c r rest e Hhd Hheld Hz Hlen Hcnt Hfuel.
  { destruct fuel as [|fuel]; [lia|]. simpl in *.
    assert (E0 : (outstanding_requests c =? 0) = false) by lia.
    assert (El : (0 <? send_len r) = true) by lia.
    unfold conn_send_pass. rewrite E0. unfold held in Hheld.
    destruct (send_request c) as [r0|] eqn:Hr; simpl in Hheld.
    - injection Hheld as -> Hq. rewrite Hr, El, Hhd. simpl.
      exists c. destruct (transient e); split_and!; try done; lia.
    - unfold spdk_jsonrpc_server_dequeue_request. rewrite Hheld. simpl.
      rewrite El, Hhd. simpl. eexists. destruct (transient e); split_and!; try done; simpl; lia. }
  destruct fuel as [|fuel]; [lia|]. simpl in Hcnt, Hfuel.
  apply Forall_cons in Hz as [Hz0 Hz].
  assert (Hne : outstanding_requests c ≠ 0) by lia.
  assert (∃ c0, conn_send_pass offers c = conn_send_pass offers c0 ∧
                send_request c0 = Some z ∧ send_queue c0 = zs ++ r :: rest ∧
                same_recv_side c c0 ∧
                outstanding_requests c0 = outstanding_requests c)
    as (c0 & Hpass & Hr0 & Hq0 & (Hs1 & Hs2 & Hs3 & Hs4) & Ho0).
  { unfold held in Hheld. destruct (send_request c) as [r0|] eqn:Hr; simpl in Hheld.
    - injection Hheld as -> Hq. exists c. by split_and!.
    - eexists. split; [by apply conn_send_pass_fetch|]. by split_and!. }
  simpl. rewrite Hpass, (conn_send_pass_empty offers c0 z) by (done || lia).
  set (c1 := set_outstanding_requests (outstanding_requests c0 - 1)
               (set_send_request None c0)).
  destruct (IH fuel offers c1 r rest e) as (c' & Hrun & Hr' & Hq' & (Ht1 & Ht2 & Ht3 & Ht4) & Ho' & _);
    [done|by unfold held|done|done|simpl; lia|lia|].
  simpl in Hrun, Ht1, Ht2, Ht3, Ht4, Ho'.
  rewrite Hrun. simpl. exists c'. rewrite Ho0, Hs1. split_and!; try done.
  - split_and!; congruence.
  - rewrite Ho'. simpl. lia.
  - intros Hr. unfold held in Hheld. rewrite Hr in Hheld. simpl in Hheld.
    injection Hheld as <- _. lia.
Qed.

Lemma conn_send_first_fail offers c zs r rest e :
  hd (SendFail EAGAIN) offers = SendFail e →
  held c = zs ++ r :: rest → Forall (λ z, send_len z = 0) zs → 0 < send_len r →
  ¬ (0 ≤ outstanding_requests c ≤ Z.of_nat (length zs)) →
  ∃ c',
    spdk_jsonrpc_server_conn_send offers c
    = Some (if transient e then 0 else -1, c',
            release_events (outstanding_requests c) zs ++ [EvSend (sockfd c) [] (-1)]) ∧
    send_request c' = Some r ∧ send_queue c' = rest ∧ same_recv_side c c' ∧
    outstanding_requests c' = outstanding_requests c - Z.of_nat (length zs) ∧
    (send_request c = Some r → c' = c).
Proof.
  intros Hhd Hheld Hz Hlen Hcnt.
  apply conn_send_loop_first_fail; try done.
  apply (f_equal length) in Hheld. unfold held in Hheld.
  rewrite !length_app in Hheld. simpl in Hheld.
  destruct (send_request c); simpl in Hheld; lia.
Qed.


(** ** Close *)

Lemma conn_close_closed (c : spdk_jsonrpc_server_conn) :
  closed (spdk_jsonrpc_server_conn_close c).1 = true.
Proof. unfold spdk_jsonrpc_server_conn_close. simpl. by destruct (0 <=? sockfd c). Qed.

(** C7: closing is idempotent.  On a connection that is already closed
    (flag set, descriptor -1) close changes nothing and makes no system
    call; closing twice is the same as closing once; close always leaves the
    flag set and the descriptor invalid, never turns an invalid descriptor
    into a valid one, and leaves the outstanding-request counter, the queue,
    the in-flight slot and the receive buffer as they were. *)
Theorem conn_close_idempotent (c : spdk_jsonrpc_server_conn) :
  let c' := (spdk_jsonrpc_server_conn_close c).1 in
  (closed c = true → sockfd c = -1 → spdk_jsonrpc_server_conn_close c = (c, [])) ∧
  spdk_jsonrpc_server_conn_close c' = (c', []) ∧
  closed c' = true ∧ sockfd c' < 0 ∧ (sockfd c < 0 → sockfd c' = sockfd c) ∧
  outstanding_requests c' = outstanding_requests c ∧
  send_queue c' = send_queue c ∧ send_request c' = send_request c ∧
  recv_len c' = recv_len c ∧ recv_buf c' = recv_buf c.
Proof.
  unfold spdk_jsonrpc_server_conn_close. simpl. split_and!.
  - intros Hc Hfd. rewrite Hfd. simpl. destruct c; simpl in *; by subst.
  - destruct (0 <=? sockfd c) eqn:E; simpl; [done|]. by rewrite E.
  - by destruct (0 <=? sockfd c).
  - destruct (0 <=? sockfd c) eqn:E; simpl; lia.
  - intros. destruct (0 <=? sockfd c) eqn:E; simpl; [lia|done].
  - by destruct (0 <=? sockfd c).
  - by destruct (0 <=? sockfd c).
  - by destruct (0 <=? sockfd c).
  - by destruct (0 <=? sockfd c).
  - by destruct (0 <=? sockfd c).
Qed.

Lemma conn_close_idempotent_witness :
  spdk_jsonrpc_server_conn_close closed_conn = (closed_conn, []).
Proof.
  pose proof (conn_close_idempotent closed_conn) as Hc. simpl in Hc.
  destruct Hc as [Hc _]. apply Hc; reflexivity.
Defined.

(** ** Claims about the receive step *)

(** C9: a receive step returns (no assertion fails) and leaves the fill
    length between 0 and the buffer capacity; when the read delivered bytes
    and the parser consumed [n] of the filled bytes, the unconsumed bytes
    are, in order, the new filled part at the front of the buffer and the
    fill length has dropped by [n]. *)
Theorem conn_recv_fill_length `{Platform} (o : recv_offer) (c : spdk_jsonrpc_server_conn) :
  platform_ok → recv_inv c →
  ∃ rc c' tr,
    spdk_jsonrpc_server_conn_recv o c = Some (rc, c', tr) ∧
    0 ≤ recv_len c' ≤ SPDK_JSONRPC_RECV_BUF_SIZE ∧
    length (recv_buf c') = Z.to_nat SPDK_JSONRPC_RECV_BUF_SIZE ∧
    ∀ data n,
      o = RecvData data →
      let got := take (Z.to_nat (SPDK_JSONRPC_RECV_BUF_SIZE - recv_len c)) data in
      got ≠ [] → parse (filled c ++ got) = Consumed n →
      0 < n ≤ recv_len c + Z.of_nat (length got) ∧
      recv_len c' = recv_len c + Z.of_nat (length got) - n ∧
      filled c' = drop (Z.to_nat n) (filled c ++ got).
Proof.
  intros Hok Hinv. pose proof (conn_recv_spec o c Hok Hinv) as Hspec. simpl in Hspec.
  destruct Hinv as [[Hl0 Hl1] Hb].
  destruct o as [data|e].
  - case_decide as Hgot.
    + eexists _, _, _. split; [exact Hspec|].
      split_and!; try done.
      intros data' n [= <-] got Hne. by destruct Hne.
    + destruct Hspec as (c' & Hinv' & _ & Hcase).
      assert (∃ rc tr, spdk_jsonrpc_server_conn_recv (RecvData data) c = Some (rc, c', tr))
        as (rc & tr & Hrun).
      { destruct (parse _); destruct Hcase as (-> & _); by eexists _, _. }
      exists rc, c', tr. split; [done|]. destruct Hinv' as [[? ?] Hbuf']. split_and!; try done.
      intros data' n [= <-] got Hne Hp. fold got in Hcase. rewrite Hp in Hcase.
      destruct Hcase as (_ & Hfill & _).
      destruct Hok as [_ Hparse]. destruct (Hparse _ _ Hp) as [Hn0 Hn1].
      assert (Hfl : length (filled c) = Z.to_nat (recv_len c)).
      { unfold filled. rewrite length_take. lia. }
      rewrite length_app, Hfl in Hn1.
      split_and!; [lia|lia| |done].
      apply (f_equal length) in Hfill.
      rewrite length_drop, length_app, Hfl in Hfill.
      unfold filled in Hfill. rewrite length_take in Hfill. lia.
  - eexists _, _, _. split; [exact Hspec|]. split_and!; done.
Qed.

(** The line parser keeps the parser contract. *)
Lemma line_end_bound b n : line_end b = Some n → (0 < n ≤ length b)%nat.
Proof.
  revert n. induction b as [|x b IH]; intros n; [done|].
  simpl. destruct x; try (destruct (line_end b); simpl; [|done]; intros [= <-];
    specialize (IH _ eq_refl); lia).
  intros [= <-]. lia.
Qed.

Lemma line_platform_ok n size :
  0 ≤ size < SIZE_MAX1 → @platform_ok (line_platform n size).
Proof.
  intros Hs. split; [done|]. intros b m. simpl. unfold line_parse.
  assert (Hgen : match line_end b with Some k => Consumed (Z.of_nat k) | None => NoFrame end
                 = Consumed m → 0 < m ≤ Z.of_nat (length b)).
  { destruct (line_end b) eqn:E; [|done]. intros [= <-]. apply line_end_bound in E. lia. }
  destruct b as [|x b']; [done|]. destruct x; try done.
Qed.

Lemma sample_recv_inv : @recv_inv (line_platform 2 8) sample_conn.
Proof. split; [simpl; lia|reflexivity]. Qed.

Lemma conn_recv_fill_length_witness :
  ∃ rc c' tr,
    @spdk_jsonrpc_server_conn_recv (line_platform 2 8) (RecvData two_frames) sample_conn
    = Some (rc, c', tr) ∧
    0 ≤ recv_len c' ≤ 8 ∧ length (recv_buf c') = 8%nat ∧
    ∀ data n,
      RecvData two_frames = RecvData data →
      let got := take (Z.to_nat (8 - recv_len sample_conn)) data in
      got ≠ [] → line_parse (filled sample_conn ++ got) = Consumed n →
      0 < n ≤ recv_len sample_conn + Z.of_nat (length got) ∧
      recv_len c' = recv_len sample_conn + Z.of_nat (length got) - n ∧
      filled c' = drop (Z.to_nat n) (filled sample_conn ++ got).
Proof.
  apply (@conn_recv_fill_length (line_platform 2 8) (RecvData two_frames) sample_conn).
  - apply line_platform_ok. split; [lia|reflexivity].
  - apply sample_recv_inv.
Defined.

(** A read that delivers nothing leaves the connection as it is. *)
Lemma conn_recv_no_data `{Platform} (o : recv_offer) (c : spdk_jsonrpc_server_conn) :
  let avail := size_t (SPDK_JSONRPC_RECV_BUF_SIZE - recv_len c) in
  (sys_recv o avail).1 ≤ 0 →
  ∃ rc, spdk_jsonrpc_server_conn_recv o c
        = Some (rc, c, [EvRecv (sockfd c) avail (sys_recv o avail).1]) ∧
        (rc = 0 ↔ ∃ e, o = RecvFail e ∧ transient e = true).
Proof.
  intros avail Hrc. unfold spdk_jsonrpc_server_conn_recv. fold avail.
  destruct o as [data|e]; simpl in *.
  - assert (E : Z.of_nat (length (take (Z.to_nat avail) data)) = 0) by lia.
    rewrite E. simpl. exists (-1). split; [done|]. split; [done|]. by intros (e & ? & _).
  - destruct (transient e) eqn:Et.
    + exists 0. split; [done|]. split; [|done]. intros _. by exists e.
    + exists (-1). split; [done|]. split; [done|]. intros (e' & [= <-] & ?). congruence.
Qed.

(** C6, as the code has it: a zero-length read always ends the receive step
    with -1 and the poll step closes the connection, whatever the available
    space was, zero included. *)
Theorem zero_length_read_closes `{Platform} (env : poll_env) (c : spdk_jsonrpc_server_conn) :
  closed c = false →
  let avail := size_t (SPDK_JSONRPC_RECV_BUF_SIZE - recv_len c) in
  (sys_recv (env_recv env (sockfd c)) avail).1 = 0 →
  spdk_jsonrpc_server_conn_recv (env_recv env (sockfd c)) c
    = Some (-1, c, [EvRecv (sockfd c) avail 0]) ∧
  ∃ c' tr, poll_io_conn env c = Some (c', tr) ∧ closed c' = true.
Proof.
  intros Hopen avail Hzero.
  assert (Hrecv : ∀ c1, sockfd c1 = sockfd c → recv_len c1 = recv_len c →
            spdk_jsonrpc_server_conn_recv (env_recv env (sockfd c1)) c1
            = Some (-1, c1, [EvRecv (sockfd c1) avail 0])).
  { intros c1 Hfd Hlen. unfold spdk_jsonrpc_server_conn_recv.
    rewrite Hfd, Hlen. fold avail.
    destruct (sys_recv (env_recv env (sockfd c)) avail) as [rc data] eqn:E.
    simpl in Hzero. by subst rc. }
  split; [by apply Hrecv|].
  unfold poll_io_conn. rewrite Hopen.
  destruct (conn_send_total (env_send env (sockfd c)) c) as [[[rc c1] tr] Hsend].
  rewrite Hsend.
  destruct (conn_send_loop_recv_side _ _ _ _ _ _ Hsend) as [(Hfd & Hcl & Hlen & _) Hrc].
  simpl. pose proof (conn_close_closed c1) as Hclose.
  destruct Hrc as [-> | ->]; simpl.
  - rewrite (Hrecv c1 Hfd Hlen). simpl.
    destruct (spdk_jsonrpc_server_conn_close c1) as [c3 e3]. by eexists _, _.
  - destruct (spdk_jsonrpc_server_conn_close c1) as [c3 e3]. by eexists _, _.
Qed.

(** C6 fails as stated: with a full buffer the available space is zero, the
    read returns zero although the peer has a byte to deliver, and the step
    is treated as a peer shutdown: the poll step closes the connection. *)
Lemma zero_length_read_full_buffer_counterexample :
  let P := line_platform 2 8 in
  let env := uniform_env (AcceptFail EAGAIN) [] (RecvData [x62]) in
  size_t (SPDK_JSONRPC_RECV_BUF_SIZE - recv_len full_conn) = 0 ∧
  sys_recv (RecvData [x62]) 0 = (0, []) ∧
  spdk_jsonrpc_server_conn_recv (RecvData [x62]) full_conn
    = Some (-1, full_conn, [EvRecv 5 0 0]) ∧
  poll_io_conn env full_conn
    = Some (set_sockfd (-1) (set_closed true full_conn), [EvRecv 5 0 0; EvClose 5]).
Proof. repeat split. Qed.

Lemma zero_length_read_closes_witness :
  let P := line_platform 2 8 in
  let env := uniform_env (AcceptFail EAGAIN) [] (RecvData []) in
  spdk_jsonrpc_server_conn_recv (env_recv env (sockfd sample_conn)) sample_conn
    = Some (-1, sample_conn,
            [EvRecv (sockfd sample_conn)
                    (size_t (SPDK_JSONRPC_RECV_BUF_SIZE - recv_len sample_conn)) 0]) ∧
  ∃ c' tr, poll_io_conn env sample_conn = Some (c', tr) ∧ closed c' = true.
Proof.
  intros P env.
  apply (@zero_length_read_closes P env sample_conn); reflexivity.
Defined.

(** C3, as the code has it: a receive step runs the parser once, after a
    read that delivered bytes, so it dispatches at most one frame.  When the
    parser consumes [n] bytes, exactly the frame of these [n] bytes is
    dispatched and everything behind it, a second complete frame included,
    stays in the buffer; a step whose read delivers nothing dispatches
    nothing and leaves the buffer as it is. *)
Theorem conn_recv_one_frame_per_step `{Platform}
    (o : recv_offer) (c : spdk_jsonrpc_server_conn) :
  platform_ok → recv_inv c →
  let avail := SPDK_JSONRPC_RECV_BUF_SIZE - recv_len c in
  ∃ rc c' tr,
    spdk_jsonrpc_server_conn_recv o c = Some (rc, c', tr) ∧
    (length (dispatched tr) ≤ 1)%nat ∧
    (∀ data n,
       o = RecvData data →
       let got := take (Z.to_nat avail) data in
       got ≠ [] → parse (filled c ++ got) = Consumed n →
       rc = 0 ∧
       dispatched tr = [take (Z.to_nat n) (filled c ++ got)] ∧
       filled c' = drop (Z.to_nat n) (filled c ++ got)) ∧
    ((sys_recv o avail).1 ≤ 0 → dispatched tr = [] ∧ c' = c).
Proof.
  intros Hok Hinv avail.
  pose proof (conn_recv_spec o c Hok Hinv) as Hspec. simpl in Hspec. fold avail in Hspec.
  destruct o as [data|e].
  - case_decide as Hgot.
    + eexists _, _, _. split; [exact Hspec|]. simpl. split; [lia|]. split; [|done].
      intros data' n [= <-] Hne. by destruct Hne.
    + destruct Hspec as (c' & _ & _ & Hcase).
      assert (Hlen : (0 < length (take (Z.to_nat avail) data))%nat).
      { destruct (take (Z.to_nat avail) data); simpl; [done|lia]. }
      destruct (parse _) as [|n|] eqn:Hp; destruct Hcase as (Hrun & Hfill & _);
        eexists _, _, _; (split; [exact Hrun|]); simpl;
        (split; [lia|]); (split; [|lia]); intros data' n' [= <-] Hne Hp';
        rewrite Hp in Hp'; try done.
      by injection Hp' as <-.
  - eexists _, _, _. split; [exact Hspec|]. simpl. split; [lia|]. by split.
Qed.

Lemma conn_recv_one_frame_per_step_witness :
  let P := line_platform 2 8 in
  ∃ rc c' tr,
    spdk_jsonrpc_server_conn_recv (RecvData two_frames) sample_conn = Some (rc, c', tr) ∧
    (length (dispatched tr) ≤ 1)%nat ∧
    (∀ data n,
       RecvData two_frames = RecvData data →
       let got := take (Z.to_nat (8 - recv_len sample_conn)) data in
       got ≠ [] → line_parse (filled sample_conn ++ got) = Consumed n →
       rc = 0 ∧
       dispatched tr = [take (Z.to_nat n) (filled sample_conn ++ got)] ∧
       filled c' = drop (Z.to_nat n) (filled sample_conn ++ got)) ∧
    ((sys_recv (RecvData two_frames) (8 - recv_len sample_conn)).1 ≤ 0 →
     dispatched tr = [] ∧ c' = sample_conn).
Proof.
  intros P.
  apply (@conn_recv_one_frame_per_step P (RecvData two_frames) sample_conn).
  - apply line_platform_ok. split; [lia|reflexivity].
  - apply sample_recv_inv.
Defined.

(** C3 fails as stated: one read delivers two complete frames; the step
    dispatches the first only and returns with the second, complete, at the
    front of the buffer; the next step, whose read would block, dispatches
    nothing. *)
Lemma pipelined_frames_counterexample :
  let P := line_platform 2 8 in
  ∃ c' tr,
    line_parse two_frames = Consumed 2 ∧
    line_parse (drop 2 two_frames) = Consumed 2 ∧
    spdk_jsonrpc_server_conn_recv (RecvData two_frames) sample_conn = Some (0, c', tr) ∧
    tr = [EvRecv 5 8 4; EvDispatch [x61; x0a]] ∧
    dispatched tr ≠ [[x61; x0a]; [x62; x0a]] ∧
    filled c' = [x62; x0a] ∧
    line_parse (filled c') = Consumed 2 ∧
    spdk_jsonrpc_server_conn_recv (RecvFail EAGAIN) c' = Some (0, c', [EvRecv 5 6 (-1)]).
Proof. intros P. eexists _, _. split_and!; try reflexivity. discriminate. Qed.

(** ** Transient outcomes *)

(** C8, as the code has it.  A transient outcome of [accept] or [recv]
    makes the step return 0 and leaves the server, respectively the
    connection, exactly as it was.  A transient outcome of the first [send]
    of a send step makes the step return 0 with no byte transmitted and the
    connection open; the descriptor, the closed flag and the receive side
    are as before.  What the step did on its way to that [send] stays done:
    each response of length zero ahead of the first response with bytes was
    released without a [send], which lowered the counter by one, and the
    first response with bytes is in the in-flight slot, its cursor
    unchanged, the responses behind it in the queue.  With that response
    already in flight the connection is exactly as it was. *)
Theorem transient_io_is_noop `{Platform} (e : errno) :
  transient e = true →
  (∀ s, spdk_jsonrpc_server_accept (AcceptFail e) s = Some (0, s, [EvAccept (-1)])) ∧
  (∀ c, spdk_jsonrpc_server_conn_recv (RecvFail e) c
        = Some (0, c, [EvRecv (sockfd c)
                         (size_t (SPDK_JSONRPC_RECV_BUF_SIZE - recv_len c)) (-1)])) ∧
  (∀ offers c zs r rest,
     hd (SendFail EAGAIN) offers = SendFail e →
     held c = zs ++ r :: rest → Forall (λ z, send_len z = 0) zs → 0 < send_len r →
     ¬ (0 ≤ outstanding_requests c ≤ Z.of_nat (length zs)) →
     ∃ c',
       spdk_jsonrpc_server_conn_send offers c
       = Some (0, c', release_events (outstanding_requests c) zs
                      ++ [EvSend (sockfd c) [] (-1)]) ∧
       send_request c' = Some r ∧ send_queue c' = rest ∧
       same_recv_side c c' ∧
       outstanding_requests c' = outstanding_requests c - Z.of_nat (length zs) ∧
       (send_request c = Some r → c' = c)).
Proof.
  intros He. split_and!.
  - intros s. unfold spdk_jsonrpc_server_accept. simpl. by rewrite He.
  - intros c. unfold spdk_jsonrpc_server_conn_recv. simpl. by rewrite He.
  - intros offers c zs r rest Hhd Hheld Hz Hlen Hcnt.
    destruct (conn_send_first_fail offers c zs r rest e Hhd Hheld Hz Hlen Hcnt)
      as (c' & Hrun & Hrest).
    rewrite He in Hrun. by exists c'.
Qed.

Lemma transient_io_is_noop_witness :
  let P := line_platform 2 8 in
  let c := set_outstanding_requests 2
             (set_send_queue [sample_request 0 []; sample_request 0 two_frames]
                sample_conn) in
  ∃ c',
    spdk_jsonrpc_server_conn_send [SendFail EINTR] c
      = Some (0, c', [EvFree (sample_request 0 []) 1; EvSend 5 [] (-1)]) ∧
    send_request c' = Some (sample_request 0 two_frames) ∧ send_queue c' = [] ∧
    same_recv_side c c' ∧
    outstanding_requests c' = 1 ∧
    (send_request c = Some (sample_request 0 two_frames) → c' = c).
Proof.
  intros P c.
  apply (proj2 (proj2 (@transient_io_is_noop P EINTR eq_refl))
           [SendFail EINTR] c [sample_request 0 []] (sample_request 0 two_frames) []).
  - reflexivity.
  - reflexivity.
  - repeat constructor.
  - reflexivity.
  - simpl. lia.
Defined.

(** With the response already in flight the connection is exactly as it
    was. *)
Example transient_send_in_flight :
  spdk_jsonrpc_server_conn_send [SendFail EINTR] inflight_conn
  = Some (0, inflight_conn, [EvSend 5 [] (-1)]).
Proof. reflexivity. Qed.

(** C8 fails as stated for the send step: with the in-flight slot empty,
    the step first moves the head of the queue into the slot, then [send]
    would block; the step returns 0 but the queue and the in-flight slot are
    not what they were. *)
Lemma transient_send_counterexample :
  let P := line_platform 2 8 in
  ∃ c',
    spdk_jsonrpc_server_conn_send [SendFail EAGAIN] queued_conn
      = Some (0, c', [EvSend 5 [] (-1)]) ∧
    send_queue queued_conn = [sample_request 0 two_frames] ∧ send_queue c' = [] ∧
    send_request queued_conn = None ∧
    send_request c' = Some (sample_request 0 two_frames) ∧
    c' ≠ queued_conn.
Proof. intros P. eexists. split_and!; try reflexivity. discriminate. Qed.

(** ** Partial sends *)

Lemma released_app tr1 tr2 : released (tr1 ++ tr2) = released tr1 ++ released tr2.
Proof.
  induction tr1 as [|e tr1 IH]; [done|].
  destruct e; simpl; try done. by rewrite IH.
Qed.

(** With nothing held a send step does nothing. *)
Lemma conn_send_idle offers c :
  send_request c = None → send_queue c = [] →
  spdk_jsonrpc_server_conn_send offers c = Some (0, c, []).
Proof.
  intros Hr Hq. unfold spdk_jsonrpc_server_conn_send. simpl. unfold conn_send_pass.
  destruct (outstanding_requests c =? 0); [done|].
  unfold spdk_jsonrpc_server_dequeue_request. rewrite Hr, Hq. simpl.
  do 2 f_equal. destruct c; simpl in *; by subst.
Qed.

Lemma send_steps_idle ks c :
  send_request c = None → send_queue c = [] → send_steps ks c = Some (c, []).
Proof.
  intros Hr Hq. induction ks as [|k ks IH]; [done|].
  simpl. rewrite conn_send_idle by done. simpl. by rewrite IH.
Qed.

(** One pass on an in-flight request with bytes left, on a transport that
    takes at most [k] bytes. *)
Lemma conn_send_pass_partial offers c r k :
  send_request c = Some r → wf_request r → 0 < send_len r →
  outstanding_requests c ≠ 0 →
  Z.of_nat (length (send_window r)) = send_len r →
  hd (SendFail EAGAIN) offers = SendRoom k →
  let r' := set_cursor (send_offset r + Z.of_nat k) (send_len r - Z.of_nat k) r in
  let done := set_cursor (send_offset r + send_len r) 0 r in
  if decide (Z.of_nat k < send_len r) then
    conn_send_pass offers c
    = Return 0 (set_send_request (Some r') c)
             [EvSend (sockfd c) (take k (send_window r)) (Z.of_nat k)]
  else
    conn_send_pass offers c
    = More (set_outstanding_requests (outstanding_requests c - 1) (set_send_request None c))
           (tl offers)
           [EvSend (sockfd c) (send_window r) (send_len r);
            EvFree done (outstanding_requests c - 1)].
Proof.
  intros Hr Hwf Hlen Hcnt Hwin Hhd r' done.
  destruct (send_window_advance r k Hwf) as (Eoff & Elen & _ & _). simpl in Eoff, Elen.
  assert (E0 : (outstanding_requests c =? 0) = false) by lia.
  assert (El : (0 <? send_len r) = true) by lia.
  assert (Erc : (Z.of_nat (length (take k (send_window r))) <? 0) = false) by lia.
  unfold conn_send_pass. rewrite E0. cbv zeta. rewrite Hr. cbv beta iota.
  rewrite Hr, El, Hhd. unfold sys_send. cbv beta iota zeta. rewrite Erc.
  unfold conn_send_finish.
  rewrite length_take in *.
  case_decide as Hk.
  - replace (Z.of_nat (k `min` length (send_window r))) with (Z.of_nat k) in * by lia.
    simpl. rewrite Elen.
    destruct (send_len r - Z.of_nat k =? 0) eqn:Ez; [lia|].
    unfold r'. by rewrite Eoff.
  - replace (Z.of_nat (k `min` length (send_window r))) with (send_len r) in * by lia.
    simpl. rewrite Elen.
    destruct (send_len r - send_len r =? 0) eqn:Ez; [|lia].
    rewrite take_ge by lia. simpl.
    unfold done. rewrite ?Eoff, ?Elen.
    replace (send_len r - send_len r) with 0 by lia. done.
Qed.

Lemma conn_send_pass_idle offers c :
  send_request c = None → send_queue c = [] → conn_send_pass offers c = Return 0 c [].
Proof.
  intros Hr Hq. unfold conn_send_pass.
  destruct (outstanding_requests c =? 0); [done|].
  unfold spdk_jsonrpc_server_dequeue_request. rewrite Hr, Hq. simpl.
  f_equal. destruct c; simpl in *; by subst.
Qed.

(** The window of a cursor advanced by [k] bytes. *)
Lemma send_window_drop (r : spdk_jsonrpc_request) (k : nat) :
  wf_request r → Z.of_nat k ≤ send_len r →
  Z.of_nat (length (send_window r)) = send_len r →
  send_window (set_cursor (send_offset r + Z.of_nat k) (send_len r - Z.of_nat k) r)
  = drop k (send_window r).
Proof.
  intros Hwf Hk Hwin.
  destruct (send_window_advance r k Hwf) as (Eoff & Elen & _ & Hsplit).
  simpl in Eoff, Elen, Hsplit.
  rewrite length_take in *.
  replace (Z.of_nat (k `min` length (send_window r))) with (Z.of_nat k) in * by lia.
  rewrite Eoff, Elen in Hsplit.
  rewrite <- (take_drop k (send_window r)) in Hsplit at 2.
  by apply app_inv_head in Hsplit.
Qed.

Lemma set_cursor_id (r : spdk_jsonrpc_request) :
  set_cursor (send_offset r + Z.of_nat 0) (send_len r - Z.of_nat 0) r = r.
Proof. destruct r. unfold set_cursor. simpl. f_equal; lia. Qed.

(** Send steps of successive polls on one in-flight request: after the
    steps have taken [sum_list ks] bytes, exactly that prefix of the window
    is on the wire; the request is in flight with its cursor advanced by as
    much while bytes are left, and released once none is left. *)
Lemma send_steps_partial (ks : list nat) :
  ∀ c r,
    send_request c = Some r → send_queue c = [] → wf_request r → 0 < send_len r →
    Z.of_nat (length (send_window r)) = send_len r → counter_inv c →
    ∃ c' tr,
      send_steps ks c = Some (c', tr) ∧
      wire (sockfd c) tr = take (sum_list ks) (send_window r) ∧
      same_recv_side c c' ∧ send_queue c' = [] ∧
      if decide (Z.of_nat (sum_list ks) < send_len r) then
        send_request c'
        = Some (set_cursor (send_offset r + Z.of_nat (sum_list ks))
                           (send_len r - Z.of_nat (sum_list ks)) r) ∧
        released tr = [] ∧
        outstanding_requests c' = outstanding_requests c
      else
        send_request c' = None ∧
        released tr = [set_cursor (send_offset r + send_len r) 0 r] ∧
        outstanding_requests c' = outstanding_requests c - 1.
Proof.
  induction ks as [|k ks IH]; intros c r Hr Hq Hwf Hlen Hwin Hcnt.
  { exists c, []. simpl. rewrite decide_True by lia.
    split_and!; try done. by rewrite set_cursor_id. }
  assert (Hout : outstanding_requests c ≠ 0).
  { unfold counter_inv, held in Hcnt. rewrite Hr in Hcnt. simpl in Hcnt. lia. }
  pose proof (conn_send_pass_partial [SendRoom k] c r k Hr Hwf Hlen Hout Hwin eq_refl) as Hpass.
  simpl in Hpass. simpl. unfold spdk_jsonrpc_server_conn_send. rewrite Hq. simpl.
  case_decide as Hk.
  - rewrite Hpass. simpl.
    set (r1 := set_cursor (send_offset r + Z.of_nat k) (send_len r - Z.of_nat k) r) in *.
    set (c1 := set_send_request (Some r1) c).
    assert (Hw1 : send_window r1 = drop k (send_window r))
      by (apply send_window_drop; [done|lia|done]).
    destruct (IH c1 r1) as (c' & tr & Hrun & Hwire & Hsame & Hq' & Hcase); try done.
    + destruct Hwf as (? & ? & ?). unfold wf_request, r1. simpl. lia.
    + unfold r1. simpl. lia.
    + rewrite Hw1, length_drop. unfold r1. simpl. lia.
    + unfold counter_inv, held in *. simpl. rewrite Hr, Hq in Hcnt. by rewrite Hq.
    + rewrite Hrun. simpl. eexists _, _. split; [done|]. simpl.
      rewrite decide_True by done. simpl in Hwire. rewrite Hwire, Hw1.
      split_and!; try done.
      * by rewrite take_take_drop.
      * assert (Hl1 : send_len r1 = send_len r - Z.of_nat k) by done.
        assert (Ho1 : send_offset r1 = send_offset r + Z.of_nat k) by done.
        rewrite Hl1, Ho1 in Hcase.
        repeat case_decide; try lia.
        -- destruct Hcase as (-> & ? & ?). split_and!; try done.
           unfold r1, set_cursor. simpl. do 2 f_equal; lia.
        -- destruct Hcase as (-> & -> & ?). split_and!; try done.
           unfold r1, set_cursor. simpl. do 2 f_equal; lia.
  - rewrite Hpass. simpl.
    rewrite conn_send_pass_idle by done. simpl.
    rewrite send_steps_idle by done. simpl.
    eexists _, _. split; [done|]. simpl. rewrite decide_True by done.
    rewrite !app_nil_r. rewrite decide_False by lia.
    split_and!; try done.
    rewrite take_ge; [done|lia].
Qed.

(** C5: a response larger than what one send call takes goes out over
    several steps without loss or duplication.  In a pass that sends on an
    in-flight request with bytes left, a transport that takes [k] bytes
    advances [send_offset] by [k], lowers [send_len] by [k] and keeps the
    request in flight when [k] is less than the bytes left, and releases the
    request (with [send_len] zero) otherwise.  Over successive steps with
    capacities [ks] the bytes on the wire are the first [sum_list ks] bytes
    of the payload window, and the request is released exactly when that
    sum has reached [send_len]. *)
Theorem partial_send_no_loss_no_dup (c : spdk_jsonrpc_server_conn) (r : spdk_jsonrpc_request) :
  send_request c = Some r → wf_request r → 0 < send_len r →
  Z.of_nat (length (send_window r)) = send_len r → counter_inv c →
  (∀ offers k,
     hd (SendFail EAGAIN) offers = SendRoom k →
     if decide (Z.of_nat k < send_len r) then
       conn_send_pass offers c
       = Return 0
           (set_send_request
              (Some (set_cursor (send_offset r + Z.of_nat k) (send_len r - Z.of_nat k) r)) c)
           [EvSend (sockfd c) (take k (send_window r)) (Z.of_nat k)]
     else
       conn_send_pass offers c
       = More (set_outstanding_requests (outstanding_requests c - 1)
                 (set_send_request None c))
              (tl offers)
              [EvSend (sockfd c) (send_window r) (send_len r);
               EvFree (set_cursor (send_offset r + send_len r) 0 r)
                      (outstanding_requests c - 1)]) ∧
  (send_queue c = [] →
   ∀ ks, ∃ c' tr,
     send_steps ks c = Some (c', tr) ∧
     wire (sockfd c) tr = take (sum_list ks) (send_window r) ∧
     if decide (Z.of_nat (sum_list ks) < send_len r) then
       send_request c'
       = Some (set_cursor (send_offset r + Z.of_nat (sum_list ks))
                          (send_len r - Z.of_nat (sum_list ks)) r) ∧
       released tr = [] ∧
       outstanding_requests c' = outstanding_requests c
     else
       send_request c' = None ∧
       released tr = [set_cursor (send_offset r + send_len r) 0 r] ∧
       outstanding_requests c' = outstanding_requests c - 1).
Proof.
  intros Hr Hwf Hlen Hwin Hcnt. split.
  - intros offers k Hhd. apply conn_send_pass_partial; try done.
    unfold counter_inv, held in Hcnt. rewrite Hr in Hcnt. simpl in Hcnt. lia.
  - intros Hq ks.
    destruct (send_steps_partial ks c r) as (c' & tr & ? & ? & _ & _ & ?); try done.
    by exists c', tr.
Qed.

Lemma partial_send_no_loss_no_dup_witness :
  ∃ c' tr,
    send_steps [3; 0; 1]%nat inflight_conn = Some (c', tr) ∧
    wire 5 tr = two_frames ∧ send_request c' = None ∧
    released tr = [set_cursor 4 0 (sample_request 0 two_frames)] ∧
    outstanding_requests c' = 0.
Proof.
  destruct (partial_send_no_loss_no_dup inflight_conn (sample_request 0 two_frames))
    as [_ Hrun]; [reflexivity|repeat split; simpl; lia|simpl; lia|reflexivity|
                  unfold counter_inv; simpl; lia|].
  destruct (Hrun eq_refl [3; 0; 1]%nat) as (c' & tr & Hsteps & Hwire & Hcase).
  exists c', tr. split; [exact Hsteps|]. split; [exact Hwire|]. exact Hcase.
Defined.
(** ** A send step on a transport with room *)

(** With room for every held response the passes of one call send and
    release all of them. *)
Lemma conn_send_loop_drains (m : Z) (rs : list spdk_jsonrpc_request) :
  ∀ c offers fuel,
    held c = rs → Forall wf_request rs →
    Forall (λ r, Z.of_nat (length (send_window r)) = send_len r ∧ send_len r ≤ m) rs →
    Z.of_nat (length rs) ≤ outstanding_requests c →
    Forall (λ o, ∃ k, o = SendRoom k ∧ m ≤ Z.of_nat k) offers →
    (length rs ≤ length offers)%nat → (length rs < fuel)%nat →
    ∃ c' tr,
      conn_send_loop fuel offers c = Some (0, c', tr) ∧
      held c' = [] ∧ same_recv_side c c' ∧
      wire (sockfd c) tr = concat (map send_window rs) ∧
      length (released tr) = length rs ∧
      outstanding_requests c' = outstanding_requests c - Z.of_nat (length rs).
Proof.
  induction rs as [|r rs IH]; intros c offers fuel Hheld Hwf Hwin Hcnt Hroom Hoff Hfuel.
  { destruct fuel as [|fuel]; [simpl in Hfuel; lia|].
    unfold held in Hheld. apply app_eq_nil in Hheld as [Hr Hq].
    destruct (send_request c) eqn:Hr'; [done|].
    simpl. rewrite conn_send_pass_idle by done.
    exists c, []. split_and!; try done.
    - unfold held. by rewrite Hr', Hq.
    - simpl. lia. }
  destruct fuel as [|fuel]; [lia|]. simpl in Hcnt, Hoff, Hfuel.
  assert (Hne : outstanding_requests c ≠ 0) by lia.
  apply Forall_cons in Hwf as [Hwfr Hwf]. apply Forall_cons in Hwin as [[Hwr Hmr] Hwin].
  (* the connection with the head of the held requests in flight *)
  assert (∃ c0, conn_send_pass offers c = conn_send_pass offers c0 ∧
                send_request c0 = Some r ∧ send_queue c0 = rs ∧ same_recv_side c c0 ∧
                outstanding_requests c0 = outstanding_requests c)
    as (c0 & Hpass & Hr0 & Hq0 & Hsame0 & Ho0).
  { unfold held in Hheld. destruct (send_request c) as [r0|] eqn:Hr; simpl in Hheld.
    - injection Hheld as -> Hq. exists c. by split_and!.
    - eexists. split; [by apply conn_send_pass_fetch|]. by split_and!. }
  simpl. rewrite Hpass.
  assert (Hfd0 : sockfd c0 = sockfd c) by apply Hsame0.
  set (c1 := set_outstanding_requests (outstanding_requests c0 - 1)
               (set_send_request None c0)).
  assert (Hheld1 : held c1 = rs) by (unfold held; simpl; done).
  assert (Hsame1 : same_recv_side c c1).
  { destruct Hsame0 as (? & ? & ? & ?). by split_and!. }
  destruct (decide (send_len r = 0)) as [Hz|Hnz].
  - rewrite (conn_send_pass_empty offers c0 r) by (done || lia).
    destruct (IH c1 offers fuel Hheld1 Hwf Hwin) as (c' & tr & Hrun & Hh' & Hs' & Hw' & Hrel' & Ho');
      [simpl; lia|done|lia|lia|].
    fold c1. rewrite Hrun. simpl. exists c', (EvFree r (outstanding_requests c0 - 1) :: tr).
    destruct Hs' as (Hs1 & Hs2 & Hs3 & Hs4). destruct Hsame1 as (Ht1 & Ht2 & Ht3 & Ht4).
    split_and!; try done.
    + split_and!; congruence.
    + simpl. rewrite Ht1 in Hw'. rewrite Hw'.
      assert (Hnil : send_window r = []) by (unfold send_window; by rewrite Hz).
      by rewrite Hnil.
    + simpl. by rewrite Hrel'.
    + rewrite Ho'. simpl. lia.
  - destruct offers as [|o offers]; [simpl in Hoff; lia|].
    apply Forall_cons in Hroom as [(k & -> & Hk) Hroom].
    destruct Hwfr as (Hoff0 & Hlen0 & Hsum0).
    pose proof (conn_send_pass_partial (SendRoom k :: offers) c0 r k Hr0
                  (conj Hoff0 (conj Hlen0 Hsum0)) ltac:(lia) ltac:(lia) Hwr eq_refl) as Hp.
    simpl in Hp. rewrite decide_False in Hp by lia. rewrite Hp.
    destruct (IH c1 offers fuel Hheld1 Hwf Hwin) as (c' & tr & Hrun & Hh' & Hs' & Hw' & Hrel' & Ho');
      [simpl; lia|done|simpl in Hoff; lia|lia|].
    fold c1. rewrite Hrun. simpl.
    eexists c', (_ :: _ :: tr). split; [done|].
    destruct Hs' as (Hs1 & Hs2 & Hs3 & Hs4). destruct Hsame1 as (Ht1 & Ht2 & Ht3 & Ht4).
    split_and!; try done.
    + split_and!; congruence.
    + simpl. rewrite decide_True by done. rewrite Ht1 in Hw'. by rewrite Hw'.
    + simpl. by rewrite Hrel'.
    + rewrite Ho'. simpl. lia.
Qed.

(** What a pass keeps of the windows and of the counter: the windows stay
    inside their buffers, and the counter moves with the number of requests
    held. *)
Lemma conn_send_finish_keeps m c r offers tr :
  send_request c = Some r → Forall (window_ok m) (held c) →
  match conn_send_finish c r offers tr with
  | Return _ c' _ | More c' _ _ =>
      Forall (window_ok m) (held c') ∧
      (length (held c') ≤ length (held c))%nat ∧
      outstanding_requests c' - Z.of_nat (length (held c'))
      = outstanding_requests c - Z.of_nat (length (held c))
  end.
Proof.
  intros Hr Hwin. unfold conn_send_finish.
  destruct (send_len r =? 0); simpl; [|done].
  unfold held in *. rewrite Hr in Hwin. simpl in *. rewrite Hr. simpl.
  apply Forall_inv_tail in Hwin. split_and!; [done|lia|lia].
Qed.

Lemma conn_send_pass_keeps m offers c :
  Forall wf_request (held c) → Forall (window_ok m) (held c) →
  match conn_send_pass offers c with
  | Return _ c' _ | More c' _ _ =>
      Forall (window_ok m) (held c') ∧
      (length (held c') ≤ length (held c))%nat ∧
      outstanding_requests c' - Z.of_nat (length (held c'))
      = outstanding_requests c - Z.of_nat (length (held c))
  end.
Proof.
  intros Hwf Hwin. unfold conn_send_pass.
  destruct (outstanding_requests c =? 0); [done|].
  destruct (conn_send_fetch_held c) as (_ & Hh & Ho). simpl in Hh, Ho.
  set (c1 := match send_request c with
             | None => let '(r, c') := spdk_jsonrpc_server_dequeue_request c in
                       set_send_request r c'
             | Some _ => c end) in *.
  rewrite <- Hh, <- Ho in *. clearbody c1.
  destruct (send_request c1) as [request|] eqn:Hr; [|done].
  assert (Hwfr : wf_request request ∧ window_ok m request).
  { unfold held in Hwf, Hwin. rewrite Hr in Hwf, Hwin.
    apply Forall_inv in Hwf. by apply Forall_inv in Hwin. }
  destruct Hwfr as [Hwfr [Hwr Hmr]].
  destruct (0 <? send_len request); [|by apply conn_send_finish_keeps].
  destruct (hd (SendFail EAGAIN) offers) as [k|e]; simpl.
  2:{ by destruct (transient e). }
  destruct (send_window_advance request k Hwfr) as (Eoff & Elen & _ & Hsplit).
  set (sent := take k (send_window request)) in *.
  set (request' := set_cursor _ _ request) in *.
  destruct (Z.of_nat (length sent) <? 0) eqn:Erc; [lia|].
  set (c2 := set_send_request (Some request') c1).
  assert (Hheld2 : held c2 = request' :: send_queue c1) by done.
  assert (Hheld1 : held c1 = request :: send_queue c1) by (unfold held; by rewrite Hr).
  assert (Hwin2 : Forall (window_ok m) (held c2)).
  { rewrite Hheld2. rewrite Hheld1 in Hwin. apply Forall_cons in Hwin as [_ Hwin].
    constructor; [|done]. apply (f_equal length) in Hsplit. rewrite length_app in Hsplit.
    unfold window_ok. lia. }
  pose proof (conn_send_finish_keeps m c2 request' (tl offers)
                [EvSend (sockfd c1) sent (Z.of_nat (length sent))] eq_refl Hwin2) as Hfin.
  rewrite Hheld2 in Hfin. rewrite Hheld1.
  destruct (conn_send_finish c2 request' (tl offers) _); simpl in *; done.
Qed.

Lemma conn_send_loop_keeps m fuel :
  ∀ offers c rc c' tr,
    Forall wf_request (held c) → Forall (window_ok m) (held c) →
    conn_send_loop fuel offers c = Some (rc, c', tr) →
    Forall (window_ok m) (held c') ∧
    (length (held c') ≤ length (held c))%nat ∧
    outstanding_requests c' - Z.of_nat (length (held c'))
    = outstanding_requests c - Z.of_nat (length (held c)).
Proof.
  induction fuel as [|fuel IH]; intros offers c rc c' tr Hwf Hwin; [done|].
  simpl. pose proof (conn_send_pass_keeps m offers c Hwf Hwin) as Hkeep.
  pose proof (conn_send_pass_ok offers c Hwf) as Hok.
  destruct (conn_send_pass offers c) as [rc1 c1 t1|c1 offers1 t1].
  - by intros [= _ <- _].
  - destruct Hkeep as (Hwin1 & Hlen1 & Hs1). destruct Hok as [(_ & Hwf1 & _) _].
    destruct (conn_send_loop fuel offers1 c1) as [[[rc2 c2] t2]|] eqn:Hrun; [|done].
    simpl. intros [= _ <- _].
    destruct (IH _ _ _ _ _ Hwf1 Hwin1 Hrun) as (Hwin2 & Hlen2 & Hs2).
    split_and!; [done|lia|lia].
Qed.


(** ** Order of the responses on the wire *)

Lemma pending_bytes_enqueue r c :
  pending_bytes (conn_enqueue r c) = pending_bytes c ++ send_window r.
Proof.
  unfold pending_bytes, held, conn_enqueue. simpl.
  rewrite app_assoc, map_app, concat_app. simpl. by rewrite app_nil_r.
Qed.

Lemma held_enqueue r c : held (conn_enqueue r c) = held c ++ [r].
Proof. unfold held, conn_enqueue. simpl. by rewrite app_assoc. Qed.

(** Submission appends to the queue of the owner and touches no other
    slot. *)
Lemma send_response_lookup (r : spdk_jsonrpc_request) (s : spdk_jsonrpc_server) (j : nat) :
  conns_array (spdk_jsonrpc_server_send_response r s) !! j
  = if decide (j = req_conn r)
    then conn_enqueue r <$> conns_array s !! j
    else conns_array s !! j.
Proof.
  unfold spdk_jsonrpc_server_send_response.
  destruct (conns_array s !! req_conn r) as [c|] eqn:Hc; simpl.
  - case_decide as Hj.
    + subst j. rewrite list_lookup_insert_eq, Hc; [done|]. by apply lookup_lt_Some in Hc.
    + by rewrite list_lookup_insert_ne.
  - case_decide as Hj; [|done]. subst j. by rewrite Hc.
Qed.

(** Bytes are neither lost, duplicated nor reordered by a run of
    submissions and send steps. *)
Lemma run_actions_conserves (acts : list conn_action) :
  ∀ c, Forall wf_request (held c) → Forall wf_request (submitted acts) →
  ∃ c' tr,
    run_actions acts c = Some (c', tr) ∧ sockfd c' = sockfd c ∧
    wire (sockfd c) tr ++ pending_bytes c'
    = pending_bytes c ++ concat (map send_window (submitted acts)).
Proof.
  induction acts as [|[r|offers|offers] acts IH]; intros c Hwf Hsub; simpl in *.
  - exists c, []. by rewrite app_nil_r.
  - apply Forall_cons in Hsub as [Hr Hsub].
    destruct (IH (conn_enqueue r c)) as (c' & tr & Hrun & Hfd & Hbytes); [|done|].
    { rewrite held_enqueue. apply Forall_app. by split; [|constructor]. }
    exists c', tr. split_and!; [done|done|].
    change (sockfd (conn_enqueue r c)) with (sockfd c) in Hbytes.
    by rewrite Hbytes, pending_bytes_enqueue, <- app_assoc.
  - destruct (conn_send_ok offers c Hwf)
      as (rc & c1 & t1 & -> & ((Hfd & _) & Hwf1 & Hw1 & _) & _).
    simpl. destruct (IH c1 Hwf1 Hsub) as (c' & t2 & -> & Hfd' & Hw2).
    simpl. exists c', (t1 ++ t2). split_and!; [done|congruence|].
    rewrite wire_app, <- app_assoc. rewrite Hfd in Hw2. by rewrite Hw2, app_assoc, Hw1.
  - pose proof (conn_send_pass_ok offers c Hwf) as Hpass.
    assert (∃ c1 t1, match conn_send_pass offers c with
                     | Return _ c1 t1 | More c1 _ t1 => (c1, t1)
                     end = (c1, t1) ∧ send_step_ok c c1 t1) as (c1 & t1 & -> & Hok).
    { destruct (conn_send_pass offers c); destruct Hpass; by eexists _, _. }
    destruct Hok as ((Hfd & _) & Hwf1 & Hw1 & _).
    destruct (IH c1 Hwf1 Hsub) as (c' & t2 & -> & Hfd' & Hw2).
    simpl. exists c', (t1 ++ t2). split_and!; [done|congruence|].
    rewrite wire_app, <- app_assoc. rewrite Hfd in Hw2. by rewrite Hw2, app_assoc, Hw1.
Qed.

(** What a run keeps of the windows and of the counter. *)
Lemma run_actions_keeps m (acts : list conn_action) :
  ∀ c c' tr,
    Forall wf_request (held c) → Forall wf_request (submitted acts) →
    Forall (window_ok m) (held c) → Forall (window_ok m) (submitted acts) →
    run_actions acts c = Some (c', tr) →
    Forall wf_request (held c') ∧ Forall (window_ok m) (held c') ∧
    (length (held c') ≤ length (held c) + length (submitted acts))%nat ∧
    outstanding_requests c' - Z.of_nat (length (held c'))
    = outstanding_requests c - Z.of_nat (length (held c))
      - Z.of_nat (length (submitted acts)).
Proof.
  induction acts as [|[r|offers|offers] acts IH]; intros c c' tr Hwf Hsub Hwin Hwsub; simpl in *.
  - intros [= <- _]. split_and!; [done|done|lia|lia].
  - apply Forall_cons in Hsub as [Hr Hsub]. apply Forall_cons in Hwsub as [Hwr Hwsub].
    intros Hrun. apply IH in Hrun; try done.
    + rewrite held_enqueue, length_app in Hrun. simpl in Hrun.
      destruct Hrun as (? & ? & ? & ?). split_and!; [done|done|lia|lia].
    + rewrite held_enqueue. apply Forall_app. by split; [|constructor].
    + rewrite held_enqueue. apply Forall_app. by split; [|constructor].
  - destruct (conn_send_ok offers c Hwf) as (rc & c1 & t1 & Hsend & (_ & Hwf1 & _) & _).
    rewrite Hsend. simpl.
    destruct (conn_send_loop_keeps m _ _ _ _ _ _ Hwf Hwin Hsend) as (Hwin1 & Hlen1 & Hs1).
    destruct (run_actions acts c1) as [[c2 t2]|] eqn:Hrun; [|done]. simpl.
    intros [= <- _]. destruct (IH _ _ _ Hwf1 Hsub Hwin1 Hwsub Hrun) as (? & ? & ? & ?).
    split_and!; [done|done|lia|lia].
  - pose proof (conn_send_pass_ok offers c Hwf) as Hok.
    pose proof (conn_send_pass_keeps m offers c Hwf Hwin) as Hkeep.
    assert (∃ c1 t1, match conn_send_pass offers c with
                     | Return _ c1 t1 | More c1 _ t1 => (c1, t1)
                     end = (c1, t1) ∧ Forall wf_request (held c1) ∧
                     Forall (window_ok m) (held c1) ∧
                     (length (held c1) ≤ length (held c))%nat ∧
                     outstanding_requests c1 - Z.of_nat (length (held c1))
                     = outstanding_requests c - Z.of_nat (length (held c)))
      as (c1 & t1 & -> & Hwf1 & Hwin1 & Hlen1 & Hs1).
    { destruct (conn_send_pass offers c); destruct Hok as [(_ & ? & _) _];
        destruct Hkeep as (? & ? & ?); by eexists _, _. }
    destruct (run_actions acts c1) as [[c2 t2]|] eqn:Hrun; [|done]. simpl.
    intros [= <- _]. destruct (IH _ _ _ Hwf1 Hsub Hwin1 Hwsub Hrun) as (? & ? & ? & ?).
    split_and!; [done|done|lia|lia].
Qed.

(** C4: the responses go out in submission order.  Submission appends the
    request to the queue of its connection and to nothing else; whatever
    way submissions, send steps and single passes of a send step of that
    connection interleave, the bytes
    on the wire followed by the bytes still pending (the in-flight request
    first, then the queue) are the bytes pending at the start followed by
    the windows of the submitted responses in submission order.  From an
    idle connection the wire is therefore always a prefix of A, B, C, ...
    and it is all of it once nothing is pending.  And the bytes do go out:
    when the submitted responses are counted and lie inside their buffers,
    a send step on a transport with room, taken in whatever state the run
    has reached, puts every byte still pending on the wire, so that the
    wire of the whole run is exactly A, B, C, ... and nothing is held. *)
Theorem responses_sent_in_submission_order
    (acts : list conn_action) (c : spdk_jsonrpc_server_conn) :
  Forall wf_request (held c) → Forall wf_request (submitted acts) →
  (∀ r s j,
     conns_array (spdk_jsonrpc_server_send_response r s) !! j
     = if decide (j = req_conn r)
       then conn_enqueue r <$> conns_array s !! j
       else conns_array s !! j) ∧
  ∃ c' tr,
    run_actions acts c = Some (c', tr) ∧
    wire (sockfd c) tr ++ pending_bytes c'
    = pending_bytes c ++ concat (map send_window (submitted acts)) ∧
    (held c = [] →
     wire (sockfd c) tr `prefix_of` concat (map send_window (submitted acts)) ∧
     (pending_bytes c' = [] →
      wire (sockfd c) tr = concat (map send_window (submitted acts)))) ∧
    (∀ m offers,
       Forall (window_ok m) (held c ++ submitted acts) →
       Z.of_nat (length (held c) + length (submitted acts)) ≤ outstanding_requests c →
       Forall (room m) offers →
       (length (held c) + length (submitted acts) ≤ length offers)%nat →
       ∃ c'' tr',
         spdk_jsonrpc_server_conn_send offers c' = Some (0, c'', tr') ∧
         held c'' = [] ∧
         wire (sockfd c) (tr ++ tr')
         = pending_bytes c ++ concat (map send_window (submitted acts))).
Proof.
  intros Hwf Hsub. split; [apply send_response_lookup|].
  destruct (run_actions_conserves acts c Hwf Hsub) as (c' & tr & Hrun & Hfd & Hbytes).
  exists c', tr. split_and!; try done.
  - intros Hidle. unfold pending_bytes at 2 in Hbytes. rewrite Hidle in Hbytes.
    simpl in Hbytes. split.
    + exists (pending_bytes c'). by rewrite Hbytes.
    + intros Hnone. by rewrite Hnone, app_nil_r in Hbytes.
  - intros m offers Hwin Hcnt Hroom Hoff.
    apply Forall_app in Hwin as [Hwin Hwsub].
    destruct (run_actions_keeps m acts c c' tr Hwf Hsub Hwin Hwsub Hrun)
      as (Hwf' & Hwin' & Hlen' & Hslack).
    destruct (conn_send_loop_drains m (held c') c' offers
                (S (S (length (send_queue c')))) eq_refl Hwf' Hwin')
      as (c'' & tr' & Hsend & Hheld'' & _ & Hwire & _); [lia|done|lia| |].
    { unfold held. rewrite length_app. destruct (send_request c'); simpl; lia. }
    exists c'', tr'. split_and!; [done|done|].
    rewrite wire_app, <- Hbytes. f_equal. by rewrite <- Hfd.
Qed.

Lemma responses_sent_in_submission_order_witness :
  ∃ c' tr,
    run_actions [Submit resp_A; Submit resp_B; SendStep [SendRoom 2]; Submit resp_C;
                 SendPass [SendRoom 1]] busy_conn
    = Some (c', tr) ∧
    wire 5 tr ++ pending_bytes c' = [x41; x41; x41; x42; x42; x43] ∧
    ∃ c'' tr',
      spdk_jsonrpc_server_conn_send [SendRoom 3; SendRoom 3; SendRoom 3] c'
      = Some (0, c'', tr') ∧
      held c'' = [] ∧
      wire 5 (tr ++ tr') = [x41; x41; x41; x42; x42; x43].
Proof.
  destruct (responses_sent_in_submission_order
              [Submit resp_A; Submit resp_B; SendStep [SendRoom 2]; Submit resp_C;
               SendPass [SendRoom 1]] busy_conn)
    as (_ & c' & tr & Hrun & Hbytes & _ & Hdrain).
  - constructor.
  - repeat constructor; simpl; lia.
  - exists c', tr. split; [exact Hrun|]. split; [exact Hbytes|].
    apply (Hdrain 3 [SendRoom 3; SendRoom 3; SendRoom 3]).
    + repeat constructor; simpl; lia.
    + simpl. lia.
    + repeat constructor; eexists; (split; [reflexivity|simpl; lia]).
    + simpl. lia.
Defined.

(** The run of the witness: two bytes of A go out in the first send step,
    the third in the single pass, B and C in the last step. *)
Example interleaved_run_wire :
  (run_actions [Submit resp_A; Submit resp_B; SendStep [SendRoom 2]; Submit resp_C;
                SendPass [SendRoom 1]; SendStep [SendRoom 3; SendRoom 3; SendRoom 3]]
     busy_conn)
    ≫= (λ '(c', tr), Some (tr, held c'))
  = Some ([EvSend 5 [x41; x41] 2; EvSend 5 [x41] 1;
           EvFree (set_cursor 3 0 resp_A) 2;
           EvSend 5 [x42; x42] 2; EvFree (set_cursor 2 0 resp_B) 1;
           EvSend 5 [x43] 1; EvFree (set_cursor 1 0 resp_C) 0], []).
Proof. reflexivity. Qed.

(** ** The slot pool *)

Lemma foldl_snoc (l acc : list nat) : foldl (λ fr i, fr ++ [i]) acc l = acc ++ l.
Proof.
  revert acc. induction l as [|x l IH]; intros acc; simpl; [by rewrite app_nil_r|].
  by rewrite IH, <- app_assoc.
Qed.

Lemma tailq_remove_absent i l : i ∉ l → tailq_remove i l = l.
Proof.
  unfold tailq_remove. induction l as [|x l IH]; intros Hni; [done|].
  apply not_elem_of_cons in Hni as [Hne Hni].
  rewrite filter_cons_True by done. by rewrite IH.
Qed.

Lemma tailq_remove_head i l : i ∉ l → tailq_remove i (i :: l) = l.
Proof.
  intros Hni. unfold tailq_remove. rewrite filter_cons_False by (intros Hx; by apply Hx).
  by apply tailq_remove_absent.
Qed.

Lemma tailq_remove_perm i l : NoDup l → i ∈ l → l ≡ₚ i :: tailq_remove i l.
Proof.
  intros Hnd Hin. apply list_elem_of_split in Hin as (l1 & l2 & ->).
  apply NoDup_app in Hnd as (Hnd1 & Hdis & Hnd2).
  apply NoDup_cons in Hnd2 as [Hni2 Hnd2].
  assert (Hni1 : i ∉ l1) by (intros Hin; apply (Hdis _ Hin); left).
  unfold tailq_remove. rewrite filter_app, filter_cons_False by (intros Hx; by apply Hx).
  fold (tailq_remove i l1) (tailq_remove i l2).
  rewrite !tailq_remove_absent by done.
  by rewrite Permutation_middle.
Qed.

Lemma elem_of_tailq_remove i j l : j ∈ tailq_remove i l ↔ j ∈ l ∧ j ≠ i.
Proof. unfold tailq_remove. rewrite list_elem_of_filter. tauto. Qed.

Section PoolProps.
Context `{Platform}.

Lemma pool_inv_NoDup s : pool_inv s → NoDup (free_conns s ++ conns s).
Proof. intros [_ Hp]. rewrite Hp. apply NoDup_seq. Qed.

Lemma pool_inv_lookup s i :
  pool_inv s → i ∈ (free_conns s ++ conns s) → is_Some (conns_array s !! i).
Proof.
  intros [Hlen Hp] Hin. rewrite Hp in Hin. apply elem_of_seq in Hin.
  apply lookup_lt_is_Some. lia.
Qed.

(** The reading of the invariant in the specification: the two counts add
    up to the capacity and every slot is on exactly one list. *)
Lemma pool_inv_partition s :
  pool_inv s →
  (length (free_conns s) + length (conns s) = SPDK_JSONRPC_MAX_CONNS)%nat ∧
  ∀ i, (i < SPDK_JSONRPC_MAX_CONNS)%nat →
       (i ∈ free_conns s ∧ i ∉ conns s) ∨ ((i ∉ free_conns s) ∧ i ∈ conns s).
Proof.
  intros Hinv. pose proof (pool_inv_NoDup s Hinv) as Hnd. destruct Hinv as [_ Hp]. split.
  - rewrite <- length_app, Hp. apply length_seq.
  - intros i Hi. apply NoDup_app in Hnd as (_ & Hdis & _).
    assert (Hin : i ∈ (free_conns s ++ conns s)) by (rewrite Hp, elem_of_seq; lia).
    apply elem_of_app in Hin as [Hin|Hin].
    + left. split; [done|]. by apply Hdis.
    + right. split; [|done]. intros Hf. by apply (Hdis _ Hf).
Qed.

Lemma listen_pool_inv e s : (spdk_jsonrpc_server_listen e).1 = Some s → pool_inv s.
Proof.
  unfold spdk_jsonrpc_server_listen. intros Hl.
  repeat (case_match; [done|]). simpl in Hl. injection Hl as <-.
  split; simpl; [by rewrite length_replicate|].
  by rewrite foldl_snoc, app_nil_r.
Qed.

Lemma pool_inv_set_conns_array s arr :
  pool_inv s → length arr = length (conns_array s) → pool_inv (set_conns_array arr s).
Proof. intros [Hlen Hp] Harr. split; simpl; [congruence|done]. Qed.

Lemma accept_pool_inv o s rc s' tr :
  pool_inv s → spdk_jsonrpc_server_accept o s = Some (rc, s', tr) → pool_inv s'.
Proof.
  intros Hinv. pose proof (pool_inv_NoDup s Hinv) as Hnd. unfold spdk_jsonrpc_server_accept.
  destruct (0 <=? sys_accept o).
  2:{ destruct (transient (accept_errno o)); by intros [= _ <- _]. }
  destruct (free_conns s) as [|i fr] eqn:Hfr; [done|].
  destruct (conns_array s !! i) as [c|]; [|done]. simpl.
  destruct (accept_nonblock_ok o); intros [= _ <- _].
  - destruct Hinv as [Hlen Hp]. split; simpl; [by rewrite length_insert|].
    rewrite Hfr in *. simpl in Hnd. apply NoDup_cons in Hnd as [Hni _].
    rewrite tailq_remove_head by (intros Hin; apply Hni, elem_of_app; by left).
    rewrite <- Hp. simpl. by rewrite app_assoc, <- Permutation_cons_append.
  - apply pool_inv_set_conns_array; [done|]. by rewrite length_insert.
Qed.

Lemma conn_remove_pool_inv i s s' tr :
  pool_inv s → i ∈ conns s →
  spdk_jsonrpc_server_conn_remove i s = Some (s', tr) → pool_inv s'.
Proof.
  intros Hinv Hin. pose proof (pool_inv_NoDup s Hinv) as Hnd.
  unfold spdk_jsonrpc_server_conn_remove.
  destruct (conns_array s !! i) as [c|]; [|done]. simpl.
  destruct (spdk_jsonrpc_server_conn_close c) as [c1 ev].
  destruct (send_queue c1); [|done]. intros [= <- _].
  destruct Hinv as [Hlen Hp]. split; simpl; [by rewrite length_insert|].
  apply NoDup_app in Hnd as (_ & _ & Hnd).
  rewrite <- Hp. rewrite (tailq_remove_perm i (conns s)) at 2 by done.
  by rewrite <- Permutation_middle.
Qed.

End PoolProps.

(** ** The operations keep each connection well formed *)

Lemma trace_ok_nil : trace_ok [].
Proof. split; constructor. Qed.

Lemma trace_ok_app tr1 tr2 : trace_ok tr1 → trace_ok tr2 → trace_ok (tr1 ++ tr2).
Proof. intros [? ?] [? ?]. split; by apply Forall_app. Qed.

Section ConnOk.
Context `{Platform}.

Lemma conn_close_ok c :
  conn_ok c →
  let '(c', tr) := spdk_jsonrpc_server_conn_close c in
  conn_ok c' ∧ closed c' = true ∧ sockfd c' = -1 ∧ trace_ok tr ∧
  held c' = held c ∧ outstanding_requests c' = outstanding_requests c ∧
  (closed c = true → c' = c ∧ tr = []).
Proof.
  intros Hok. pose proof Hok as (Hrecv & Hfd & Hcnt & Hwf).
  unfold spdk_jsonrpc_server_conn_close. simpl.
  unfold fd_inv in Hfd. destruct (closed c) eqn:Hcl.
  - rewrite Hfd. simpl.
    assert (Heq : set_closed true c = c) by (destruct c; simpl in *; by subst).
    rewrite Heq. split_and!; done.
  - destruct (0 <=? sockfd c) eqn:E; [|lia]. split_and!; try done.
    split; repeat constructor. unfold fd_valid. simpl. lia.
Qed.

Lemma conn_send_conn_ok offers c :
  conn_ok c → closed c = false →
  ∃ rc c' tr,
    spdk_jsonrpc_server_conn_send offers c = Some (rc, c', tr) ∧
    conn_ok c' ∧ same_recv_side c c' ∧ trace_ok tr ∧
    Forall (send_event (sockfd c)) tr.
Proof.
  intros (Hrecv & Hfd & Hcnt & Hwf) Hopen.
  destruct (conn_send_ok offers c Hwf)
    as (rc & c' & tr & Hrun & (Hsame & Hwf' & _ & Hev & Hc) & _).
  destruct (Hc Hcnt) as [Hcnt' Hfree].
  exists rc, c', tr. split_and!; try done.
  - destruct Hsame as (Hs1 & Hs2 & Hs3 & Hs4). split_and!; try done.
    + unfold recv_inv. by rewrite Hs3, Hs4.
    + unfold fd_inv. by rewrite Hs1, Hs2.
  - split; [|done]. unfold fd_inv in Hfd. rewrite Hopen in Hfd.
    eapply Forall_impl; [exact Hev|]. intros [] He; try done.
    unfold fd_valid. simpl in *. by subst.
Qed.

Lemma conn_recv_conn_ok o c :
  platform_ok → conn_ok c → closed c = false →
  ∃ rc c' tr,
    spdk_jsonrpc_server_conn_recv o c = Some (rc, c', tr) ∧
    conn_ok c' ∧ same_send_side c c' ∧ trace_ok tr ∧
    Forall (recv_event (sockfd c)) tr.
Proof.
  intros Hok (Hrecv & Hfd & Hcnt & Hwf) Hopen.
  assert (Hfdv : ∀ a rc, fd_valid (EvRecv (sockfd c) a rc)).
  { intros. unfold fd_valid, fd_inv in *. rewrite Hopen in Hfd. done. }
  assert (Hkeep : ∀ c', recv_inv c' → same_send_side c c' →
            outstanding_requests c ≤ outstanding_requests c' → conn_ok c').
  { intros c' Hr (Hs1 & Hs2 & Hs3 & Hs4) Ho. split_and!; try done.
    - unfold fd_inv. by rewrite Hs1, Hs2.
    - unfold counter_inv, held in *. rewrite Hs3, Hs4. lia.
    - unfold held in *. by rewrite Hs3, Hs4. }
  assert (Hrefl : same_send_side c c) by done.
  pose proof (conn_recv_spec o c Hok Hrecv) as Hspec. simpl in Hspec.
  destruct o as [data|e].
  - case_decide.
    + eexists _, _, _. split; [exact Hspec|]. split_and!; try done.
      * split; repeat constructor. apply Hfdv.
      * repeat constructor.
    + destruct Hspec as (c' & Hr' & Hs' & Hcase).
      destruct (parse _); destruct Hcase as (Hrun & _ & Ho);
        eexists _, _, _; (split; [exact Hrun|]);
        (split_and!; [apply Hkeep; try done; lia|done| |repeat constructor]);
        split; repeat constructor; apply Hfdv.
  - eexists _, _, _. split; [exact Hspec|]. split_and!; try done.
    + split; repeat constructor. apply Hfdv.
    + repeat constructor.
Qed.

Lemma discard_queued_ok n c :
  send_request c = None → length (send_queue c) = n → conn_ok c →
  let '(c', tr) := discard_queued n c in
  conn_ok c' ∧ send_queue c' = [] ∧ send_request c' = None ∧ same_recv_side c c' ∧
  Forall free_event tr ∧ Forall free_nonneg tr ∧
  released tr = send_queue c ∧
  outstanding_requests c' = outstanding_requests c - Z.of_nat n.
Proof.
  revert c. induction n as [|n IH]; intros c Hr Hlen Hok; simpl.
  - apply nil_length_inv in Hlen. split_and!; try done. lia.
  - unfold spdk_jsonrpc_server_dequeue_request.
    destruct (send_queue c) as [|r q] eqn:Hq; [done|]. simpl.
    set (c2 := set_outstanding_requests (outstanding_requests c - 1) (set_send_queue q c)).
    destruct Hok as (Hrecv & Hfd & Hcnt & Hwf).
    unfold counter_inv, held in Hcnt, Hwf. rewrite Hr, Hq in Hcnt, Hwf. simpl in Hcnt, Hwf.
    assert (Hok2 : conn_ok c2).
    { split_and!; try done.
      - unfold counter_inv, held. simpl. rewrite Hr. simpl. lia.
      - unfold held. simpl. rewrite Hr. simpl. by apply Forall_inv_tail in Hwf. }
    specialize (IH c2 Hr). simpl in IH. specialize (IH ltac:(simpl in Hlen; lia) Hok2).
    destruct (discard_queued n c2) as [c3 evs].
    destruct IH as (Hok3 & Hq3 & Hr3 & Hsame & Hev & Hfree & Hrel & Hout).
    split_and!; try done.
    + by constructor.
    + constructor; [simpl; lia|done].
    + simpl. by rewrite Hrel.
    + rewrite Hout. simpl. lia.
Qed.

Lemma discard_responses_ok c :
  conn_ok c →
  let '(c', tr) := discard_responses c in
  conn_ok c' ∧ send_queue c' = [] ∧ send_request c' = None ∧ same_recv_side c c' ∧
  Forall free_event tr ∧ Forall free_nonneg tr ∧ released tr = held c ∧
  outstanding_requests c' = outstanding_requests c - Z.of_nat (length (held c)).
Proof.
  intros Hok. pose proof Hok as (Hrecv & Hfd & Hcnt & Hwf).
  unfold discard_responses.
  destruct (send_request c) as [r|] eqn:Hr.
  - simpl.
    set (c1 := set_send_request None
                 (set_outstanding_requests (outstanding_requests c - 1) c)).
    unfold counter_inv, held in Hcnt, Hwf. rewrite Hr in Hcnt, Hwf. simpl in Hcnt, Hwf.
    assert (Hok1 : conn_ok c1).
    { split_and!; try done.
      - unfold counter_inv, held. simpl. lia.
      - unfold held. simpl. by apply Forall_inv_tail in Hwf. }
    pose proof (discard_queued_ok (length (send_queue c)) c1 eq_refl eq_refl Hok1) as Hq.
    destruct (discard_queued (length (send_queue c)) c1) as [c2 ev2].
    destruct Hq as (Hok2 & Hq2 & Hr2 & Hsame & Hev & Hfree & Hrel & Hout).
    split_and!; try done.
    + by constructor.
    + constructor; [simpl; lia|done].
    + unfold held. rewrite Hr. simpl. by rewrite Hrel.
    + rewrite Hout. unfold held. rewrite Hr. simpl. lia.
  - pose proof (discard_queued_ok (length (send_queue c)) c Hr eq_refl Hok) as Hq.
    destruct (discard_queued (length (send_queue c)) c) as [c2 ev2].
    destruct Hq as (Hok2 & Hq2 & Hr2 & Hsame & Hev & Hfree & Hrel & Hout).
    unfold held. rewrite Hr. simpl. split_and!; try done.
Qed.

Lemma poll_io_conn_ok env c :
  platform_ok → conn_ok c →
  ∃ c' tr,
    poll_io_conn env c = Some (c', tr) ∧ conn_ok c' ∧ trace_ok tr ∧
    (closed c = true → c' = c ∧ tr = []) ∧
    (closed c = false →
     (closed c' = false ∧ sockfd c' = sockfd c ∧ Forall (io_event (sockfd c)) tr) ∨
     (closed c' = true ∧ sockfd c' = -1 ∧
      ∃ tr0, tr = tr0 ++ [EvClose (sockfd c)] ∧ Forall (io_event (sockfd c)) tr0)).
Proof.
  intros Hplat Hok. unfold poll_io_conn.
  destruct (closed c) eqn:Hcl.
  { exists c, []. by split_and!. }
  assert (Hfd : 0 ≤ sockfd c).
  { destruct Hok as (_ & Hfd & _). unfold fd_inv in Hfd. by rewrite Hcl in Hfd. }
  assert (Hclose : ∀ c1, conn_ok c1 → closed c1 = false → sockfd c1 = sockfd c →
            let '(c2, e2) := spdk_jsonrpc_server_conn_close c1 in
            conn_ok c2 ∧ closed c2 = true ∧ sockfd c2 = -1 ∧
            e2 = [EvClose (sockfd c)] ∧ trace_ok e2).
  { intros c1 Hok1 Hcl1 Hfd1. pose proof (conn_close_ok c1 Hok1) as Hc.
    unfold spdk_jsonrpc_server_conn_close in *. simpl in *. rewrite Hfd1 in *.
    destruct (0 <=? sockfd c) eqn:E; [|lia]. by destruct Hc as (? & ? & ? & ? & _). }
  destruct (conn_send_conn_ok (env_send env (sockfd c)) c Hok Hcl)
    as (rc & c1 & t1 & -> & Hok1 & (Hs1 & Hs2 & Hs3 & Hs4) & Htr1 & Hev1).
  simpl.
  assert (Hio1 : Forall (io_event (sockfd c)) t1)
    by (eapply Forall_impl; [exact Hev1|]; by left).
  destruct (negb (rc =? 0)).
  - specialize (Hclose c1 Hok1 ltac:(congruence) Hs1).
    destruct (spdk_jsonrpc_server_conn_close c1) as [c2 e2].
    destruct Hclose as (? & ? & ? & -> & ?).
    eexists _, _. split_and!; try done; [by apply trace_ok_app|].
    intros _. right. split_and!; try done. by exists t1.
  - rewrite Hs1.
    destruct (conn_recv_conn_ok (env_recv env (sockfd c)) c1 Hplat Hok1 ltac:(congruence))
      as (rc' & c2 & t2 & -> & Hok2 & (Hr1 & Hr2 & _) & Htr2 & Hev2).
    simpl. rewrite Hs1 in Hev2.
    assert (Hio2 : Forall (io_event (sockfd c)) (t1 ++ t2)).
    { apply Forall_app. split; [done|]. eapply Forall_impl; [exact Hev2|]. by right. }
    destruct (negb (rc' =? 0)).
    + specialize (Hclose c2 Hok2 ltac:(congruence) ltac:(congruence)).
      destruct (spdk_jsonrpc_server_conn_close c2) as [c3 e3].
      destruct Hclose as (? & ? & ? & -> & ?).
      eexists _, _. split_and!; try done.
      * by repeat apply trace_ok_app.
      * intros _. right. split_and!; try done. exists (t1 ++ t2). by rewrite app_assoc.
    + eexists _, _. split_and!; try done; [by apply trace_ok_app|].
      intros _. left. split_and!; try done; congruence.
Qed.

End ConnOk.

(** ** The poll step keeps the server well formed *)

Lemma free_event_fd_valid tr : Forall free_event tr → Forall fd_valid tr.
Proof. intros Hf. eapply Forall_impl; [exact Hf|]. by intros []. Qed.

Section ServerOk.
Context `{Platform}.

Lemma server_inv_insert s i c :
  server_inv s → conn_ok c →
  server_inv (set_conns_array (<[i := c]> (conns_array s)) s).
Proof.
  intros [Hpool Hall] Hc. split.
  - apply pool_inv_set_conns_array; [done|]. by rewrite length_insert.
  - simpl. by apply Forall_insert.
Qed.

Lemma server_inv_lookup s i :
  server_inv s → i ∈ (free_conns s ++ conns s) →
  ∃ c, conns_array s !! i = Some c ∧ conn_ok c.
Proof.
  intros [Hpool Hall] Hin.
  destruct (pool_inv_lookup s i Hpool Hin) as [c Hc].
  exists c. split; [done|]. by eapply Forall_lookup_1.
Qed.

(** The first loop of the poll step on one connection: an open connection
    is left alone; a closed one loses its responses and goes back to the
    free list exactly when its counter has come down to zero. *)
Lemma poll_reap_conn_ok i s :
  server_inv s → i ∈ conns s →
  ∃ s' tr,
    poll_reap_conn i s = Some (s', tr) ∧ server_inv s' ∧
    Forall free_event tr ∧ Forall free_nonneg tr ∧
    (∀ j, j ≠ i → conns_array s' !! j = conns_array s !! j) ∧
    (∀ c, conns_array s !! i = Some c →
          conns_array s' !! i = Some (if closed c then (discard_responses c).1 else c)) ∧
    ((free_conns s' = free_conns s ∧ conns s' = conns s) ∨
     (free_conns s' = i :: free_conns s ∧ conns s' = tailq_remove i (conns s) ∧
      ∃ c c', conns_array s !! i = Some c ∧ closed c = true ∧
              conns_array s' !! i = Some c' ∧ quiescent c' ∧ sockfd c' = -1)).
Proof.
  intros Hinv Hin.
  destruct (server_inv_lookup s i Hinv) as (c & Hc & Hok); [apply elem_of_app; by right|].
  assert (Hi : (i < length (conns_array s))%nat) by by apply lookup_lt_Some in Hc.
  unfold poll_reap_conn. rewrite Hc. simpl.
  destruct (closed c) eqn:Hcl.
  2:{ exists s, []. split_and!; try done.
      - intros c0. rewrite Hc. intros [= <-]. by rewrite Hcl.
      - by left. }
  pose proof (discard_responses_ok c Hok) as Hd.
  destruct (discard_responses c) as [c2 ev] eqn:Hdisc.
  destruct Hd as (Hok2 & Hq2 & Hr2 & (Hs1 & Hs2 & _) & Hev & Hfree & _ & Hout).
  set (s2 := set_conns_array (<[i:=c2]> (conns_array s)) s).
  assert (Hinv2 : server_inv s2) by by apply server_inv_insert.
  destruct (outstanding_requests c2 =? 0) eqn:E0.
  - unfold spdk_jsonrpc_server_conn_remove. simpl.
    rewrite list_lookup_insert_eq by done. simpl.
    pose proof (conn_close_ok c2 Hok2) as Hclose.
    destruct (spdk_jsonrpc_server_conn_close c2) as [c3 ev3].
    destruct Hclose as (_ & _ & _ & _ & _ & _ & Hsame).
    destruct (Hsame ltac:(congruence)) as [-> ->].
    rewrite Hq2. simpl. eexists _, _. split; [done|].
    assert (Hfd2 : sockfd c2 = -1).
    { destruct Hok2 as (_ & Hfd & _). unfold fd_inv in Hfd.
      rewrite Hs2, Hcl in Hfd. done. }
    split_and!.
    + split.
      * split; simpl; [rewrite !length_insert; apply Hinv|].
        destruct Hinv as [Hpool _]. pose proof (pool_inv_NoDup s Hpool) as Hnd.
        apply NoDup_app in Hnd as (_ & _ & Hnd). destruct Hpool as [_ Hp].
        rewrite <- Hp. rewrite (tailq_remove_perm i (conns s)) at 2 by done.
        by rewrite <- Permutation_middle.
      * simpl. apply Forall_insert; [apply Hinv2|done].
    + by rewrite app_nil_r.
    + by rewrite app_nil_r.
    + intros j Hj. simpl. by rewrite !list_lookup_insert_ne.
    + intros c0 [= <-]. rewrite Hcl, Hdisc. simpl.
      rewrite list_lookup_insert_eq; [done|]. by rewrite length_insert.
    + right. simpl. split_and!; try done. exists c, c2. split_and!; try done.
      * rewrite list_lookup_insert_eq; [done|]. by rewrite length_insert.
      * split_and!; try done; [congruence|lia].
  - eexists _, _. split; [done|]. split_and!; try done.
    + intros j Hj. simpl. by rewrite list_lookup_insert_ne.
    + intros c0 [= <-]. rewrite Hcl, Hdisc. simpl. by rewrite list_lookup_insert_eq.
    + by left.
Qed.

(** The whole first loop.  A slot leaves the active list only for the free
    list, and only with its connection quiescent. *)
Lemma poll_reap_ok l s :
  NoDup l → (∀ i, i ∈ l → i ∈ conns s) → server_inv s →
  ∃ s' tr,
    poll_reap l s = Some (s', tr) ∧ server_inv s' ∧
    Forall free_event tr ∧ Forall free_nonneg tr ∧
    (∀ j, j ∈ conns s' → j ∈ conns s) ∧
    (∀ j, j ∈ free_conns s → j ∈ free_conns s') ∧
    (∀ j, j ∉ l → conns_array s' !! j = conns_array s !! j) ∧
    (∀ j c, j ∈ l → conns_array s !! j = Some c →
            conns_array s' !! j
            = Some (if closed c then (discard_responses c).1 else c)) ∧
    (∀ j, j ∈ conns s → j ∉ conns s' →
          j ∈ l ∧ j ∈ free_conns s' ∧
          ∃ c c', conns_array s !! j = Some c ∧ closed c = true ∧
                  conns_array s' !! j = Some c' ∧ quiescent c' ∧ sockfd c' = -1).
Proof.
  revert s. induction l as [|i l IH]; intros s Hnd Hsub Hinv; simpl.
  { exists s, []. split_and!; try done. intros j c Hj. by apply elem_of_nil in Hj. }
  apply NoDup_cons in Hnd as [Hni Hnd].
  destruct (poll_reap_conn_ok i s Hinv (Hsub i ltac:(left)))
    as (s1 & e1 & Hrun1 & Hinv1 & Hev1 & Hfree1 & Hother1 & Hslot1 & Hcase1).
  rewrite Hrun1. simpl.
  assert (Hback : ∀ j, j ∈ conns s1 → j ∈ conns s).
  { intros j. destruct Hcase1 as [[_ ->]|(_ & -> & _)]; [done|].
    rewrite elem_of_tailq_remove. by intros [? _]. }
  assert (Hfwd : ∀ j, j ≠ i → j ∈ conns s → j ∈ conns s1).
  { intros j Hne Hj. destruct Hcase1 as [[_ ->]|(_ & -> & _)]; [done|].
    by rewrite elem_of_tailq_remove. }
  destruct (IH s1 Hnd) as (s2 & e2 & Hrun2 & Hinv2 & Hev2 & Hfree2 & Hsub2 & Hfr2 & Hother2
                            & Hopen2 & Hreap2); [|done|].
  { intros j Hj. apply Hfwd; [by intros ->|]. apply Hsub. by right. }
  rewrite Hrun2. simpl. exists s2, (e1 ++ e2). split; [done|].
  split_and!; try done; try (by apply Forall_app).
  - intros j Hj. by apply Hback, Hsub2.
  - intros j Hj. apply Hfr2. destruct Hcase1 as [[-> _]|(-> & _)]; [done|by right].
  - intros j Hj. apply not_elem_of_cons in Hj as [Hne Hj].
    by rewrite Hother2, Hother1.
  - intros j c Hj Hc. apply elem_of_cons in Hj as [->|Hj].
    + rewrite (Hother2 i Hni). by apply Hslot1.
    + apply Hopen2; [done|]. rewrite Hother1; [done|]. by intros ->.
  - intros j Hj Hnj.
    destruct (decide (j ∈ conns s1)) as [Hj1|Hj1].
    + destruct (Hreap2 j Hj1 Hnj) as (Hl & Hf & c & c' & Hc & Hcl & Hc' & Hq).
      split_and!; [by right|done|].
      assert (Hne : j ≠ i) by (intros ->; done).
      exists c, c'. rewrite <- (Hother1 j Hne). done.
    + destruct Hcase1 as [[_ Heq]|(Hfr & Heq & c & c' & Hc & Hcl & Hc' & Hq)];
        [by rewrite Heq in Hj1|].
      rewrite Heq, elem_of_tailq_remove in Hj1.
      assert (j = i) as -> by (destruct (decide (j = i)); [done|]; by destruct Hj1).
      split_and!; [by left|apply Hfr2; rewrite Hfr; by left|].
      exists c, c'. rewrite (Hother2 i Hni). done.
Qed.

(** The listen-socket check. *)
Lemma poll_accept_ok env s :
  server_inv s →
  ∃ s' tr,
    poll_accept env s = Some (s', tr) ∧ server_inv s' ∧ trace_ok tr ∧
    (∀ j, j ∈ conns s → j ∈ conns s' ∧ conns_array s' !! j = conns_array s !! j).
Proof.
  intros Hinv. unfold poll_accept.
  destruct (free_conns s) as [|i fr] eqn:Hfr.
  { exists s, []. split_and!; try done. }
  unfold spdk_jsonrpc_server_accept.
  destruct (server_inv_lookup s i Hinv) as (c & Hc & Hok);
    [rewrite Hfr; by left|].
  assert (Hdis : ∀ j, j ∈ conns s → j ≠ i).
  { intros j Hj ->. destruct Hinv as [Hpool _].
    pose proof (pool_inv_NoDup s Hpool) as Hnd. rewrite Hfr in Hnd.
    simpl in Hnd. apply NoDup_cons in Hnd as [Hni _]. apply Hni, elem_of_app. by right. }
  destruct (env_accept env) as [fd ok|e]; unfold sys_accept, accept_errno, accept_nonblock_ok.
  - assert (E : (0 <=? Z.of_nat fd) = true) by (apply Z.leb_le; lia).
    rewrite E, Hfr, Hc. simpl.
    set (c' := {| sockfd := Z.of_nat fd; closed := false; recv_len := 0;
                  recv_buf := recv_buf c; outstanding_requests := 0;
                  send_queue := []; send_request := None |}).
    assert (Hok' : conn_ok c').
    { destruct Hok as ([Hl Hb] & _). split_and!.
      - split; simpl; [lia|done].
      - unfold fd_inv. simpl. lia.
      - unfold counter_inv, held. simpl. lia.
      - constructor. }
    pose proof (server_inv_insert s i c' Hinv Hok') as Hinv1.
    destruct ok.
    + eexists _, _. split; [done|]. split_and!.
      * split; [|apply Hinv1].
        destruct Hinv as [Hpool _].
        eapply (accept_pool_inv (AcceptConn fd true) s); [done|].
        unfold spdk_jsonrpc_server_accept. simpl. rewrite E, Hfr, Hc. simpl. done.
      * split; repeat constructor; unfold fd_valid; simpl; lia.
      * intros j Hj. simpl. split; [apply elem_of_app; by left|].
        rewrite list_lookup_insert_ne; [done|]. intros Heq. exact (Hdis j Hj (eq_sym Heq)).
    + eexists _, _. split; [done|]. split_and!; try done.
      * split; repeat constructor; unfold fd_valid; simpl; lia.
      * intros j Hj. simpl. split; [done|].
        rewrite list_lookup_insert_ne; [done|]. intros Heq. exact (Hdis j Hj (eq_sym Heq)).
  - simpl. destruct (transient e); eexists _, _; (split; [done|]); split_and!; try done;
      split; repeat constructor.
Qed.

(** The second loop: each connection of the list takes the step
    [poll_io_conn]; the lists do not change and a closed connection is left
    exactly as it is. *)
Lemma poll_io_ok env l s :
  platform_ok → server_inv s → (∀ i, i ∈ l → i ∈ conns s) →
  ∃ s' tr,
    poll_io env l s = Some (s', tr) ∧ server_inv s' ∧ trace_ok tr ∧
    free_conns s' = free_conns s ∧ conns s' = conns s ∧
    (∀ j, j ∉ l → conns_array s' !! j = conns_array s !! j) ∧
    (∀ j c, conns_array s !! j = Some c → closed c = true →
            conns_array s' !! j = Some c) ∧
    (NoDup l → ∀ j, j ∈ l →
       ∃ c c' trj, conns_array s !! j = Some c ∧
                   poll_io_conn env c = Some (c', trj) ∧
                   conns_array s' !! j = Some c').
Proof.
  intros Hplat. revert s. induction l as [|i l IH]; intros s Hinv Hsub; simpl.
  { exists s, []. split_and!; try done. intros _ j Hj. by apply elem_of_nil in Hj. }
  destruct (server_inv_lookup s i Hinv) as (c & Hc & Hok).
  { apply elem_of_app. right. apply Hsub. by left. }
  assert (Hi : (i < length (conns_array s))%nat) by by apply lookup_lt_Some in Hc.
  rewrite Hc. simpl.
  destruct (poll_io_conn_ok env c Hplat Hok) as (c' & e1 & Hstep & Hok' & Htr1 & Hclosed & _).
  rewrite Hstep. simpl.
  set (s1 := set_conns_array (<[i:=c']> (conns_array s)) s).
  destruct (IH s1) as (s2 & e2 & -> & Hinv2 & Htr2 & Hfr & Hac & Hother & Hkeep & Heach).
  { by apply server_inv_insert. }
  { intros j Hj. apply Hsub. by right. }
  simpl. exists s2, (e1 ++ e2). split; [done|].
  split_and!; try done.
  - by apply trace_ok_app.
  - intros j Hj. apply not_elem_of_cons in Hj as [Hne Hj].
    rewrite (Hother j Hj). simpl. by rewrite list_lookup_insert_ne.
  - intros j cj Hcj Hcl. apply Hkeep; [|done]. simpl.
    destruct (decide (j = i)) as [->|Hne].
    + rewrite list_lookup_insert_eq by done.
      rewrite Hc in Hcj. injection Hcj as ->. by destruct (Hclosed Hcl) as [-> _].
    + by rewrite list_lookup_insert_ne.
  - intros Hnd j Hj. apply NoDup_cons in Hnd as [Hni Hnd].
    apply elem_of_cons in Hj as [->|Hj].
    + exists c, c', e1. split_and!; try done.
      rewrite (Hother i Hni). simpl. by rewrite list_lookup_insert_eq.
    + destruct (Heach Hnd j Hj) as (cj & cj' & trj & Hcj & Hsj & Hcj').
      exists cj, cj', trj. split_and!; try done.
      simpl in Hcj. rewrite list_lookup_insert_ne in Hcj; [done|]. by intros ->.
Qed.

(** The poll step returns 0; it is the three phases one after the other,
    and it keeps the server well formed. *)
Lemma poll_ok env s :
  platform_ok → server_inv s →
  ∃ s1 t1 s2 t2 s3 t3,
    poll_reap (conns s) s = Some (s1, t1) ∧
    poll_accept env s1 = Some (s2, t2) ∧
    poll_io env (conns s2) s2 = Some (s3, t3) ∧
    spdk_jsonrpc_server_poll env s = Some (0, s3, t1 ++ t2 ++ t3) ∧
    server_inv s1 ∧ server_inv s2 ∧ server_inv s3 ∧
    trace_ok (t1 ++ t2 ++ t3).
Proof.
  intros Hplat Hinv.
  assert (Hnd : NoDup (conns s)).
  { destruct Hinv as [Hpool _]. pose proof (pool_inv_NoDup s Hpool) as Hnd.
    by apply NoDup_app in Hnd as (_ & _ & Hnd). }
  destruct (poll_reap_ok (conns s) s Hnd ltac:(done) Hinv)
    as (s1 & t1 & Hrun1 & Hinv1 & Hev1 & Hfree1 & _).
  destruct (poll_accept_ok env s1 Hinv1) as (s2 & t2 & Hrun2 & Hinv2 & Htr2 & _).
  destruct (poll_io_ok env (conns s2) s2 Hplat Hinv2 ltac:(done))
    as (s3 & t3 & Hrun3 & Hinv3 & Htr3 & _).
  exists s1, t1, s2, t2, s3, t3.
  unfold spdk_jsonrpc_server_poll. rewrite Hrun1. simpl. rewrite Hrun2. simpl.
  rewrite Hrun3. simpl. split_and!; try done.
  repeat apply trace_ok_app; try done.
  split; [by apply free_event_fd_valid|done].
Qed.

End ServerOk.

(** ** Construction, submission and runs *)

Section RunsOk.
Context `{Platform}.

Lemma listen_server_inv e s :
  platform_ok → (spdk_jsonrpc_server_listen e).1 = Some s → server_inv s.
Proof.
  intros [[Hsz _] _] Hl. split; [by eapply listen_pool_inv|].
  unfold spdk_jsonrpc_server_listen in Hl.
  repeat (case_match; [done|]). simpl in Hl. injection Hl as <-. simpl.
  apply Forall_replicate. split_and!.
  - split; simpl; [lia|by rewrite length_replicate].
  - unfold fd_inv. simpl. lia.
  - unfold counter_inv, held. simpl. lia.
  - constructor.
Qed.

Lemma send_response_server_inv r s :
  server_inv s → counted r s → server_inv (spdk_jsonrpc_server_send_response r s).
Proof.
  intros Hinv [Hwf Hcnt]. unfold spdk_jsonrpc_server_send_response.
  destruct (conns_array s !! req_conn r) as [c|] eqn:Hc; [|done].
  apply server_inv_insert; [done|].
  destruct Hinv as [_ Hall]. pose proof (Forall_lookup_1 _ _ _ _ Hall Hc) as Hok.
  destruct Hok as (Hrecv & Hfd & _ & Hwfs). specialize (Hcnt c eq_refl).
  split_and!; try done.
  - unfold counter_inv. rewrite held_enqueue, length_app. simpl. lia.
  - rewrite held_enqueue. apply Forall_app. split; [done|by constructor].
Qed.

Lemma send_response_pool_inv r s :
  pool_inv s → pool_inv (spdk_jsonrpc_server_send_response r s).
Proof.
  intros Hinv. unfold spdk_jsonrpc_server_send_response.
  destruct (conns_array s !! req_conn r); [|done].
  apply pool_inv_set_conns_array; [done|]. by rewrite length_insert.
Qed.

(** Every run in which the dispatcher keeps its contract goes through, ends
    in a well-formed server and leaves a trace without a system call on a
    negative descriptor and without a release that takes a counter below
    zero. *)
Lemma run_server_ok acts :
  platform_ok → ∀ s, server_inv s → contract_kept acts s →
  ∃ s' tr, run_server acts s = Some (s', tr) ∧ server_inv s' ∧ trace_ok tr.
Proof.
  intros Hplat. induction acts as [|[env|r] acts IH]; intros s Hinv Hkept; simpl in *.
  - exists s, []. split_and!; try done.
  - destruct (poll_ok env s Hplat Hinv)
      as (s1 & t1 & s2 & t2 & s3 & t3 & _ & _ & _ & Hrun & _ & _ & Hinv3 & Htr).
    rewrite Hrun in *. simpl.
    destruct (IH s3 Hinv3 Hkept) as (s' & tr & -> & Hinv' & Htr').
    simpl. eexists _, _. split; [done|]. split; [done|]. by apply trace_ok_app.
  - destruct Hkept as [Hcnt Hkept].
    apply IH; [|done]. by apply send_response_server_inv.
Qed.

(** The poll step keeps the partition of the slots, whatever the state of
    the connections. *)
Lemma poll_reap_conn_pool_inv i s s' tr :
  pool_inv s → i ∈ conns s → poll_reap_conn i s = Some (s', tr) →
  pool_inv s' ∧ ∀ j, j ≠ i → j ∈ conns s → j ∈ conns s'.
Proof.
  intros Hinv Hin. unfold poll_reap_conn.
  destruct (conns_array s !! i) as [c|]; [|done]. simpl.
  destruct (closed c); [|by intros [= <- _]].
  destruct (discard_responses c) as [c2 ev].
  set (s2 := set_conns_array (<[i:=c2]> (conns_array s)) s).
  assert (Hinv2 : pool_inv s2).
  { apply pool_inv_set_conns_array; [done|]. by rewrite length_insert. }
  destruct (outstanding_requests c2 =? 0); [|by intros [= <- _]].
  destruct (spdk_jsonrpc_server_conn_remove i s2) as [[s3 ev3]|] eqn:Hrm; [|done].
  simpl. intros [= <- _]. split; [by eapply conn_remove_pool_inv|].
  intros j Hne Hj. unfold spdk_jsonrpc_server_conn_remove in Hrm.
  destruct (conns_array s2 !! i); [|done]. simpl in Hrm.
  destruct (spdk_jsonrpc_server_conn_close _) as [c3 e3].
  destruct (send_queue c3); [|done]. injection Hrm as <- _. simpl.
  by apply elem_of_tailq_remove.
Qed.

Lemma poll_reap_pool_inv l s s' tr :
  NoDup l → (∀ i, i ∈ l → i ∈ conns s) → pool_inv s →
  poll_reap l s = Some (s', tr) → pool_inv s'.
Proof.
  revert s tr. induction l as [|i l IH]; intros s tr Hnd Hsub Hinv; simpl.
  { by intros [= <- _]. }
  apply NoDup_cons in Hnd as [Hni Hnd].
  destruct (poll_reap_conn i s) as [[s1 e1]|] eqn:Hrun1; [|done]. simpl.
  destruct (poll_reap_conn_pool_inv i s s1 e1 Hinv (Hsub i ltac:(left)) Hrun1) as [Hinv1 Hkeep].
  destruct (poll_reap l s1) as [[s2 e2]|] eqn:Hrun2; [|done]. simpl.
  intros [= <- _]. eapply (IH s1); [done| |done|done].
  intros j Hj. apply Hkeep; [by intros ->|]. apply Hsub. by right.
Qed.

Lemma poll_io_pool_inv env l s s' tr :
  pool_inv s → poll_io env l s = Some (s', tr) → pool_inv s'.
Proof.
  revert s tr. induction l as [|i l IH]; intros s tr Hinv; simpl.
  { by intros [= <- _]. }
  destruct (conns_array s !! i) as [c|]; [|done]. simpl.
  destruct (poll_io_conn env c) as [[c' e1]|]; [|done]. simpl.
  destruct (poll_io env l _) as [[s2 e2]|] eqn:Hrun; [|done]. simpl.
  intros [= <- _]. eapply IH; [|done].
  apply pool_inv_set_conns_array; [done|]. by rewrite length_insert.
Qed.

Lemma poll_pool_inv env s rc s' tr :
  pool_inv s → spdk_jsonrpc_server_poll env s = Some (rc, s', tr) → pool_inv s'.
Proof.
  intros Hinv. unfold spdk_jsonrpc_server_poll.
  destruct (poll_reap (conns s) s) as [[s1 e1]|] eqn:Hrun1; [|done]. simpl.
  assert (Hinv1 : pool_inv s1).
  { eapply poll_reap_pool_inv; [|done|done|done].
    pose proof (pool_inv_NoDup s Hinv) as Hnd. by apply NoDup_app in Hnd as (_ & _ & Hnd). }
  destruct (poll_accept env s1) as [[s2 e2]|] eqn:Hrun2; [|done]. simpl.
  assert (Hinv2 : pool_inv s2).
  { unfold poll_accept in Hrun2. destruct (free_conns s1); [by injection Hrun2 as <- _|].
    destruct (spdk_jsonrpc_server_accept (env_accept env) s1) as [[[rc' s2'] e]|] eqn:Hacc;
      [|done].
    simpl in Hrun2. injection Hrun2 as <- _. by eapply accept_pool_inv. }
  destruct (poll_io env (conns s2) s2) as [[s3 e3]|] eqn:Hrun3; [|done]. simpl.
  intros [= _ <- _]. by eapply poll_io_pool_inv.
Qed.

End RunsOk.

(** ** Held requests belong to their holder *)

Section Owner.
Context `{Platform}.

Lemma owner_ok_held i c c' : held c' = held c → owner_ok i c → owner_ok i c'.
Proof. unfold owner_ok. by intros ->. Qed.

Lemma conn_send_pass_owner i offers c :
  owner_ok i c →
  match conn_send_pass offers c with
  | Return _ c' _ | More c' _ _ => owner_ok i c'
  end.
Proof.
  intros Hown. unfold conn_send_pass.
  destruct (outstanding_requests c =? 0); [done|].
  destruct (conn_send_fetch_held c) as (_ & Hh & _). simpl in Hh.
  set (c1 := match send_request c with
             | None => let '(r, c') := spdk_jsonrpc_server_dequeue_request c in
                       set_send_request r c'
             | Some _ => c end) in *.
  assert (Hown1 : owner_ok i c1) by by apply (owner_ok_held i c).
  clearbody c1.
  destruct (send_request c1) as [request|] eqn:Hr; [|done].
  assert (Hfin : ∀ c2 r2 o2 t2, send_request c2 = Some r2 → owner_ok i c2 →
            match conn_send_finish c2 r2 o2 t2 with
            | Return _ c' _ | More c' _ _ => owner_ok i c'
            end).
  { intros c2 r2 o2 t2 Hr2 Hown2. unfold conn_send_finish.
    destruct (send_len r2 =? 0); [|done]. simpl.
    unfold owner_ok, held in *. simpl. rewrite Hr2 in Hown2. by apply Forall_inv_tail in Hown2. }
  destruct (0 <? send_len request).
  - destruct (sys_send _ _) as [rc sent]. destruct (rc <? 0).
    + by destruct (transient _).
    + apply Hfin; [done|]. unfold owner_ok, held in *. simpl. rewrite Hr in Hown1.
      simpl in Hown1. apply Forall_cons in Hown1 as [Hreq Hrest]. by constructor.
  - by apply Hfin.
Qed.

Lemma conn_send_owner i offers c rc c' tr :
  owner_ok i c → spdk_jsonrpc_server_conn_send offers c = Some (rc, c', tr) →
  owner_ok i c'.
Proof.
  unfold spdk_jsonrpc_server_conn_send. generalize (S (S (length (send_queue c)))).
  intros fuel. revert offers c rc c' tr.
  induction fuel as [|fuel IH]; intros offers c rc c' tr Hown; [done|].
  simpl. pose proof (conn_send_pass_owner i offers c Hown) as Hpass.
  destruct (conn_send_pass offers c) as [rc1 c1 t1|c1 offers1 t1].
  - by intros [= _ <- _].
  - destruct (conn_send_loop fuel offers1 c1) as [[[rc2 c2] t2]|] eqn:Hrun; [|done].
    simpl. intros [= _ <- _]. by eapply IH.
Qed.

Lemma conn_recv_held o c rc c' tr :
  spdk_jsonrpc_server_conn_recv o c = Some (rc, c', tr) → held c' = held c.
Proof.
  unfold spdk_jsonrpc_server_conn_recv, spdk_jsonrpc_parse_request.
  destruct (sys_recv _ _) as [rc0 data].
  destruct (rc0 =? -1); [destruct (transient _); by intros [= _ <- _]|].
  destruct (rc0 =? 0); [by intros [= _ <- _]|].
  simpl. destruct (parse _) as [|n|]; simpl.
  - by intros [= _ <- _].
  - destruct (n <? 0); [by intros [= _ <- _]|].
    destruct (0 <? n); [|by intros [= _ <- _]].
    destruct (size_t n <=? _); [by intros [= _ <- _]|done].
  - by intros [= _ <- _].
Qed.

Lemma conn_close_held c : held (spdk_jsonrpc_server_conn_close c).1 = held c.
Proof. unfold spdk_jsonrpc_server_conn_close. simpl. by destruct (0 <=? sockfd c). Qed.

Lemma poll_io_conn_owner i env c c' tr :
  owner_ok i c → poll_io_conn env c = Some (c', tr) → owner_ok i c'.
Proof.
  intros Hown. unfold poll_io_conn.
  destruct (closed c); [by intros [= <- _]|].
  destruct (spdk_jsonrpc_server_conn_send _ c) as [[[rc c1] t1]|] eqn:Hsend; [|done].
  simpl. pose proof (conn_send_owner i _ c rc c1 t1 Hown Hsend) as Hown1.
  destruct (negb (rc =? 0)).
  - pose proof (conn_close_held c1) as Hh.
    destruct (spdk_jsonrpc_server_conn_close c1) as [c2 e2]. intros [= <- _].
    by apply (owner_ok_held i c1).
  - destruct (spdk_jsonrpc_server_conn_recv _ c1) as [[[rc' c2] t2]|] eqn:Hrecv; [|done].
    simpl. pose proof (conn_recv_held _ c1 rc' c2 t2 Hrecv) as Hh2.
    assert (Hown2 : owner_ok i c2) by by apply (owner_ok_held i c1).
    destruct (negb (rc' =? 0)); [|by intros [= <- _]].
    pose proof (conn_close_held c2) as Hh.
    destruct (spdk_jsonrpc_server_conn_close c2) as [c3 e3]. intros [= <- _].
    by apply (owner_ok_held i c2).
Qed.

Lemma owned_insert s i c :
  owned s → owner_ok i c → owned (set_conns_array (<[i := c]> (conns_array s)) s).
Proof.
  intros Hown Hc j cj. simpl. intros Hj.
  destruct (decide (j = i)) as [->|Hne].
  - apply list_lookup_insert_Some in Hj as [(_ & <- & _)|[Hne _]]; done.
  - rewrite list_lookup_insert_ne in Hj by done. by apply Hown.
Qed.

Lemma poll_io_owned env l s s' tr :
  owned s → poll_io env l s = Some (s', tr) → owned s'.
Proof.
  revert s tr. induction l as [|i l IH]; intros s tr Hown; simpl.
  { by intros [= <- _]. }
  destruct (conns_array s !! i) as [c|] eqn:Hc; [|done]. simpl.
  destruct (poll_io_conn env c) as [[c' e1]|] eqn:Hstep; [|done]. simpl.
  destruct (poll_io env l _) as [[s2 e2]|] eqn:Hrun; [|done]. simpl.
  intros [= <- _]. eapply IH; [|done].
  apply owned_insert; [done|]. eapply poll_io_conn_owner; [|done]. by apply Hown.
Qed.

Lemma discard_queued_owner i n c :
  send_request c = None → owner_ok i c → owner_ok i (discard_queued n c).1.
Proof.
  revert c. induction n as [|n IH]; intros c Hr Hown; [done|].
  simpl. unfold spdk_jsonrpc_server_dequeue_request.
  destruct (send_queue c) as [|r q] eqn:Hq; [done|]. simpl.
  set (c2 := set_outstanding_requests _ _).
  specialize (IH c2 Hr). destruct (discard_queued n c2) as [c3 evs]. simpl in *.
  apply IH. unfold owner_ok, held in *. simpl. rewrite Hr, Hq in *. simpl in *.
  by apply Forall_inv_tail in Hown.
Qed.

Lemma discard_responses_owner i c :
  owner_ok i c → owner_ok i (discard_responses c).1.
Proof.
  intros Hown. unfold discard_responses.
  destruct (send_request c) as [r|] eqn:Hr; simpl.
  - set (c1 := set_send_request None _).
    pose proof (discard_queued_owner i (length (send_queue c)) c1 eq_refl) as Hq.
    destruct (discard_queued _ c1) as [c2 ev2]. simpl in *. apply Hq.
    unfold owner_ok, held in *. simpl. rewrite Hr in Hown. by apply Forall_inv_tail in Hown.
  - pose proof (discard_queued_owner i (length (send_queue c)) c Hr Hown) as Hq.
    by destruct (discard_queued _ c) as [c2 ev2].
Qed.

Lemma poll_reap_conn_owned i s s' tr :
  owned s → poll_reap_conn i s = Some (s', tr) → owned s'.
Proof.
  intros Hown. unfold poll_reap_conn.
  destruct (conns_array s !! i) as [c|] eqn:Hc; [|done]. simpl.
  destruct (closed c); [|by intros [= <- _]].
  pose proof (discard_responses_owner i c (Hown i c Hc)) as Hown2.
  destruct (discard_responses c) as [c2 ev]. simpl in Hown2.
  set (s2 := set_conns_array (<[i:=c2]> (conns_array s)) s).
  assert (Hs2 : owned s2) by by apply owned_insert.
  destruct (outstanding_requests c2 =? 0); [|by intros [= <- _]].
  unfold spdk_jsonrpc_server_conn_remove.
  destruct (conns_array s2 !! i) as [c2'|] eqn:Hc2; [|done]. simpl.
  pose proof (conn_close_held c2') as Hh.
  destruct (spdk_jsonrpc_server_conn_close c2') as [c3 e3].
  destruct (send_queue c3); [|done]. simpl. intros [= <- _].
  apply (owned_insert s2 i c3 Hs2). apply (owner_ok_held i c2'); [done|]. by apply Hs2.
Qed.

Lemma poll_reap_owned l s s' tr :
  owned s → poll_reap l s = Some (s', tr) → owned s'.
Proof.
  revert s tr. induction l as [|i l IH]; intros s tr Hown; simpl.
  { by intros [= <- _]. }
  destruct (poll_reap_conn i s) as [[s1 e1]|] eqn:Hrun1; [|done]. simpl.
  destruct (poll_reap l s1) as [[s2 e2]|] eqn:Hrun2; [|done]. simpl.
  intros [= <- _]. eapply IH; [|done]. by eapply poll_reap_conn_owned.
Qed.

Lemma accept_owned o s rc s' tr :
  owned s → spdk_jsonrpc_server_accept o s = Some (rc, s', tr) → owned s'.
Proof.
  intros Hown. unfold spdk_jsonrpc_server_accept.
  destruct (0 <=? sys_accept o).
  2:{ destruct (transient (accept_errno o)); by intros [= _ <- _]. }
  destruct (free_conns s) as [|i fr]; [done|].
  destruct (conns_array s !! i) as [c|]; [|done]. simpl.
  destruct (accept_nonblock_ok o); intros [= _ <- _];
    apply (owned_insert s i); try done; constructor.
Qed.

(** The poll step, the submission of a response and construction keep
    every held request with its owner. *)
Lemma poll_owned env s rc s' tr :
  owned s → spdk_jsonrpc_server_poll env s = Some (rc, s', tr) → owned s'.
Proof.
  intros Hown. unfold spdk_jsonrpc_server_poll.
  destruct (poll_reap (conns s) s) as [[s1 e1]|] eqn:Hrun1; [|done]. simpl.
  pose proof (poll_reap_owned _ _ _ _ Hown Hrun1) as Hown1.
  destruct (poll_accept env s1) as [[s2 e2]|] eqn:Hrun2; [|done]. simpl.
  assert (Hown2 : owned s2).
  { unfold poll_accept in Hrun2. destruct (free_conns s1); [by injection Hrun2 as <- _|].
    destruct (spdk_jsonrpc_server_accept (env_accept env) s1) as [[[rc' s2'] e]|] eqn:Hacc;
      [|done].
    simpl in Hrun2. injection Hrun2 as <- _. by eapply accept_owned. }
  destruct (poll_io env (conns s2) s2) as [[s3 e3]|] eqn:Hrun3; [|done]. simpl.
  intros [= _ <- _]. by eapply poll_io_owned.
Qed.

Lemma send_response_owned r s :
  owned s → owned (spdk_jsonrpc_server_send_response r s).
Proof.
  intros Hown. unfold spdk_jsonrpc_server_send_response.
  destruct (conns_array s !! req_conn r) as [c|] eqn:Hc; [|done].
  apply owned_insert; [done|]. unfold owner_ok. rewrite held_enqueue.
  apply Forall_app. split; [by apply Hown|by constructor].
Qed.

Lemma listen_owned e s : (spdk_jsonrpc_server_listen e).1 = Some s → owned s.
Proof.
  unfold spdk_jsonrpc_server_listen. intros Hl.
  repeat (case_match; [done|]). simpl in Hl. injection Hl as <-.
  intros i c. simpl. intros Hc. apply lookup_replicate in Hc as [-> _]. constructor.
Qed.

End Owner.

(** ** The claims about the pool and the poll step *)

(** C2: the slots are partitioned into the free list and the active list
    at all times.  Construction establishes the partition; accept, close,
    reap (remove), the poll step and the submission of a response keep it;
    and the partition means that the two counts add up to
    SPDK_JSONRPC_MAX_CONNS and that every slot is on exactly one list. *)
Theorem pool_partition_invariant `{Platform} :
  (∀ e s, (spdk_jsonrpc_server_listen e).1 = Some s → pool_inv s) ∧
  (∀ s, pool_inv s →
     ((length (free_conns s) + length (conns s) = SPDK_JSONRPC_MAX_CONNS)%nat ∧
      ∀ i, (i < SPDK_JSONRPC_MAX_CONNS)%nat →
           (i ∈ free_conns s ∧ i ∉ conns s) ∨ ((i ∉ free_conns s) ∧ i ∈ conns s)) ∧
     (∀ o rc s' tr, spdk_jsonrpc_server_accept o s = Some (rc, s', tr) → pool_inv s') ∧
     (∀ i c, conns_array s !! i = Some c →
        pool_inv (set_conns_array
                    (<[i := (spdk_jsonrpc_server_conn_close c).1]> (conns_array s)) s)) ∧
     (∀ i s' tr, i ∈ conns s →
        spdk_jsonrpc_server_conn_remove i s = Some (s', tr) → pool_inv s') ∧
     (∀ env rc s' tr, spdk_jsonrpc_server_poll env s = Some (rc, s', tr) → pool_inv s') ∧
     (∀ r, pool_inv (spdk_jsonrpc_server_send_response r s))).
Proof.
  split; [apply listen_pool_inv|]. intros s Hinv. split_and!.
  - by apply pool_inv_partition.
  - by apply pool_inv_partition.
  - intros o rc s' tr. by apply accept_pool_inv.
  - intros i c Hc. apply pool_inv_set_conns_array; [done|]. by rewrite length_insert.
  - intros i s' tr. by apply conn_remove_pool_inv.
  - intros env rc s' tr. by apply poll_pool_inv.
  - intros r. by apply send_response_pool_inv.
Qed.

Lemma sample_server_pool_inv : @pool_inv (line_platform 2 8) sample_server.
Proof. split; reflexivity. Qed.

Lemma pool_partition_invariant_witness :
  let P := line_platform 2 8 in
  ∃ s', spdk_jsonrpc_server_poll sample_env sample_server
        = Some (0, s', [EvFree (sample_request 1 two_frames) 0;
                        EvAccept 6; EvSetNonblock 6 true;
                        EvRecv 5 8 (-1); EvRecv 6 8 (-1)]) ∧
        free_conns s' = [] ∧ conns s' = [0; 1]%nat ∧ pool_inv s'.
Proof.
  intros P. eexists. split; [reflexivity|]. split; [reflexivity|]. split; [reflexivity|].
  destruct (@pool_partition_invariant P) as [_ Hkeep].
  destruct (Hkeep sample_server sample_server_pool_inv) as (_ & _ & _ & _ & Hpoll & _).
  eapply (Hpoll sample_env). reflexivity.
Defined.

Lemma sample_platform_ok : @platform_ok (line_platform 2 8).
Proof. apply line_platform_ok. split; [lia|reflexivity]. Qed.

Lemma sample_server_inv : @server_inv (line_platform 2 8) sample_server.
Proof.
  split; [apply sample_server_pool_inv|].
  repeat constructor; simpl; try lia; try reflexivity;
    unfold fd_inv, counter_inv; simpl; lia.
Qed.

(** C1: the counter never goes below zero and a slot is reaped only when
    its connection is quiescent.  From a well-formed server the poll step
    returns 0 after its three phases and the server is well formed again, so
    every counter is at least the number of requests its connection holds
    and hence not negative; no release in the step takes a counter below
    zero.  A slot that the first phase takes off the active list is on the
    free list afterwards, and its connection was closed before the step and
    is quiescent (closed, counter zero, queue empty, in-flight slot NULL);
    the other two phases take nothing off the active list.  Construction
    gives a well-formed server and a counted submission keeps it well formed;
    over a whole run in which the dispatcher keeps its contract no release
    takes a counter below zero. *)
Theorem counter_nonneg_and_reap_quiescent `{Platform}
    (env : poll_env) (s : spdk_jsonrpc_server) :
  platform_ok → server_inv s →
  (∃ s1 t1 s2 t2 s3 t3,
     poll_reap (conns s) s = Some (s1, t1) ∧
     poll_accept env s1 = Some (s2, t2) ∧
     poll_io env (conns s2) s2 = Some (s3, t3) ∧
     spdk_jsonrpc_server_poll env s = Some (0, s3, t1 ++ t2 ++ t3) ∧
     server_inv s3 ∧
     (∀ c, c ∈ conns_array s3 →
           0 ≤ Z.of_nat (length (held c)) ≤ outstanding_requests c) ∧
     Forall free_nonneg (t1 ++ t2 ++ t3) ∧
     (∀ j, j ∈ conns s → j ∉ conns s1 →
           j ∈ free_conns s1 ∧
           ∃ c c', conns_array s !! j = Some c ∧ closed c = true ∧
                   conns_array s1 !! j = Some c' ∧ quiescent c') ∧
     (∀ j, j ∈ conns s1 → j ∈ conns s2 ∧ j ∈ conns s3)) ∧
  (∀ e s0, (spdk_jsonrpc_server_listen e).1 = Some s0 → server_inv s0) ∧
  (∀ r, counted r s → server_inv (spdk_jsonrpc_server_send_response r s)) ∧
  (∀ acts, contract_kept acts s →
     ∃ s' tr, run_server acts s = Some (s', tr) ∧ server_inv s' ∧
              Forall free_nonneg tr).
Proof.
  intros Hplat Hinv. split_and!.
  - assert (Hnd : NoDup (conns s)).
    { destruct Hinv as [Hpool _]. pose proof (pool_inv_NoDup s Hpool) as Hnd.
      by apply NoDup_app in Hnd as (_ & _ & Hnd). }
    destruct (poll_ok env s Hplat Hinv)
      as (s1 & t1 & s2 & t2 & s3 & t3 & Hrun1 & Hrun2 & Hrun3 & Hrun & Hinv1 & Hinv2
          & Hinv3 & Htr).
    exists s1, t1, s2, t2, s3, t3. split_and!; try done.
    + intros c Hc. destruct Hinv3 as [_ Hall].
      rewrite Forall_forall in Hall. destruct (Hall c Hc) as (_ & _ & Hcnt & _).
      unfold counter_inv in Hcnt. lia.
    + apply Htr.
    + intros j Hj Hnj.
      destruct (poll_reap_ok (conns s) s Hnd ltac:(done) Hinv)
        as (s1' & t1' & Hrun1' & _ & _ & _ & _ & _ & _ & _ & Hreap).
      rewrite Hrun1 in Hrun1'. injection Hrun1' as <- <-.
      destruct (Hreap j Hj Hnj) as (_ & Hfr & c & c' & Hc & Hcl & Hc' & Hq & _).
      split; [done|]. by exists c, c'.
    + intros j Hj.
      destruct (poll_accept_ok env s1 Hinv1) as (s2' & t2' & Hrun2' & _ & _ & Hkeep).
      rewrite Hrun2 in Hrun2'. injection Hrun2' as <- <-.
      destruct (Hkeep j Hj) as [Hj2 _]. split; [done|].
      destruct (poll_io_ok env (conns s2) s2 Hplat Hinv2 ltac:(done))
        as (s3' & t3' & Hrun3' & _ & _ & _ & Hac & _).
      rewrite Hrun3 in Hrun3'. injection Hrun3' as <- <-. by rewrite Hac.
  - intros e s0. by apply listen_server_inv.
  - intros r. by apply send_response_server_inv.
  - intros acts Hkept.
    destruct (run_server_ok acts Hplat s Hinv Hkept) as (s' & tr & Hrun & Hinv' & Htr).
    exists s', tr. split_and!; try done. apply Htr.
Qed.

Lemma counter_nonneg_and_reap_quiescent_witness :
  let P := line_platform 2 8 in
  ∃ s1 t1,
    poll_reap (conns sample_server) sample_server = Some (s1, t1) ∧
    t1 = [EvFree (sample_request 1 two_frames) 0] ∧
    conns s1 = [0%nat] ∧ free_conns s1 = [1%nat] ∧
    ∃ c', conns_array s1 !! 1%nat = Some c' ∧ quiescent c'.
Proof.
  intros P.
  destruct (@counter_nonneg_and_reap_quiescent P sample_env sample_server
              sample_platform_ok sample_server_inv) as [Hpoll _].
  destruct Hpoll as (s1 & t1 & s2 & t2 & s3 & t3 & Hrun1 & _ & _ & _ & _ & _ & _ & Hreap & _).
  exists s1, t1. split; [exact Hrun1|].
  injection Hrun1 as <- <-. split; [reflexivity|]. split; [reflexivity|].
  split; [reflexivity|].
  destruct (Hreap 1%nat) as (_ & c & c' & _ & _ & Hc' & Hq).
  - simpl. apply elem_of_cons. right. apply elem_of_cons. by left.
  - simpl. intros Hin. apply elem_of_cons in Hin as [Heq|Hin]; [discriminate|].
    by apply elem_of_nil in Hin.
  - by exists c'.
Defined.
(** ** Closed connections *)

(** X14: once a connection is closed the poll step attempts no send and no
    receive on it.  In the second loop of the poll step a closed connection
    is skipped:
    no event, no change.  An open connection does its I/O on its own,
    non-negative descriptor, and if the step closes it the [close] is the
    last event of the connection in that step.  For the poll step as a
    whole, from a well-formed server: the first phase makes no system call;
    no system call of the step works on a negative descriptor, so none is
    made on the sentinel -1; a connection that was closed before the step is
    either reaped by the first phase or is still in its slot afterwards,
    closed, with descriptor -1, changed by nothing but the discarding of its
    responses; and every active connection of the second phase takes exactly
    the step [poll_io_conn].  The same holds in every later step, since the
    step leaves the server well formed: over a whole run of poll steps and
    submissions no system call works on a negative descriptor. *)
Theorem closed_connection_gets_no_io `{Platform}
    (env : poll_env) (s : spdk_jsonrpc_server) :
  platform_ok → server_inv s →
  (∀ c, closed c = true → poll_io_conn env c = Some (c, [])) ∧
  (∀ c, conn_ok c → closed c = false →
     ∃ c' tr,
       poll_io_conn env c = Some (c', tr) ∧ 0 ≤ sockfd c ∧
       ((closed c' = false ∧ sockfd c' = sockfd c ∧ Forall (io_event (sockfd c)) tr) ∨
        (closed c' = true ∧ sockfd c' = -1 ∧
         ∃ tr0, tr = tr0 ++ [EvClose (sockfd c)] ∧ Forall (io_event (sockfd c)) tr0))) ∧
  (∃ s1 t1 s2 t2 s3 t3,
     poll_reap (conns s) s = Some (s1, t1) ∧
     poll_accept env s1 = Some (s2, t2) ∧
     poll_io env (conns s2) s2 = Some (s3, t3) ∧
     spdk_jsonrpc_server_poll env s = Some (0, s3, t1 ++ t2 ++ t3) ∧
     server_inv s3 ∧
     Forall free_event t1 ∧
     Forall fd_valid (t1 ++ t2 ++ t3) ∧
     (∀ j c, j ∈ conns s → conns_array s !! j = Some c → closed c = true →
        (j ∉ conns s1) ∨
        (j ∈ conns s3 ∧
         conns_array s3 !! j = Some (discard_responses c).1 ∧
         closed (discard_responses c).1 = true ∧
         sockfd (discard_responses c).1 = -1 ∧
         same_recv_side c (discard_responses c).1)) ∧
     (∀ j, j ∈ conns s2 →
        ∃ c c' trj, conns_array s2 !! j = Some c ∧
                    poll_io_conn env c = Some (c', trj) ∧
                    conns_array s3 !! j = Some c')) ∧
  (∀ acts, contract_kept acts s →
     ∃ s' tr, run_server acts s = Some (s', tr) ∧ server_inv s' ∧ Forall fd_valid tr).
Proof.
  intros Hplat Hinv. split_and!.
  - intros c Hcl. unfold poll_io_conn. by rewrite Hcl.
  - intros c Hok Hcl.
    destruct (poll_io_conn_ok env c Hplat Hok) as (c' & tr & Hrun & _ & _ & _ & Hopen).
    exists c', tr. split_and!; [done| |by apply Hopen].
    destruct Hok as (_ & Hfd & _). unfold fd_inv in Hfd. by rewrite Hcl in Hfd.
  - assert (Hnd : NoDup (conns s)).
    { destruct Hinv as [Hpool _]. pose proof (pool_inv_NoDup s Hpool) as Hnd.
      by apply NoDup_app in Hnd as (_ & _ & Hnd). }
    destruct (poll_ok env s Hplat Hinv)
      as (s1 & t1 & s2 & t2 & s3 & t3 & Hrun1 & Hrun2 & Hrun3 & Hrun & Hinv1 & Hinv2
          & Hinv3 & Htr).
    destruct (poll_reap_ok (conns s) s Hnd ltac:(done) Hinv)
      as (s1' & t1' & Hrun1' & _ & Hev1 & _ & _ & _ & _ & Hslot1 & _).
    rewrite Hrun1 in Hrun1'. injection Hrun1' as <- <-.
    destruct (poll_accept_ok env s1 Hinv1) as (s2' & t2' & Hrun2' & _ & _ & Hkeep2).
    rewrite Hrun2 in Hrun2'. injection Hrun2' as <- <-.
    assert (Hnd2 : NoDup (conns s2)).
    { destruct Hinv2 as [Hpool _]. pose proof (pool_inv_NoDup s2 Hpool) as Hnd2.
      by apply NoDup_app in Hnd2 as (_ & _ & Hnd2). }
    destruct (poll_io_ok env (conns s2) s2 Hplat Hinv2 ltac:(done))
      as (s3' & t3' & Hrun3' & _ & _ & _ & Hac3 & _ & Hkeep3 & Heach3).
    rewrite Hrun3 in Hrun3'. injection Hrun3' as <- <-.
    exists s1, t1, s2, t2, s3, t3. split_and!; try done.
    + apply Htr.
    + intros j c Hj Hc Hcl.
      destruct (decide (j ∈ conns s1)) as [Hj1|Hj1]; [right|by left].
      destruct (Hkeep2 j Hj1) as [Hj2 Hsame2].
      pose proof (Hslot1 j c Hj Hc) as Hc1. rewrite Hcl in Hc1.
      destruct Hinv as [_ Hall]. pose proof (Forall_lookup_1 _ _ _ _ Hall Hc) as Hok.
      pose proof (discard_responses_ok c Hok) as Hd.
      destruct (discard_responses c) as [c2 ev]. simpl in *.
      destruct Hd as (Hok2 & _ & _ & Hsame & _).
      assert (Hcl2 : closed c2 = true) by (destruct Hsame as (_ & -> & _); done).
      split_and!; try done.
      * by rewrite Hac3.
      * apply Hkeep3; [|done]. by rewrite Hsame2.
      * destruct Hok2 as (_ & Hfd & _). unfold fd_inv in Hfd. by rewrite Hcl2 in Hfd.
    + intros j Hj. by apply Heach3.
  - intros acts Hkept.
    destruct (run_server_ok acts Hplat s Hinv Hkept) as (s' & tr & Hrun & Hinv' & Htr).
    exists s', tr. split_and!; try done. apply Htr.
Qed.

Lemma closed_connection_gets_no_io_witness :
  let P := line_platform 2 8 in
  ∃ s' tr, run_server abandoned_run listening_server = Some (s', tr) ∧
           server_inv s' ∧ Forall fd_valid tr.
Proof.
  intros P.
  assert (Hinv : server_inv listening_server).
  { apply (listen_server_inv sample_listen_env); [apply sample_platform_ok|reflexivity]. }
  destruct (@closed_connection_gets_no_io P sample_env listening_server
              sample_platform_ok Hinv) as (_ & _ & _ & Hrun).
  apply Hrun. simpl. split; [|exact I]. split; [repeat split; simpl; lia|].
  intros c [= <-]. simpl. lia.
Defined.

(** The run of the witness.  The third step closes the connection, which
    still counts one outstanding request; in the fourth step bytes and room
    are offered on every descriptor and the step makes no call but
    [accept]; the response submitted after it is released unsent by the
    last step, which reaps the slot. *)
Example abandoned_run_trace :
  let P := line_platform 2 8 in
  (run_server abandoned_run listening_server)
    ≫= (λ '(s', tr), Some (tr, free_conns s', conns s'))
  = Some ([EvAccept 5; EvSetNonblock 5 true; EvRecv 5 8 (-1);
           EvAccept (-1); EvRecv 5 8 2; EvDispatch [x61; x0a];
           EvAccept (-1); EvRecv 5 8 0; EvClose 5;
           EvAccept (-1);
           EvFree (sample_request 0 [x62; x0a]) 0; EvAccept (-1)],
          [0; 1]%nat, []).
Proof. reflexivity. Qed.

(** Three poll steps on [sample_server]: the draining connection of slot 1
    is reaped in the first step and the peer of descriptor 5 is closed; the
    second step reaps slot 0 and gives it to the peer on descriptor 6; the
    third step gives slot 1 to the peer on descriptor 7. *)
Example closed_connection_run_trace :
  let P := line_platform 2 8 in
  (run_server sample_run sample_server) ≫= (λ '(s', tr), Some (tr, free_conns s', conns s'))
  = Some ([EvFree (sample_request 1 two_frames) 0; EvAccept (-1);
           EvRecv 5 8 0; EvClose 5;
           EvAccept 6; EvSetNonblock 6 true; EvRecv 6 8 (-1);
           EvAccept 7; EvSetNonblock 7 true; EvRecv 6 8 (-1); EvRecv 7 8 (-1)],
          [], [0; 1]%nat).
Proof. reflexivity. Qed.

(** C10, where the code departs from it: [spdk_jsonrpc_server_shutdown]
    performs a socket operation on the sentinel -1.  The server is
    constructed, a peer connects on descriptor 5, sends one frame and shuts
    down; the poll steps close the connection, make no call on a negative
    descriptor and keep the slot active, closed, with descriptor -1, since
    one request is outstanding.  [spdk_jsonrpc_server_conn_close] on that
    connection would make no call, its guard [sockfd >= 0] is false;
    [spdk_jsonrpc_server_shutdown] calls [close(conn->sockfd)] for every
    active slot without that guard, here [close(-1)]. *)
Theorem shutdown_closes_sentinel :
  let P := line_platform 2 8 in
  ∃ s tr c,
    (spdk_jsonrpc_server_listen sample_listen_env).1 = Some listening_server ∧
    run_server (take 4 abandoned_run) listening_server = Some (s, tr) ∧
    Forall fd_valid tr ∧
    conns s = [0%nat] ∧ conns_array s !! 0%nat = Some c ∧
    closed c = true ∧ sockfd c = -1 ∧ outstanding_requests c = 1 ∧
    (spdk_jsonrpc_server_conn_close c).2 = [] ∧
    spdk_jsonrpc_server_shutdown s = [EvClose 3; EvClose (-1)] ∧
    ¬ Forall fd_valid (spdk_jsonrpc_server_shutdown s).
Proof.
  intros P. eexists _, _, _.
  split; [reflexivity|]. split; [vm_compute; reflexivity|].
  split; [repeat constructor; unfold fd_valid; simpl; lia|].
  split; [reflexivity|]. split; [reflexivity|].
  split_and!; try reflexivity.
  intros Hall. apply Forall_cons in Hall as [_ Hall]. apply Forall_cons in Hall as [Hbad _].
  unfold fd_valid in Hbad. simpl in Hbad. lia.
Qed.

(** ** A whole exchange *)

(** From construction to the answer on the wire: the frame is dispatched
    once, the response goes out in two partial sends and is released, and
    the dispatcher has kept its contract. *)
Example exchange_run :
  let P := line_platform 2 8 in
  ∃ s0 s' tr,
    (spdk_jsonrpc_server_listen sample_listen_env).1 = Some s0 ∧
    contract_kept sample_exchange s0 ∧
    run_server sample_exchange s0 = Some (s', tr) ∧
    tr = [EvAccept 5; EvSetNonblock 5 true; EvRecv 5 8 (-1);
          EvAccept (-1); EvRecv 5 8 2; EvDispatch [x61; x0a];
          EvAccept (-1); EvSend 5 [x62] 1; EvRecv 5 8 (-1);
          EvAccept (-1); EvSend 5 [x0a] 1;
          EvFree (set_cursor 2 0 (sample_request 0 [x62; x0a])) 0;
          EvRecv 5 8 (-1)] ∧
    dispatched tr = [[x61; x0a]] ∧ wire 5 tr = [x62; x0a] ∧
    free_conns s' = [1%nat] ∧ conns s' = [0%nat].
Proof.
  intros P. eexists _, _, _. split; [reflexivity|]. split.
  - simpl. split; [|exact I]. split; [repeat split; simpl; lia|].
    intros c [= <-]. simpl. lia.
  - repeat split.
Qed.

(** * Further properties of the code *)

(** ** Construction and accept *)

(** X1: [spdk_jsonrpc_server_listen] is all or nothing.  It returns a
    server exactly when [calloc], [socket], the [fcntl] to non-blocking
    mode, [bind] and [listen] all succeed; the server then owns the
    descriptor of [socket], has every slot on the free list in index order,
    none active, and has not closed the descriptor.  When it returns NULL
    after [socket] succeeded it has closed the descriptor; when [calloc] or
    [socket] failed it has made no call on any descriptor. *)
Theorem listen_all_or_nothing `{Platform} (e : listen_env) :
  (is_Some (spdk_jsonrpc_server_listen e).1 ↔
   calloc_ok e = true ∧ 0 ≤ socket_rc e ∧ listen_nonblock_ok e = true ∧
   bind_rc e = 0 ∧ listen_rc e = 0) ∧
  (∀ s, (spdk_jsonrpc_server_listen e).1 = Some s →
     srv_sockfd s = socket_rc e ∧
     free_conns s = seq 0 SPDK_JSONRPC_MAX_CONNS ∧ conns s = [] ∧
     conns_array s = replicate SPDK_JSONRPC_MAX_CONNS zero_conn ∧
     (spdk_jsonrpc_server_listen e).2 = [EvSetNonblock (socket_rc e) true]) ∧
  ((spdk_jsonrpc_server_listen e).1 = None →
     (calloc_ok e = true → 0 ≤ socket_rc e →
      ∃ ok, (spdk_jsonrpc_server_listen e).2
            = [EvSetNonblock (socket_rc e) ok; EvClose (socket_rc e)]) ∧
     (calloc_ok e = false ∨ socket_rc e < 0 → (spdk_jsonrpc_server_listen e).2 = [])).
Proof.
  unfold spdk_jsonrpc_server_listen.
  destruct (calloc_ok e) eqn:E0; simpl.
  2:{ split_and!; [|done|].
      - split; [by intros [? ?]|]. by intros (? & _).
      - intros _. split; [done|]. by intros _. }
  destruct (socket_rc e <? 0) eqn:E1; simpl.
  { split_and!; [|done|].
    - split; [by intros [? ?]|]. intros (_ & ? & _). lia.
    - intros _. split; [lia|done]. }
  destruct (listen_nonblock_ok e) eqn:E2; simpl.
  2:{ split_and!; [|done|].
      - split; [by intros [? ?]|]. by intros (_ & _ & ? & _).
      - intros _. split; [by eexists|]. intros [?|?]; [done|lia]. }
  destruct (bind_rc e =? 0) eqn:E3; simpl.
  2:{ split_and!; [|done|].
      - split; [by intros [? ?]|]. intros (_ & _ & _ & ? & _). lia.
      - intros _. split; [by eexists|]. intros [?|?]; [done|lia]. }
  destruct (listen_rc e =? 0) eqn:E4; simpl.
  2:{ split_and!; [|done|].
      - split; [by intros [? ?]|]. intros (_ & _ & _ & _ & ?). lia.
      - intros _. split; [by eexists|]. intros [?|?]; [done|lia]. }
  split_and!; [| |done].
  - split; [|done]. intros _. split_and!; [done|lia|done|lia|lia].
  - intros s [= <-]. simpl. split_and!; try done. by rewrite foldl_snoc.
Qed.

Lemma listen_all_or_nothing_witness :
  let P := line_platform 2 8 in
  ∃ s, (spdk_jsonrpc_server_listen sample_listen_env).1 = Some s ∧
       srv_sockfd s = 3 ∧ free_conns s = [0; 1]%nat ∧ conns s = [] ∧
       (spdk_jsonrpc_server_listen sample_listen_env).2 = [EvSetNonblock 3 true].
Proof.
  intros P.
  destruct (@listen_all_or_nothing P sample_listen_env) as (Hiff & Hsome & _).
  destruct (proj2 Hiff) as [s Hs]; [repeat split; simpl; lia|].
  exists s. split; [exact Hs|]. destruct (Hsome s Hs) as (? & ? & ? & _ & ?). by split_and!.
Defined.

(** A [bind] that fails: no server, and the descriptor of [socket] is
    closed again. *)
Example listen_bind_failure :
  let P := line_platform 2 8 in
  spdk_jsonrpc_server_listen
    {| calloc_ok := true; socket_rc := 3; listen_nonblock_ok := true;
       bind_rc := -1; listen_rc := 0 |}
  = (None, [EvSetNonblock 3 true; EvClose 3]).
Proof. reflexivity. Qed.

(** A successful accept on a server with a free slot. *)
Lemma accept_head_slot `{Platform} (fd i : nat) (fr : list nat) (s : spdk_jsonrpc_server) :
  pool_inv s → free_conns s = i :: fr →
  ∃ s' c',
    spdk_jsonrpc_server_accept (AcceptConn fd true) s
    = Some (0, s', [EvAccept (Z.of_nat fd); EvSetNonblock (Z.of_nat fd) true]) ∧
    free_conns s' = fr ∧ conns s' = conns s ++ [i] ∧ srv_sockfd s' = srv_sockfd s ∧
    conns_array s' !! i = Some c' ∧
    sockfd c' = Z.of_nat fd ∧ closed c' = false ∧
    filled c' = [] ∧ held c' = [] ∧ outstanding_requests c' = 0 ∧
    ∀ j, j ≠ i → conns_array s' !! j = conns_array s !! j.
Proof.
  intros Hinv Hfr.
  destruct (pool_inv_lookup s i Hinv) as [c Hc]; [rewrite Hfr; by left|].
  assert (Hi : (i < length (conns_array s))%nat) by by apply lookup_lt_Some in Hc.
  assert (Hni : i ∉ fr).
  { pose proof (pool_inv_NoDup s Hinv) as Hnd. rewrite Hfr in Hnd. simpl in Hnd.
    apply NoDup_cons in Hnd as [Hni _]. intros Hin. apply Hni, elem_of_app. by left. }
  unfold spdk_jsonrpc_server_accept, sys_accept, accept_nonblock_ok.
  assert (E : (0 <=? Z.of_nat fd) = true) by (apply Z.leb_le; lia).
  rewrite E, Hfr, Hc. simpl.
  eexists _, {| sockfd := Z.of_nat fd; closed := false; recv_len := 0;
                recv_buf := recv_buf c; outstanding_requests := 0;
                send_queue := []; send_request := None |}.
  split; [done|]. simpl. rewrite Hfr, tailq_remove_head by done.
  split_and!; try done.
  - by rewrite list_lookup_insert_eq.
  - intros j Hj. by rewrite list_lookup_insert_ne.
Qed.

(** X2: a successful [spdk_jsonrpc_server_accept] takes the slot at the
    head of the free list and appends it to the tail of the active list.
    The connection in the slot starts afresh on the accepted descriptor:
    open, nothing buffered, nothing held, counter zero, whatever the slot
    held before.  No other slot changes and the step returns 0. *)
Theorem accept_takes_head_slot `{Platform}
    (fd i : nat) (fr : list nat) (s : spdk_jsonrpc_server) :
  pool_inv s → free_conns s = i :: fr →
  ∃ s' c',
    spdk_jsonrpc_server_accept (AcceptConn fd true) s
    = Some (0, s', [EvAccept (Z.of_nat fd); EvSetNonblock (Z.of_nat fd) true]) ∧
    free_conns s' = fr ∧ conns s' = conns s ++ [i] ∧ srv_sockfd s' = srv_sockfd s ∧
    conns_array s' !! i = Some c' ∧
    sockfd c' = Z.of_nat fd ∧ closed c' = false ∧
    filled c' = [] ∧ held c' = [] ∧ outstanding_requests c' = 0 ∧
    ∀ j, j ≠ i → conns_array s' !! j = conns_array s !! j.
Proof. apply accept_head_slot. Qed.

Lemma idle_server_pool_inv : @pool_inv (line_platform 2 8) idle_server.
Proof. split; [reflexivity|]. simpl. apply Permutation_swap. Qed.

Lemma accept_takes_head_slot_witness :
  let P := line_platform 2 8 in
  ∃ s' c',
    spdk_jsonrpc_server_accept (AcceptConn 7 true) idle_server
    = Some (0, s', [EvAccept 7; EvSetNonblock 7 true]) ∧
    free_conns s' = [0%nat] ∧ conns s' = [1%nat] ∧ srv_sockfd s' = 3 ∧
    conns_array s' !! 1%nat = Some c' ∧
    sockfd c' = 7 ∧ closed c' = false ∧
    filled c' = [] ∧ held c' = [] ∧ outstanding_requests c' = 0 ∧
    ∀ j, j ≠ 1%nat → conns_array s' !! j = conns_array idle_server !! j.
Proof.
  intros P.
  apply (@accept_takes_head_slot P 7 1 [0%nat] idle_server idle_server_pool_inv eq_refl).
Defined.

(** X3: the failure paths of [spdk_jsonrpc_server_accept] leave both lists
    as they are.  A failure of [accept] that is not transient returns -1 and
    changes nothing.  When the accepted descriptor cannot be made
    non-blocking the step closes that descriptor and returns -1; the slot
    stays at the head of the free list and no active connection changes.
    With no free slot a successful [accept] trips the assertion: the caller
    must not call it then. *)
Theorem accept_failure_keeps_lists `{Platform} (s : spdk_jsonrpc_server) :
  (∀ e, transient e = false →
     spdk_jsonrpc_server_accept (AcceptFail e) s = Some (-1, s, [EvAccept (-1)])) ∧
  (∀ fd, pool_inv s → free_conns s ≠ [] →
     ∃ s', spdk_jsonrpc_server_accept (AcceptConn fd false) s
           = Some (-1, s', [EvAccept (Z.of_nat fd); EvSetNonblock (Z.of_nat fd) false;
                            EvClose (Z.of_nat fd)]) ∧
           free_conns s' = free_conns s ∧ conns s' = conns s ∧
           ∀ j, j ∈ conns s → conns_array s' !! j = conns_array s !! j) ∧
  (∀ fd ok, free_conns s = [] →
     spdk_jsonrpc_server_accept (AcceptConn fd ok) s = None).
Proof.
  split_and!.
  - intros e He. unfold spdk_jsonrpc_server_accept. simpl. by rewrite He.
  - intros fd Hinv Hne.
    destruct (free_conns s) as [|i fr] eqn:Hfr; [done|].
    destruct (pool_inv_lookup s i Hinv) as [c Hc]; [rewrite Hfr; by left|].
    unfold spdk_jsonrpc_server_accept, sys_accept, accept_nonblock_ok.
    assert (E : (0 <=? Z.of_nat fd) = true) by (apply Z.leb_le; lia).
    rewrite E, Hfr, Hc. simpl. eexists. split; [done|]. simpl. split_and!; try done.
    intros j Hj. rewrite list_lookup_insert_ne; [done|]. intros <-.
    pose proof (pool_inv_NoDup s Hinv) as Hnd. rewrite Hfr in Hnd. simpl in Hnd.
    apply NoDup_cons in Hnd as [Hni _]. apply Hni, elem_of_app. by right.
  - intros fd ok Hfr. unfold spdk_jsonrpc_server_accept, sys_accept.
    assert (E : (0 <=? Z.of_nat fd) = true) by (apply Z.leb_le; lia).
    by rewrite E, Hfr.
Qed.

Lemma accept_failure_keeps_lists_witness :
  let P := line_platform 2 8 in
  ∃ s', spdk_jsonrpc_server_accept (AcceptConn 7 false) idle_server
        = Some (-1, s', [EvAccept 7; EvSetNonblock 7 false; EvClose 7]) ∧
        free_conns s' = [1; 0]%nat ∧ conns s' = [] ∧
        ∀ j, j ∈ conns idle_server → conns_array s' !! j = conns_array idle_server !! j.
Proof.
  intros P.
  destruct (@accept_failure_keeps_lists P idle_server) as (_ & Hfail & _).
  apply (Hfail 7%nat idle_server_pool_inv). discriminate.
Defined.

(** ** Reaping *)

(** X4: slots are reused last in, first out.  [conn_remove] puts the slot
    at the head of the free list and [accept] takes the head, so a
    connection accepted right after a removal gets the slot just removed,
    which moves to the tail of the active list. *)
Theorem removed_slot_is_reused_first `{Platform}
    (fd i : nat) (c : spdk_jsonrpc_server_conn) (s : spdk_jsonrpc_server) :
  pool_inv s → i ∈ conns s → conns_array s !! i = Some c → send_queue c = [] →
  ∃ s1 tr1 s2 c',
    spdk_jsonrpc_server_conn_remove i s = Some (s1, tr1) ∧
    free_conns s1 = i :: free_conns s ∧ conns s1 = tailq_remove i (conns s) ∧
    spdk_jsonrpc_server_accept (AcceptConn fd true) s1
    = Some (0, s2, [EvAccept (Z.of_nat fd); EvSetNonblock (Z.of_nat fd) true]) ∧
    free_conns s2 = free_conns s ∧ conns s2 = tailq_remove i (conns s) ++ [i] ∧
    conns_array s2 !! i = Some c' ∧ sockfd c' = Z.of_nat fd ∧ closed c' = false.
Proof.
  intros Hinv Hin Hc Hq.
  destruct (spdk_jsonrpc_server_conn_remove i s) as [[s1 tr1]|] eqn:Hrm.
  2:{ unfold spdk_jsonrpc_server_conn_remove in Hrm. rewrite Hc in Hrm. simpl in Hrm.
      unfold spdk_jsonrpc_server_conn_close in Hrm. simpl in Hrm.
      destruct (0 <=? sockfd c); simpl in Hrm; by rewrite Hq in Hrm. }
  pose proof (conn_remove_pool_inv i s s1 tr1 Hinv Hin Hrm) as Hinv1.
  assert (Hlists : free_conns s1 = i :: free_conns s ∧ conns s1 = tailq_remove i (conns s)).
  { unfold spdk_jsonrpc_server_conn_remove in Hrm. rewrite Hc in Hrm. simpl in Hrm.
    destruct (spdk_jsonrpc_server_conn_close c) as [c1 ev].
    destruct (send_queue c1); [|done]. by injection Hrm as <- _. }
  destruct Hlists as [Hfr1 Hac1].
  destruct (accept_head_slot fd i (free_conns s) s1 Hinv1 Hfr1)
    as (s2 & c' & Hacc & Hfr2 & Hac2 & _ & Hc' & Hfd & Hcl & _).
  exists s1, tr1, s2, c'. split_and!; try done. by rewrite Hac2, Hac1.
Qed.

Lemma removed_slot_is_reused_first_witness :
  let P := line_platform 2 8 in
  ∃ s1 tr1 s2 c',
    spdk_jsonrpc_server_conn_remove 0 sample_server = Some (s1, tr1) ∧
    free_conns s1 = [0%nat] ∧ conns s1 = [1%nat] ∧
    spdk_jsonrpc_server_accept (AcceptConn 9 true) s1
    = Some (0, s2, [EvAccept 9; EvSetNonblock 9 true]) ∧
    free_conns s2 = [] ∧ conns s2 = [1; 0]%nat ∧
    conns_array s2 !! 0%nat = Some c' ∧ sockfd c' = 9 ∧ closed c' = false.
Proof.
  intros P.
  apply (@removed_slot_is_reused_first P 9 0 sample_conn sample_server
           sample_server_pool_inv); [|reflexivity|reflexivity].
  apply elem_of_cons. by left.
Defined.

(** X5: the first loop of the poll step waits for the outstanding
    requests.  An open connection is left alone.  For a closed connection
    every held response is released without being sent, which lowers the
    counter by the number of responses held; the slot goes back to the head
    of the free list exactly when the counter has thereby reached zero, and
    otherwise stays on the active list, closed and with nothing held, until
    the dispatcher has submitted the remaining responses. *)
Theorem reap_waits_for_outstanding `{Platform}
    (i : nat) (c : spdk_jsonrpc_server_conn) (s : spdk_jsonrpc_server) :
  server_inv s → i ∈ conns s → conns_array s !! i = Some c →
  (closed c = false → poll_reap_conn i s = Some (s, [])) ∧
  (closed c = true →
   ∃ s' c' tr,
     poll_reap_conn i s = Some (s', tr) ∧
     released tr = held c ∧ Forall free_event tr ∧
     conns_array s' !! i = Some c' ∧ closed c' = true ∧ held c' = [] ∧
     outstanding_requests c' = outstanding_requests c - Z.of_nat (length (held c)) ∧
     if decide (outstanding_requests c = Z.of_nat (length (held c)))
     then free_conns s' = i :: free_conns s ∧ conns s' = tailq_remove i (conns s)
     else free_conns s' = free_conns s ∧ conns s' = conns s).
Proof.
  intros Hinv Hin Hc.
  assert (Hi : (i < length (conns_array s))%nat) by by apply lookup_lt_Some in Hc.
  assert (Hok : conn_ok c).
  { destruct Hinv as [_ Hall]. by eapply Forall_lookup_1. }
  unfold poll_reap_conn. rewrite Hc. simpl. split.
  { by intros ->. }
  intros Hcl. rewrite Hcl.
  pose proof (discard_responses_ok c Hok) as Hd.
  destruct (discard_responses c) as [c2 ev].
  destruct Hd as (Hok2 & Hq2 & Hr2 & (Hs1 & Hs2 & _) & Hev & _ & Hrel & Hout).
  assert (Hheld2 : held c2 = []) by (unfold held; by rewrite Hr2, Hq2).
  destruct (outstanding_requests c2 =? 0) eqn:E0.
  - unfold spdk_jsonrpc_server_conn_remove. simpl.
    rewrite list_lookup_insert_eq by done. simpl.
    pose proof (conn_close_ok c2 Hok2) as Hclose.
    destruct (spdk_jsonrpc_server_conn_close c2) as [c3 ev3].
    destruct Hclose as (_ & _ & _ & _ & _ & _ & Hsame).
    destruct (Hsame ltac:(congruence)) as [-> ->].
    rewrite Hq2. simpl. eexists _, c2, _. split; [done|]. simpl.
    rewrite app_nil_r. rewrite decide_True by lia. split_and!; try done; [|congruence].
    rewrite list_lookup_insert_eq; [done|]. by rewrite length_insert.
  - eexists _, c2, _. split; [done|]. simpl.
    rewrite decide_False by lia. split_and!; try done; [|congruence].
    by rewrite list_lookup_insert_eq.
Qed.

Lemma reap_waits_for_outstanding_witness :
  let P := line_platform 2 8 in
  ∃ s' c' tr,
    poll_reap_conn 1 sample_server = Some (s', tr) ∧
    released tr = [sample_request 1 two_frames] ∧ Forall free_event tr ∧
    conns_array s' !! 1%nat = Some c' ∧ closed c' = true ∧ held c' = [] ∧
    outstanding_requests c' = 0 ∧
    free_conns s' = [1%nat] ∧ conns s' = [0%nat].
Proof.
  intros P.
  destruct (@reap_waits_for_outstanding P 1 draining_conn sample_server sample_server_inv)
    as [_ Hclosed]; [|reflexivity|].
  { apply elem_of_cons. right. apply elem_of_cons. by left. }
  destruct (Hclosed eq_refl) as (s' & c' & tr & Hrun & Hrel & Hev & Hc' & Hcl & Hh & Ho & Hl).
  exists s', c', tr. split; [exact Hrun|]. split; [exact Hrel|]. split; [exact Hev|].
  split; [exact Hc'|]. split; [exact Hcl|]. split; [exact Hh|]. split; [exact Ho|].
  exact Hl.
Defined.

(** ** Errors on a connection *)

(** X6: a [send] error that is not transient ends the work on the
    connection for this poll step: the send step returns -1, the poll step
    closes the descriptor and does not attempt the receive.  The responses
    of length zero ahead of the first response with bytes were released on
    the way to the [send], each lowering the counter by one.  The response
    whose [send] failed is not released and its cursor is unchanged; the
    connection keeps it, the responses behind it and the counter that is
    left, until the first loop of a later poll step discards them. *)
Theorem fatal_send_closes_without_recv `{Platform}
    (env : poll_env) (c : spdk_jsonrpc_server_conn)
    (zs : list spdk_jsonrpc_request)
    (r : spdk_jsonrpc_request) (rest : list spdk_jsonrpc_request) (e : errno) :
  closed c = false → 0 ≤ sockfd c →
  held c = zs ++ r :: rest → Forall (λ z, send_len z = 0) zs → 0 < send_len r →
  ¬ (0 ≤ outstanding_requests c ≤ Z.of_nat (length zs)) →
  hd (SendFail EAGAIN) (env_send env (sockfd c)) = SendFail e → transient e = false →
  ∃ c',
    poll_io_conn env c
    = Some (c', release_events (outstanding_requests c) zs
                ++ [EvSend (sockfd c) [] (-1); EvClose (sockfd c)]) ∧
    closed c' = true ∧ sockfd c' = -1 ∧
    held c' = r :: rest ∧
    outstanding_requests c' = outstanding_requests c - Z.of_nat (length zs) ∧
    recv_len c' = recv_len c ∧ recv_buf c' = recv_buf c.
Proof.
  intros Hopen Hfd Hheld Hz Hlen Hcnt Hhd He.
  destruct (conn_send_first_fail _ c zs r rest e Hhd Hheld Hz Hlen Hcnt)
    as (c1 & Hsend & Hr1 & Hq1 & (Hs1 & Hs2 & Hs3 & Hs4) & Ho1 & _).
  unfold poll_io_conn. rewrite Hopen, Hsend, He. simpl.
  unfold spdk_jsonrpc_server_conn_close. simpl. rewrite Hs1.
  assert (E : (0 <=? sockfd c) = true) by (apply Z.leb_le; lia).
  rewrite E. eexists. split; [by rewrite <- app_assoc|]. simpl. split_and!; try done.
  unfold held. simpl. by rewrite Hr1, Hq1.
Qed.

Lemma fatal_send_closes_without_recv_witness :
  let P := line_platform 2 8 in
  let env := uniform_env (AcceptFail EAGAIN) [SendFail EPIPE] (RecvData two_frames) in
  let c := set_outstanding_requests 2
             (set_send_queue [sample_request 0 []; sample_request 0 two_frames]
                sample_conn) in
  ∃ c',
    poll_io_conn env c
    = Some (c', [EvFree (sample_request 0 []) 1; EvSend 5 [] (-1); EvClose 5]) ∧
    closed c' = true ∧ sockfd c' = -1 ∧
    held c' = [sample_request 0 two_frames] ∧ outstanding_requests c' = 1 ∧
    recv_len c' = 0 ∧ recv_buf c' = recv_buf c.
Proof.
  intros P env c.
  apply (@fatal_send_closes_without_recv P env c
           [sample_request 0 []] (sample_request 0 two_frames) [] EPIPE).
  - reflexivity.
  - simpl. lia.
  - reflexivity.
  - repeat constructor.
  - reflexivity.
  - simpl. lia.
  - reflexivity.
  - reflexivity.
Defined.

(** X7: the ways a receive step fails.  With the parser keeping its
    contract the step returns 0 or -1, and -1 in exactly three cases: a
    [recv] error that is not transient, a read that delivers no byte, and a
    buffer the parser finds malformed.  When [recv] fails or delivers no
    byte the step consists of that one call: the parser is not run and the
    connection is exactly as it was. *)
Theorem conn_recv_failure_cases `{Platform}
    (o : recv_offer) (c : spdk_jsonrpc_server_conn) :
  platform_ok → recv_inv c →
  let avail := Z.to_nat (SPDK_JSONRPC_RECV_BUF_SIZE - recv_len c) in
  ∃ rc c' tr,
    spdk_jsonrpc_server_conn_recv o c = Some (rc, c', tr) ∧
    (rc = 0 ∨ rc = -1) ∧
    (rc = -1 ↔
       (∃ e, o = RecvFail e ∧ transient e = false) ∨
       (∃ data, o = RecvData data ∧
                (take avail data = [] ∨ parse (filled c ++ take avail data) = Malformed))) ∧
    ((∃ e, o = RecvFail e) ∨ (∃ data, o = RecvData data ∧ take avail data = []) →
       c' = c ∧
       tr = [EvRecv (sockfd c) (SPDK_JSONRPC_RECV_BUF_SIZE - recv_len c)
               (match o with RecvFail _ => -1 | RecvData _ => 0 end)]).
Proof.
  intros Hok Hinv avail.
  pose proof (conn_recv_spec o c Hok Hinv) as Hspec. simpl in Hspec. fold avail in Hspec.
  destruct o as [data|e].
  - case_decide as Hgot.
    + rewrite Hgot in Hspec. simpl in Hspec.
      eexists _, _, _. split; [exact Hspec|]. split_and!; [by right| |done].
      split; [|done]. intros _. right. exists data. split; [done|by left].
    + destruct Hspec as (c' & _ & Hsame & Hcase).
      assert (Hno : (∃ e, RecvData data = RecvFail e) ∨
                    (∃ d, RecvData data = RecvData d ∧ take avail d = []) → False).
      { intros [(e & ?)|(d & [= <-] & ?)]; done. }
      destruct (parse _) as [|n|] eqn:Hp; destruct Hcase as (Hrun & _ & Ho);
        eexists _, _, _; (split; [exact Hrun|]).
      * split_and!; [by left| |by intros ?%Hno]. split; [done|].
        intros [(e & ? & _)|(d & [= <-] & [?|?])]; [done|done|congruence].
      * split_and!; [by left| |by intros ?%Hno]. split; [done|].
        intros [(e & ? & _)|(d & [= <-] & [?|?])]; [done|done|congruence].
      * split_and!; [by right| |by intros ?%Hno]. split; [|done].
        intros _. right. exists data. split; [done|by right].
  - destruct (transient e) eqn:He; eexists _, _, _; (split; [exact Hspec|]).
    + split_and!; [by left| |done]. split; [done|].
      intros [(e' & [= <-] & ?)|(d & ? & _)]; [congruence|done].
    + split_and!; [by right| |done]. split; [|done].
      intros _. left. by exists e.
Qed.

Lemma conn_recv_failure_cases_witness :
  let P := line_platform 2 8 in
  (∃ c' tr,
     spdk_jsonrpc_server_conn_recv (RecvData [xff; x0a]) sample_conn = Some (-1, c', tr)) ∧
  spdk_jsonrpc_server_conn_recv (RecvData []) sample_conn
  = Some (-1, sample_conn, [EvRecv 5 8 0]).
Proof.
  intros P. split.
  - destruct (@conn_recv_failure_cases P (RecvData [xff; x0a]) sample_conn
                sample_platform_ok sample_recv_inv)
      as (rc & c' & tr & Hrun & _ & Hiff & _).
    assert (Hrc : rc = -1).
    { apply Hiff. right. exists [xff; x0a]. split; [reflexivity|]. right. reflexivity. }
    exists c', tr. rewrite <- Hrc. exact Hrun.
  - destruct (@conn_recv_failure_cases P (RecvData []) sample_conn
                sample_platform_ok sample_recv_inv)
      as (rc & c' & tr & Hrun & _ & Hiff & Hsame).
    assert (Hrc : rc = -1).
    { apply Hiff. right. exists []. split; [reflexivity|]. left. reflexivity. }
    destruct Hsame as [-> ->]; [right; by exists []|].
    rewrite <- Hrc. exact Hrun.
Defined.

(** X8: a frame split across two reads is dispatched once, after the
    second.  When the bytes of the first read leave the buffer without a
    complete frame the step dispatches nothing and keeps them; the second
    read is stored behind them, the parser sees the bytes of both reads
    together, and the frame it finds there is dispatched and taken out of
    the buffer. *)
Theorem frame_split_across_reads `{Platform}
    (c : spdk_jsonrpc_server_conn) (data1 data2 : list byte) (n : Z) :
  platform_ok → recv_inv c →
  data1 ≠ [] → data2 ≠ [] →
  Z.of_nat (length data1 + length data2) ≤ SPDK_JSONRPC_RECV_BUF_SIZE - recv_len c →
  parse (filled c ++ data1) = NoFrame →
  parse (filled c ++ data1 ++ data2) = Consumed n →
  ∃ c1 c2,
    spdk_jsonrpc_server_conn_recv (RecvData data1) c
    = Some (0, c1, [EvRecv (sockfd c) (SPDK_JSONRPC_RECV_BUF_SIZE - recv_len c)
                      (Z.of_nat (length data1))]) ∧
    filled c1 = filled c ++ data1 ∧
    outstanding_requests c1 = outstanding_requests c ∧
    spdk_jsonrpc_server_conn_recv (RecvData data2) c1
    = Some (0, c2,
            [EvRecv (sockfd c)
               (SPDK_JSONRPC_RECV_BUF_SIZE - recv_len c - Z.of_nat (length data1))
               (Z.of_nat (length data2));
             EvDispatch (take (Z.to_nat n) (filled c ++ data1 ++ data2))]) ∧
    filled c2 = drop (Z.to_nat n) (filled c ++ data1 ++ data2) ∧
    outstanding_requests c2 = outstanding_requests c + 1.
Proof.
  intros Hok Hinv Hne1 Hne2 Hroom Hp1 Hp2.
  rewrite Nat2Z.inj_add in Hroom.
  pose proof (conn_recv_spec (RecvData data1) c Hok Hinv) as Hs1. simpl in Hs1.
  rewrite take_ge in Hs1 by lia. rewrite decide_False in Hs1 by done.
  destruct Hs1 as (c1 & Hinv1 & (Hfd1 & _) & Hcase1). rewrite Hp1 in Hcase1.
  destruct Hcase1 as (Hrun1 & Hfill1 & Ho1).
  assert (Hlen1 : recv_len c1 = recv_len c + Z.of_nat (length data1)).
  { apply (f_equal length) in Hfill1. unfold filled in Hfill1.
    rewrite length_app, !length_take in Hfill1.
    destruct Hinv as [[? ?] ?]. destruct Hinv1 as [[? ?] ?]. lia. }
  pose proof (conn_recv_spec (RecvData data2) c1 Hok Hinv1) as Hs2. simpl in Hs2.
  rewrite take_ge in Hs2 by lia. rewrite decide_False in Hs2 by done.
  destruct Hs2 as (c2 & _ & _ & Hcase2).
  rewrite Hfill1, <- app_assoc, Hp2 in Hcase2.
  destruct Hcase2 as (Hrun2 & Hfill2 & Ho2).
  exists c1, c2. split_and!; try done.
  - rewrite Hrun2, Hfd1, Hlen1.
    by replace (SPDK_JSONRPC_RECV_BUF_SIZE - (recv_len c + Z.of_nat (length data1)))
      with (SPDK_JSONRPC_RECV_BUF_SIZE - recv_len c - Z.of_nat (length data1)) by lia.
  - lia.
Qed.

Lemma frame_split_across_reads_witness :
  let P := line_platform 2 8 in
  ∃ c1 c2,
    spdk_jsonrpc_server_conn_recv (RecvData [x61; x62]) sample_conn
    = Some (0, c1, [EvRecv 5 8 2]) ∧
    filled c1 = [x61; x62] ∧ outstanding_requests c1 = 0 ∧
    spdk_jsonrpc_server_conn_recv (RecvData [x63; x0a; x64]) c1
    = Some (0, c2, [EvRecv 5 6 3; EvDispatch [x61; x62; x63; x0a]]) ∧
    filled c2 = [x64] ∧ outstanding_requests c2 = 1.
Proof.
  intros P.
  apply (@frame_split_across_reads P sample_conn [x61; x62] [x63; x0a; x64] 4
           sample_platform_ok sample_recv_inv); done.
Defined.

(** ** Draining the queue in one step *)

(** X9: with room on the transport one send step drains the connection.
    When every [send] of the step takes the whole response it is given, the
    step sends every held response, the in-flight one first and then the
    queue in order, releases each of them (a response of length zero is
    released without a [send]), lowers the counter by their number, and
    returns 0 with nothing held. *)
Theorem conn_send_drains_queue (m : Z) (offers : list send_offer)
    (c : spdk_jsonrpc_server_conn) :
  Forall wf_request (held c) →
  Forall (λ r, Z.of_nat (length (send_window r)) = send_len r ∧ send_len r ≤ m) (held c) →
  counter_inv c →
  Forall (λ o, ∃ k, o = SendRoom k ∧ m ≤ Z.of_nat k) offers →
  (length (held c) ≤ length offers)%nat →
  ∃ c' tr,
    spdk_jsonrpc_server_conn_send offers c = Some (0, c', tr) ∧
    held c' = [] ∧ same_recv_side c c' ∧
    wire (sockfd c) tr = pending_bytes c ∧
    length (released tr) = length (held c) ∧
    outstanding_requests c' = outstanding_requests c - Z.of_nat (length (held c)).
Proof.
  intros Hwf Hwin Hcnt Hroom Hoff.
  apply (conn_send_loop_drains m (held c)); try done.
  unfold held. rewrite length_app. destruct (send_request c); simpl; lia.
Qed.

Lemma conn_send_drains_queue_witness :
  ∃ c' tr,
    spdk_jsonrpc_server_conn_send [SendRoom 4; SendRoom 4; SendRoom 4]
      (set_send_queue [resp_A; resp_B; resp_C] busy_conn) = Some (0, c', tr) ∧
    held c' = [] ∧
    wire 5 tr = [x41; x41; x41; x42; x42; x43] ∧
    length (released tr) = 3%nat ∧ outstanding_requests c' = 0.
Proof.
  destruct (conn_send_drains_queue 4 [SendRoom 4; SendRoom 4; SendRoom 4]
              (set_send_queue [resp_A; resp_B; resp_C] busy_conn))
    as (c' & tr & Hrun & Hh & _ & Hw & Hrel & Ho).
  - repeat constructor; simpl; lia.
  - repeat constructor; simpl; lia.
  - unfold counter_inv. simpl. lia.
  - repeat constructor; eexists; (split; [reflexivity|simpl; lia]).
  - simpl. lia.
  - exists c', tr. split; [exact Hrun|]. split; [exact Hh|]. split; [exact Hw|].
    split; [exact Hrel|exact Ho].
Defined.

(** ** The poll step and the listening socket *)

Lemma accept_calls_app tr1 tr2 :
  accept_calls (tr1 ++ tr2) = accept_calls tr1 ++ accept_calls tr2.
Proof.
  induction tr1 as [|e tr1 IH]; [done|].
  destruct e; simpl; try done. by rewrite IH.
Qed.

Lemma accept_calls_free tr : Forall free_event tr → accept_calls tr = [].
Proof. induction 1 as [|e tr He _ IH]; [done|]. by destruct e. Qed.

Lemma accept_calls_io fd tr : Forall (io_event fd) tr → accept_calls tr = [].
Proof.
  induction 1 as [|e tr He _ IH]; [done|]. destruct e; try done.
  by destruct He.
Qed.

Section PollAccept.
Context `{Platform}.

Lemma poll_io_conn_accept_calls env c c' tr :
  platform_ok → conn_ok c → poll_io_conn env c = Some (c', tr) → accept_calls tr = [].
Proof.
  intros Hplat Hok Hrun.
  destruct (poll_io_conn_ok env c Hplat Hok) as (c2 & tr2 & Hrun2 & _ & _ & Hclosed & Hopen).
  rewrite Hrun in Hrun2. injection Hrun2 as <- <-.
  destruct (closed c) eqn:Hcl.
  - by destruct (Hclosed eq_refl) as [_ ->].
  - destruct (Hopen eq_refl) as [(_ & _ & Hio)|(_ & _ & tr0 & -> & Hio)].
    + by eapply accept_calls_io.
    + rewrite accept_calls_app, (accept_calls_io _ _ Hio). done.
Qed.

Lemma poll_io_accept_calls env l s s' tr :
  platform_ok → server_inv s → (∀ i, i ∈ l → i ∈ conns s) →
  poll_io env l s = Some (s', tr) → accept_calls tr = [].
Proof.
  intros Hplat. revert s tr. induction l as [|i l IH]; intros s tr Hinv Hsub; simpl.
  { by intros [= _ <-]. }
  destruct (server_inv_lookup s i Hinv) as (c & Hc & Hok).
  { apply elem_of_app. right. apply Hsub. by left. }
  rewrite Hc. simpl.
  destruct (poll_io_conn_ok env c Hplat Hok) as (c' & e1 & Hstep & Hok' & _).
  rewrite Hstep. simpl.
  destruct (poll_io env l _) as [[s2 e2]|] eqn:Hrun; [|done]. simpl.
  intros [= <- <-]. rewrite accept_calls_app.
  rewrite (poll_io_conn_accept_calls env c c' e1 Hplat Hok Hstep).
  eapply (IH _ _ (server_inv_insert s i c' Hinv Hok')); [|done].
  intros j Hj. apply Hsub. by right.
Qed.

Lemma poll_accept_accept_calls env s s' tr :
  poll_accept env s = Some (s', tr) →
  accept_calls tr
  = match free_conns s with [] => [] | _ :: _ => [sys_accept (env_accept env)] end.
Proof.
  unfold poll_accept. destruct (free_conns s) as [|i fr] eqn:Hfr; [by intros [= _ <-]|].
  unfold spdk_jsonrpc_server_accept. rewrite Hfr.
  destruct (0 <=? sys_accept (env_accept env)).
  - destruct (conns_array s !! i); [|done]. simpl.
    destruct (accept_nonblock_ok _); by intros [= _ <-].
  - destruct (transient _); by intros [= _ <-].
Qed.

End PollAccept.

(** X10: a poll step calls [accept] at most once, and only when a slot is
    free after the first loop has reaped.  From a well-formed server the
    step makes exactly one [accept] call when the free list is not empty
    after reaping, in particular whenever it was not empty before the step,
    and none when the pool is exhausted: with every slot active and open
    the listening socket is not touched, so further peers wait in its
    backlog. *)
Theorem poll_accepts_at_most_once `{Platform} (env : poll_env) (s : spdk_jsonrpc_server) :
  platform_ok → server_inv s →
  ∃ s1 t1 s' tr,
    poll_reap (conns s) s = Some (s1, t1) ∧
    spdk_jsonrpc_server_poll env s = Some (0, s', tr) ∧
    accept_calls tr
    = match free_conns s1 with [] => [] | _ :: _ => [sys_accept (env_accept env)] end ∧
    (free_conns s ≠ [] → accept_calls tr = [sys_accept (env_accept env)]) ∧
    (free_conns s = [] →
     (∀ j c, j ∈ conns s → conns_array s !! j = Some c → closed c = false) →
     accept_calls tr = []).
Proof.
  intros Hplat Hinv.
  assert (Hnd : NoDup (conns s)).
  { destruct Hinv as [Hpool _]. pose proof (pool_inv_NoDup s Hpool) as Hnd.
    by apply NoDup_app in Hnd as (_ & _ & Hnd). }
  destruct (poll_ok env s Hplat Hinv)
    as (s1 & t1 & s2 & t2 & s3 & t3 & Hrun1 & Hrun2 & Hrun3 & Hrun & Hinv1 & Hinv2 & _).
  destruct (poll_reap_ok (conns s) s Hnd ltac:(done) Hinv)
    as (s1' & t1' & Hrun1' & _ & Hev1 & _ & Hback & Hfr & _ & _ & Hreap).
  rewrite Hrun1 in Hrun1'. injection Hrun1' as <- <-.
  assert (Hcalls : accept_calls (t1 ++ t2 ++ t3)
                   = match free_conns s1 with
                     | [] => [] | _ :: _ => [sys_accept (env_accept env)] end).
  { rewrite !accept_calls_app, (accept_calls_free _ Hev1).
    rewrite (poll_accept_accept_calls env s1 s2 t2 Hrun2).
    rewrite (poll_io_accept_calls env (conns s2) s2 s3 t3 Hplat Hinv2 ltac:(done) Hrun3).
    by rewrite app_nil_r. }
  exists s1, t1, s3, (t1 ++ t2 ++ t3). split_and!; try done.
  - intros Hne. rewrite Hcalls.
    destruct (free_conns s) as [|i fr] eqn:Hfree; [done|].
    destruct (free_conns s1) as [|i1 fr1] eqn:Hfree1; [|done].
    specialize (Hfr i ltac:(left)). by apply elem_of_nil in Hfr.
  - intros Hnone Hopen. rewrite Hcalls.
    assert (Hsame : conns s1 ≡ₚ conns s).
    { apply NoDup_Permutation; [|done|].
      - destruct Hinv1 as [Hpool1 _]. pose proof (pool_inv_NoDup s1 Hpool1) as Hnd1.
        by apply NoDup_app in Hnd1 as (_ & _ & Hnd1).
      - intros j. split; [apply Hback|]. intros Hj.
        destruct (decide (j ∈ conns s1)) as [|Hnj]; [done|].
        destruct (Hreap j Hj Hnj) as (_ & _ & c & c' & Hc & Hcl & _).
        by rewrite (Hopen j c Hj Hc) in Hcl. }
    destruct Hinv as [Hpool _]. destruct Hinv1 as [Hpool1 _].
    destruct (pool_inv_partition s Hpool) as [Hn _].
    destruct (pool_inv_partition s1 Hpool1) as [Hn1 _].
    rewrite Hnone in Hn. rewrite Hsame in Hn1. simpl in Hn.
    destruct (free_conns s1); [done|]. simpl in Hn1. lia.
Qed.

Lemma poll_accepts_at_most_once_witness :
  let P := line_platform 2 8 in
  ∃ s1 t1 s' tr,
    poll_reap (conns sample_server) sample_server = Some (s1, t1) ∧
    spdk_jsonrpc_server_poll sample_env sample_server = Some (0, s', tr) ∧
    accept_calls tr
    = match free_conns s1 with [] => [] | _ :: _ => [sys_accept (env_accept sample_env)] end.
Proof.
  intros P.
  destruct (@poll_accepts_at_most_once P sample_env sample_server
              sample_platform_ok sample_server_inv)
    as (s1 & t1 & s' & tr & Hrun1 & Hrun & Hcalls & _).
  exists s1, t1, s', tr. split; [exact Hrun1|]. split; [exact Hrun|exact Hcalls].
Defined.

(** ** Shutdown *)

(** X11: [spdk_jsonrpc_server_shutdown] closes the listening descriptor
    and then makes one [close] call for every active slot, in list order,
    and none for a free slot.  It looks neither at the closed flag nor at
    the descriptor: for an open connection it closes the connection's
    descriptor, and for a connection that is closed but not yet reaped it
    calls [close] on the sentinel -1. *)
Theorem shutdown_closes_active_slots `{Platform} (s : spdk_jsonrpc_server) :
  server_inv s →
  ∃ cs,
    Forall2 (λ i c, conns_array s !! i = Some c) (conns s) cs ∧
    spdk_jsonrpc_server_shutdown s
    = EvClose (srv_sockfd s) ::
      map (λ c, EvClose (if closed c then -1 else sockfd c)) cs ∧
    length (spdk_jsonrpc_server_shutdown s) = S (length (conns s)) ∧
    Forall (λ c, closed c = false → 0 ≤ sockfd c) cs.
Proof.
  intros Hinv. unfold spdk_jsonrpc_server_shutdown.
  assert (Hgen : ∀ l,
            (∀ i, i ∈ l → ∃ c, conns_array s !! i = Some c ∧ conn_ok c) →
            ∃ cs, Forall2 (λ i c, conns_array s !! i = Some c) l cs ∧
                  omap (λ i, c ← conns_array s !! i; Some (EvClose (sockfd c))) l
                  = map (λ c, EvClose (if closed c then -1 else sockfd c)) cs ∧
                  Forall (λ c, closed c = false → 0 ≤ sockfd c) cs).
  { set (f := λ i, c ← conns_array s !! i; Some (EvClose (sockfd c))).
    induction l as [|i l IH]; intros Hl.
    { by exists []. }
    destruct IH as (cs & Hcs & Heq & Hall).
    { intros j Hj. apply Hl. by right. }
    destruct (Hl i ltac:(left)) as (c & Hc & (_ & Hfd & _)). unfold fd_inv in Hfd.
    exists (c :: cs). split_and!.
    - by constructor.
    - change (omap f (i :: l))
        with (match f i with Some y => y :: omap f l | None => omap f l end).
      assert (Hf : f i = Some (EvClose (sockfd c))) by (unfold f; by rewrite Hc).
      rewrite Hf, Heq. simpl. do 2 f_equal. by destruct (closed c).
    - constructor; [|done]. intros Hcl. by rewrite Hcl in Hfd. }
  destruct (Hgen (conns s)) as (cs & Hcs & Heq & Hall).
  { intros i Hi. apply server_inv_lookup; [done|]. apply elem_of_app. by right. }
  exists cs. rewrite Heq. split_and!; try done.
  simpl. rewrite length_map. f_equal. symmetry. by eapply Forall2_length.
Qed.

Lemma shutdown_closes_active_slots_witness :
  let P := line_platform 2 8 in
  ∃ cs,
    Forall2 (λ i c, conns_array sample_server !! i = Some c) (conns sample_server) cs ∧
    spdk_jsonrpc_server_shutdown sample_server
    = EvClose 3 :: map (λ c, EvClose (if closed c then -1 else sockfd c)) cs ∧
    length (spdk_jsonrpc_server_shutdown sample_server) = 3%nat ∧
    Forall (λ c, closed c = false → 0 ≤ sockfd c) cs.
Proof.
  intros P. apply (@shutdown_closes_active_slots P sample_server sample_server_inv).
Defined.

(** ** Requests and their connections *)

Lemma run_server_owned `{Platform} acts :
  ∀ s s' tr, owned s → run_server acts s = Some (s', tr) → owned s'.
Proof.
  induction acts as [|[env|r] acts IH]; intros s s' tr Hown; simpl.
  - by intros [= <- _].
  - destruct (spdk_jsonrpc_server_poll env s) as [[[rc s1] t1]|] eqn:Hpoll; [|done].
    simpl. destruct (run_server acts s1) as [[s2 t2]|] eqn:Hrun; [|done].
    simpl. intros [= <- _]. eapply IH; [|done]. by eapply poll_owned.
  - apply IH. by apply send_response_owned.
Qed.

(** X12: a response never changes connection.  After construction, and
    after any run of poll steps and submissions, every request in the queue
    or the in-flight slot of a slot names that slot as its connection:
    [spdk_jsonrpc_server_send_response] queues a request on [request->conn]
    and nothing moves a request to another slot.  So each response is sent
    on, and released against the counter of, the connection its request
    arrived on. *)
Theorem responses_stay_on_their_connection `{Platform} :
  (∀ e s, (spdk_jsonrpc_server_listen e).1 = Some s → owned s) ∧
  (∀ acts s s' tr, owned s → run_server acts s = Some (s', tr) → owned s').
Proof. split; [apply listen_owned|intros acts; apply run_server_owned]. Qed.

Lemma responses_stay_on_their_connection_witness :
  let P := line_platform 2 8 in
  ∃ s0 s' tr,
    (spdk_jsonrpc_server_listen sample_listen_env).1 = Some s0 ∧
    run_server (firstn 3 sample_exchange) s0 = Some (s', tr) ∧
    (held <$> conns_array s' !! 0%nat) = Some [sample_request 0 [x62; x0a]] ∧
    owned s'.
Proof.
  intros P.
  destruct (@responses_stay_on_their_connection P) as [Hlisten Hrun].
  eexists _, _, _. split; [vm_compute; reflexivity|].
  lazymatch goal with
  | |- run_server _ ?s0 = _ ∧ _ =>
      assert (Hown : owned s0)
        by (apply (Hlisten sample_listen_env); vm_compute; reflexivity)
  end.
  split; [vm_compute; reflexivity|]. split; [reflexivity|].
  eapply (Hrun (firstn 3 sample_exchange)); [exact Hown|vm_compute; reflexivity].
Defined.

(** ** The assertions *)

Section Asserts.
Context `{Platform}.

Lemma discard_queued_drains n :
  ∀ c, length (send_queue c) = n → send_queue (discard_queued n c).1 = [].
Proof.
  induction n as [|n IH]; intros c Hlen; simpl.
  { by apply nil_length_inv in Hlen. }
  unfold spdk_jsonrpc_server_dequeue_request.
  destruct (send_queue c) as [|r q] eqn:Hq; [done|]. simpl.
  set (c2 := set_outstanding_requests _ _).
  specialize (IH c2). destruct (discard_queued n c2) as [c3 evs]. simpl in *.
  apply IH. lia.
Qed.

Lemma discard_responses_drains c : send_queue (discard_responses c).1 = [].
Proof.
  unfold discard_responses.
  destruct (send_request c) as [r|]; simpl.
  - set (c1 := set_send_request None _).
    pose proof (discard_queued_drains (length (send_queue c)) c1 eq_refl) as Hq.
    by destruct (discard_queued _ c1) as [c2 ev2].
  - pose proof (discard_queued_drains (length (send_queue c)) c eq_refl) as Hq.
    by destruct (discard_queued _ c) as [c2 ev2].
Qed.

Lemma conn_close_send_queue c :
  send_queue (spdk_jsonrpc_server_conn_close c).1 = send_queue c.
Proof. unfold spdk_jsonrpc_server_conn_close. simpl. by destruct (0 <=? sockfd c). Qed.

(** The first loop never trips [assert(STAILQ_EMPTY(&conn->send_queue))]. *)
Lemma poll_reap_conn_returns i s c :
  conns_array s !! i = Some c → is_Some (poll_reap_conn i s).
Proof.
  intros Hc. assert (Hi : (i < length (conns_array s))%nat) by by apply lookup_lt_Some in Hc.
  unfold poll_reap_conn. rewrite Hc. simpl.
  destruct (closed c); [|done].
  pose proof (discard_responses_drains c) as Hq.
  destruct (discard_responses c) as [c2 ev]. simpl in Hq.
  destruct (outstanding_requests c2 =? 0); [|done].
  unfold spdk_jsonrpc_server_conn_remove. simpl.
  rewrite list_lookup_insert_eq by done. simpl.
  pose proof (conn_close_send_queue c2) as Hq3.
  destruct (spdk_jsonrpc_server_conn_close c2) as [c3 ev3]. simpl in Hq3.
  by rewrite Hq3, Hq.
Qed.

Lemma poll_reap_returns l :
  ∀ s, NoDup l → (∀ i, i ∈ l → i ∈ conns s) → pool_inv s →
  ∃ s' tr, poll_reap l s = Some (s', tr) ∧ pool_inv s'.
Proof.
  induction l as [|i l IH]; intros s Hnd Hsub Hinv; simpl.
  { by exists s, []. }
  apply NoDup_cons in Hnd as [Hni Hnd].
  assert (Hin : i ∈ conns s) by (apply Hsub; by left).
  destruct (pool_inv_lookup s i Hinv) as [c Hc]; [apply elem_of_app; by right|].
  destruct (poll_reap_conn_returns i s c Hc) as [[s1 e1] Hrun1].
  rewrite Hrun1. simpl.
  destruct (poll_reap_conn_pool_inv i s s1 e1 Hinv Hin Hrun1) as [Hinv1 Hkeep].
  destruct (IH s1 Hnd) as (s2 & e2 & -> & Hinv2); [|done|].
  { intros j Hj. apply Hkeep; [by intros ->|]. apply Hsub. by right. }
  simpl. by eexists _, _.
Qed.

(** The listen-socket check never trips [assert(conn != NULL)]. *)
Lemma poll_accept_returns env s :
  pool_inv s → ∃ s' tr, poll_accept env s = Some (s', tr) ∧ pool_inv s'.
Proof.
  intros Hinv. unfold poll_accept.
  destruct (free_conns s) as [|i fr] eqn:Hfr; [by exists s, []|].
  destruct (pool_inv_lookup s i Hinv) as [c Hc]; [rewrite Hfr; by left|].
  destruct (spdk_jsonrpc_server_accept (env_accept env) s) as [[[rc s'] tr]|] eqn:Hacc.
  - simpl. exists s', tr. split; [done|]. by eapply accept_pool_inv.
  - unfold spdk_jsonrpc_server_accept in Hacc. rewrite Hfr, Hc in Hacc. simpl in Hacc.
    destruct (0 <=? _); [by destruct (accept_nonblock_ok _)|by destruct (transient _)].
Qed.

(** The receive step aborts only when the parser reports more bytes than
    it was given. *)
Lemma conn_recv_abort o c :
  spdk_jsonrpc_server_conn_recv o c = None →
  ∃ data n,
    o = RecvData data ∧
    let got := take (Z.to_nat (size_t (SPDK_JSONRPC_RECV_BUF_SIZE - recv_len c))) data in
    let len1 := size_t (recv_len c + Z.of_nat (length got)) in
    parse (take (Z.to_nat len1) (buf_write (recv_len c) got (recv_buf c))) = Consumed n ∧
    0 < n ∧ len1 < size_t n.
Proof.
  unfold spdk_jsonrpc_server_conn_recv, spdk_jsonrpc_parse_request.
  destruct o as [data|e]; simpl.
  2:{ by destruct (transient e). }
  destruct (_ =? -1); [done|]. destruct (_ =? 0); [done|].
  destruct (parse _) as [|n|] eqn:Hp; simpl; try done.
  destruct (n <? 0) eqn:E1; [done|]. destruct (0 <? n) eqn:E2; [|done].
  destruct (size_t n <=? _) eqn:E3; [done|]. intros _.
  exists data, n. split; [done|]. simpl. split_and!; [done|lia|lia].
Qed.

Lemma poll_io_abort env l :
  ∀ s, pool_inv s → (∀ i, i ∈ l → i ∈ conns s) → poll_io env l s = None →
  ∃ o c, spdk_jsonrpc_server_conn_recv o c = None.
Proof.
  induction l as [|i l IH]; intros s Hinv Hsub; simpl; [done|].
  destruct (pool_inv_lookup s i Hinv) as [c Hc].
  { apply elem_of_app. right. apply Hsub. by left. }
  rewrite Hc. simpl.
  destruct (poll_io_conn env c) as [[c' e1]|] eqn:Hstep; simpl.
  - destruct (poll_io env l _) as [[s2 e2]|] eqn:Hrun; [done|]. intros _.
    eapply IH; [| |exact Hrun].
    + apply pool_inv_set_conns_array; [done|]. by rewrite length_insert.
    + intros j Hj. apply Hsub. by right.
  - intros _. unfold poll_io_conn in Hstep.
    destruct (closed c); [done|].
    destruct (conn_send_total (env_send env (sockfd c)) c) as [[[rc c1] t1] Hsend].
    rewrite Hsend in Hstep. simpl in Hstep.
    destruct (negb (rc =? 0)).
    { by destruct (spdk_jsonrpc_server_conn_close c1). }
    destruct (spdk_jsonrpc_server_conn_recv _ c1) as [[[rc' c2] t2]|] eqn:Hrecv.
    + simpl in Hstep. destruct (negb (rc' =? 0)); [|done].
      by destruct (spdk_jsonrpc_server_conn_close c2).
    + by eexists _, _.
Qed.

End Asserts.

(** X13: what can abort a poll step.  Whatever state the connections are
    in, on a server whose slots are partitioned the first loop and the
    listen-socket check always complete: [conn_remove] is only reached with
    an empty send queue and [accept] only with a free slot, so neither of
    their assertions fails, and the send step always returns.  The step as a
    whole aborts only in the receive step of some connection, and only when
    the parser reports more consumed bytes than the buffer holds. *)
Theorem poll_aborts_only_on_parser_overrun `{Platform}
    (env : poll_env) (s : spdk_jsonrpc_server) :
  pool_inv s →
  (∃ s1 t1 s2 t2,
     poll_reap (conns s) s = Some (s1, t1) ∧
     poll_accept env s1 = Some (s2, t2) ∧ pool_inv s2) ∧
  (spdk_jsonrpc_server_poll env s = None →
   ∃ c data n,
     spdk_jsonrpc_server_conn_recv (RecvData data) c = None ∧
     let got := take (Z.to_nat (size_t (SPDK_JSONRPC_RECV_BUF_SIZE - recv_len c))) data in
     let len1 := size_t (recv_len c + Z.of_nat (length got)) in
     parse (take (Z.to_nat len1) (buf_write (recv_len c) got (recv_buf c))) = Consumed n ∧
     0 < n ∧ len1 < size_t n).
Proof.
  intros Hinv.
  assert (Hnd : NoDup (conns s)).
  { pose proof (pool_inv_NoDup s Hinv) as Hnd. by apply NoDup_app in Hnd as (_ & _ & Hnd). }
  destruct (poll_reap_returns (conns s) s Hnd ltac:(done) Hinv) as (s1 & t1 & Hrun1 & Hinv1).
  destruct (poll_accept_returns env s1 Hinv1) as (s2 & t2 & Hrun2 & Hinv2).
  split; [by exists s1, t1, s2, t2|].
  unfold spdk_jsonrpc_server_poll. rewrite Hrun1. simpl. rewrite Hrun2. simpl.
  destruct (poll_io env (conns s2) s2) as [[s3 t3]|] eqn:Hrun3; [done|]. intros _.
  destruct (poll_io_abort env (conns s2) s2 Hinv2 ltac:(done) Hrun3) as (o & c & Hrecv).
  destruct (conn_recv_abort o c Hrecv) as (data & n & -> & Hover).
  by exists c, data, n.
Qed.

Lemma poll_aborts_only_on_parser_overrun_witness :
  let P := line_platform 2 8 in
  ∃ s1 t1 s2 t2,
    poll_reap (conns sample_server) sample_server = Some (s1, t1) ∧
    poll_accept sample_env s1 = Some (s2, t2) ∧ pool_inv s2.
Proof.
  intros P.
  apply (@poll_aborts_only_on_parser_overrun P sample_env sample_server
           sample_server_pool_inv).
Defined.

(** With a parser that reports more than it was given the assertion of the
    receive step fails and the poll step aborts. *)
Example parser_overrun_aborts :
  @spdk_jsonrpc_server_conn_recv overrun_platform (RecvData [x61]) sample_conn = None ∧
  @spdk_jsonrpc_server_poll overrun_platform
    (uniform_env (AcceptFail EAGAIN) [] (RecvData [x61])) sample_server = None.
Proof. split; reflexivity. Qed.
